(** * zipref: a ZIP64 archive builder that clones file data by reference

    Shallow embedding of [zipref.py] and the properties of its layout
    arithmetic, header codec, chunked readers and archive assembly. *)

From Stdlib Require Import ZArith List Lia Bool.
From Stdlib.Strings Require Import Byte.
From Stdlib Require Import SpecFloat.
From stdpp Require Import base list.

Open Scope Z_scope.

(** ** Bytes and exceptions *)

Definition bytes := list byte.

Definition Z_of_byte (b : byte) : Z := Z.of_N (Byte.to_N b).

Definition byte_of_Z (z : Z) : byte :=
  match Byte.of_N (Z.to_N (z mod 256)) with
  | Some b => b
  | None => x00
  end.

(** [len(b)] of a Python [bytes] or [list], as a Python integer. *)
Definition len {A : Type} (l : list A) : Z := Z.of_nat (length l).

(** The Python exceptions the program can raise. *)
Inductive exn : Type :=
| OSError (errno : Z)
| StructError
| UnicodeEncodeError
| ZeroDivisionError
| OverflowError
| ValueError.

(** A pure computation that may raise. *)
Definition pyres (A : Type) : Type := (exn + A)%type.

Definition pyres_bind {A B : Type} (r : pyres A) (k : A -> pyres B) : pyres B :=
  match r with
  | inl e => inl e
  | inr a => k a
  end.

Notation "'let?' x ':=' r 'in' k" := (pyres_bind r (fun x => k))
  (at level 10, x name, r at level 100, k at level 200).

(** ** [struct.Struct]: little-endian packing without padding *)

Inductive format : Type := fmt_H | fmt_I | fmt_Q | fmt_q.

Definition format_size (f : format) : nat :=
  match f with
  | fmt_H => 2
  | fmt_I => 4
  | fmt_Q => 8
  | fmt_q => 8
  end%nat.

Definition format_in_range (f : format) (v : Z) : bool :=
  match f with
  | fmt_q => (- 2 ^ 63 <=? v) && (v <? 2 ^ 63)
  | _ => (0 <=? v) && (v <? 2 ^ (8 * Z.of_nat (format_size f)))
  end.

Fixpoint le_bytes (n : nat) (v : Z) : bytes :=
  match n with
  | O => []
  | S n' => byte_of_Z v :: le_bytes n' (v / 256)
  end.

Fixpoint le_value (bs : bytes) : Z :=
  match bs with
  | [] => 0
  | b :: bs' => Z_of_byte b + 256 * le_value bs'
  end.

Definition pack_field (f : format) (v : Z) : pyres bytes :=
  if format_in_range f v then inr (le_bytes (format_size f) v)
  else inl StructError.

Fixpoint pack (fs : list format) (vs : list Z) : pyres bytes :=
  match fs, vs with
  | [], [] => inr []
  | f :: fs', v :: vs' =>
      let? b := pack_field f v in
      let? bs := pack fs' vs' in
      inr (b ++ bs)
  | _, _ => inl StructError
  end.

Definition calcsize (fs : list format) : nat :=
  fold_right (fun f n => (format_size f + n)%nat) O fs.

(** Field [i] of a packed structure, read back from its bytes. *)
Definition field_offset (fs : list format) (i : nat) : nat := calcsize (take i fs).

Definition unpack_field (fs : list format) (i : nat) (bs : bytes) : Z :=
  match fs !! i with
  | Some f => le_value (take (format_size f) (drop (field_offset fs i) bs))
  | None => 0
  end.

Definition ZipFileHeader : list format :=
  [fmt_I; fmt_H; fmt_H; fmt_H; fmt_H; fmt_H; fmt_I; fmt_I; fmt_I; fmt_H; fmt_H].
Definition Zip64FileHeaderExtraField : list format :=
  [fmt_H; fmt_H; fmt_Q; fmt_Q].
Definition ZipCentralDirectoryFileHeader : list format :=
  [fmt_I; fmt_H; fmt_H; fmt_H; fmt_H; fmt_H; fmt_H; fmt_I; fmt_I; fmt_I;
   fmt_H; fmt_H; fmt_H; fmt_H; fmt_H; fmt_I; fmt_I].
Definition Zip64CentralDirectoryFileHeaderExtraField : list format :=
  [fmt_H; fmt_H; fmt_Q; fmt_Q; fmt_Q].
Definition Zip64EndOfCentralDirectoryRecord : list format :=
  [fmt_I; fmt_Q; fmt_H; fmt_H; fmt_I; fmt_I; fmt_Q; fmt_Q; fmt_Q; fmt_Q].
Definition Zip64EndOfCentralDirectoryLocator : list format :=
  [fmt_I; fmt_I; fmt_Q; fmt_I].
Definition ZipEndOfCentralDirectoryRecord : list format :=
  [fmt_I; fmt_H; fmt_H; fmt_H; fmt_H; fmt_I; fmt_I; fmt_H].
Definition FileCloneRange : list format :=
  [fmt_q; fmt_Q; fmt_Q; fmt_Q].

(** ** [zlib.crc32]: the reflected CRC-32 with polynomial 0xEDB88320 *)

Definition crc_poly : Z := 0xEDB88320.

Definition crc_shift (c : Z) : Z :=
  if Z.testbit c 0 then Z.lxor (Z.shiftr c 1) crc_poly else Z.shiftr c 1.

Definition crc_byte (c : Z) (b : byte) : Z :=
  Nat.iter 8 crc_shift (Z.lxor c (Z_of_byte b)).

(** [zlib.crc32(data, value)]: the running value is taken modulo 2^32. *)
Definition zlib_crc32 (data : bytes) (value : Z) : Z :=
  Z.lxor (fold_left crc_byte data (Z.lxor (Z.land value 0xFFFFFFFF) 0xFFFFFFFF))
         0xFFFFFFFF.

(** ** Python [str] and the file-system encoding

    A [str] is a sequence of code points.  File names are decoded by
    Python with UTF-8 and the [surrogateescape] handler: every byte
    that is not part of a well-formed UTF-8 sequence becomes the lone
    surrogate U+DC00 + byte, and encoding maps it back. *)

Definition pystr := list Z.

Definition encode_code_point (c : Z) : pyres bytes :=
  if c <? 0x80 then inr [byte_of_Z c]
  else if c <? 0x800 then
    inr [byte_of_Z (0xC0 + c / 64); byte_of_Z (0x80 + c mod 64)]
  else if (0xD800 <=? c) && (c <=? 0xDFFF) then
    if (0xDC80 <=? c) && (c <=? 0xDCFF) then inr [byte_of_Z (c - 0xDC00)]
    else inl UnicodeEncodeError
  else if c <? 0x10000 then
    inr [byte_of_Z (0xE0 + c / 4096); byte_of_Z (0x80 + (c / 64) mod 64);
         byte_of_Z (0x80 + c mod 64)]
  else
    inr [byte_of_Z (0xF0 + c / 262144); byte_of_Z (0x80 + (c / 4096) mod 64);
         byte_of_Z (0x80 + (c / 64) mod 64); byte_of_Z (0x80 + c mod 64)].

(** [name.encode('utf-8', errors='surrogateescape')] *)
Fixpoint utf8_encode (s : pystr) : pyres bytes :=
  match s with
  | [] => inr []
  | c :: s' =>
      let? b := encode_code_point c in
      let? bs := utf8_encode s' in
      inr (b ++ bs)
  end.

Definition in_range (lo hi v : Z) : bool := (lo <=? v) && (v <=? hi).

Definition is_continuation (b : byte) : bool := in_range 0x80 0xBF (Z_of_byte b).

(** Range of the second byte of a three and of a four byte sequence:
    it excludes overlong forms, surrogates and values above U+10FFFF. *)
Definition second_of_3 (b0 b1 : Z) : bool :=
  if b0 =? 0xE0 then in_range 0xA0 0xBF b1
  else if b0 =? 0xED then in_range 0x80 0x9F b1
  else in_range 0x80 0xBF b1.

Definition second_of_4 (b0 b1 : Z) : bool :=
  if b0 =? 0xF0 then in_range 0x90 0xBF b1
  else if b0 =? 0xF4 then in_range 0x80 0x8F b1
  else in_range 0x80 0xBF b1.

Definition surrogate_escape (b : byte) : Z := 0xDC00 + Z_of_byte b.

(** The code point at the head of [bs] and the number of bytes it takes. *)
Definition decode_prefix (bs : bytes) : Z * nat :=
  match bs with
  | [] => (0, O)
  | b0 :: rest =>
      let z0 := Z_of_byte b0 in
      if z0 <? 0x80 then (z0, 1%nat)
      else if in_range 0xC2 0xDF z0 then
        match rest with
        | b1 :: _ =>
            if is_continuation b1
            then ((z0 - 0xC0) * 64 + (Z_of_byte b1 - 0x80), 2%nat)
            else (surrogate_escape b0, 1%nat)
        | _ => (surrogate_escape b0, 1%nat)
        end
      else if in_range 0xE0 0xEF z0 then
        match rest with
        | b1 :: b2 :: _ =>
            if second_of_3 z0 (Z_of_byte b1) && is_continuation b2
            then ((z0 - 0xE0) * 4096 + (Z_of_byte b1 - 0x80) * 64
                  + (Z_of_byte b2 - 0x80), 3%nat)
            else (surrogate_escape b0, 1%nat)
        | _ => (surrogate_escape b0, 1%nat)
        end
      else if in_range 0xF0 0xF4 z0 then
        match rest with
        | b1 :: b2 :: b3 :: _ =>
            if second_of_4 z0 (Z_of_byte b1) && is_continuation b2
               && is_continuation b3
            then ((z0 - 0xF0) * 262144 + (Z_of_byte b1 - 0x80) * 4096
                  + (Z_of_byte b2 - 0x80) * 64 + (Z_of_byte b3 - 0x80), 4%nat)
            else (surrogate_escape b0, 1%nat)
        | _ => (surrogate_escape b0, 1%nat)
        end
      else (surrogate_escape b0, 1%nat)
  end.

Fixpoint utf8_decode_fuel (fuel : nat) (bs : bytes) : pystr :=
  match fuel, bs with
  | S fuel', _ :: _ =>
      let '(c, n) := decode_prefix bs in
      c :: utf8_decode_fuel fuel' (drop n bs)
  | _, _ => []
  end.

(** [os.fsdecode]: how a file name of the operating system becomes a [str]. *)
Definition os_fsdecode (bs : bytes) : pystr := utf8_decode_fuel (length bs) bs.

(** ** [time.struct_time] and the MS-DOS date and time *)

Record struct_time : Type := {
  tm_year : Z;
  tm_mon : Z;
  tm_mday : Z;
  tm_hour : Z;
  tm_min : Z;
  tm_sec : Z
}.

(** The ranges [time.localtime] guarantees for the fields it returns. *)
Definition tm_in_range (tm : struct_time) : Prop :=
  1 <= tm_mon tm <= 12 /\ 1 <= tm_mday tm <= 31 /\ 0 <= tm_hour tm <= 23 /\
  0 <= tm_min tm <= 59 /\ 0 <= tm_sec tm <= 61.

(** ** Python floats and true division

    [a / b] on two [int] is the exact quotient rounded once to the
    nearest binary64 value, ties to even; [int(x)] truncates. *)

Definition float_of_int (z : Z) : spec_float :=
  match z with
  | Z0 => S754_zero false
  | Zpos p => S754_finite false p 0
  | Zneg p => S754_finite true p 0
  end.

Definition int_truediv (a b : Z) : pyres spec_float :=
  if b =? 0 then inl ZeroDivisionError
  else
    match SFdiv 53 1024 (float_of_int a) (float_of_int b) with
    | S754_infinity _ => inl OverflowError
    | x => inr x
    end.

Definition int_of_float (x : spec_float) : pyres Z :=
  match x with
  | S754_zero _ => inr 0
  | S754_infinity _ => inl OverflowError
  | S754_nan => inl ValueError
  | S754_finite s m e =>
      let v := if 0 <=? e then Zpos m * 2 ^ e else Zpos m / 2 ^ (- e) in
      inr (if s then - v else v)
  end.

(** Line 94 of [execute]:
    [(int((offset + len(header) + alignment - 1) / alignment) * alignment) - len(header)] *)
Definition aligned_offset (offset header_len alignment : Z) : pyres Z :=
  let? q := int_truediv (offset + header_len + alignment - 1) alignment in
  let? n := int_of_float q in
  inr (n * alignment - header_len).

(** ** The operating system as the program sees it *)

Record inode : Type := {
  i_mode : Z;
  i_mtime : spec_float;
  i_readable : bool;
  i_data : bytes
}.

Record open_file : Type := {
  of_ino : nat;
  of_pos : Z
}.

(** [struct file_clone_range], the argument of the FICLONERANGE ioctl. *)
Record file_clone_range : Type := {
  src_fd : Z;
  src_offset : Z;
  src_length : Z;
  dest_offset : Z
}.

(** One [os.write] call: descriptor, file position, data. *)
Definition write_event : Type := (nat * Z * bytes)%type.

Record world : Type := {
  w_dir : pystr -> option nat;           (* path resolution, to an inode number *)
  w_inodes : list inode;                 (* inode table *)
  w_fds : list (option open_file);       (* descriptor table *)
  w_reads : list Z;                      (* bytes the next [read] calls grant at most *)
  w_ficlonerange : nat -> file_clone_range -> option Z;
                                         (* errno with which the kernel rejects a clone *)
  w_writes : list write_event            (* history of [os.write] calls *)
}.

Definition set_inodes (w : world) (inodes : list inode) : world :=
  {| w_dir := w_dir w; w_inodes := inodes; w_fds := w_fds w; w_reads := w_reads w;
     w_ficlonerange := w_ficlonerange w; w_writes := w_writes w |}.

Definition set_fds (w : world) (fds : list (option open_file)) : world :=
  {| w_dir := w_dir w; w_inodes := w_inodes w; w_fds := fds; w_reads := w_reads w;
     w_ficlonerange := w_ficlonerange w; w_writes := w_writes w |}.

Definition set_reads (w : world) (reads : list Z) : world :=
  {| w_dir := w_dir w; w_inodes := w_inodes w; w_fds := w_fds w; w_reads := reads;
     w_ficlonerange := w_ficlonerange w; w_writes := w_writes w |}.

Definition set_writes (w : world) (writes : list write_event) : world :=
  {| w_dir := w_dir w; w_inodes := w_inodes w; w_fds := w_fds w; w_reads := w_reads w;
     w_ficlonerange := w_ficlonerange w; w_writes := writes |}.

Definition set_ficlonerange (w : world)
  (verdict : nat -> file_clone_range -> option Z) : world :=
  {| w_dir := w_dir w; w_inodes := w_inodes w; w_fds := w_fds w; w_reads := w_reads w;
     w_ficlonerange := verdict; w_writes := w_writes w |}.

Definition set_data (i : inode) (data : bytes) : inode :=
  {| i_mode := i_mode i; i_mtime := i_mtime i; i_readable := i_readable i;
     i_data := data |}.

Definition set_pos (f : open_file) (pos : Z) : open_file :=
  {| of_ino := of_ino f; of_pos := pos |}.

(** What the program prints. *)
Inductive out_event : Type :=
| MsgAlignment (alignment : Z)
| MsgPath (path : pystr)
| MsgHeader (crc offset : Z)
| MsgError (errno : Z)
| MsgDot
| MsgCloned
| MsgCopied.

(** ** The monad of the program: state, exceptions, output, divergence *)

Inductive outcome (A : Type) : Type :=
| Ok (a : A) (w : world)
| Raise (e : exn) (w : world)
| Diverge.

Arguments Ok {A} a w.
Arguments Raise {A} e w.
Arguments Diverge {A}.

Definition M (A : Type) : Type := world -> list out_event * outcome A.

Definition ret {A : Type} (a : A) : M A := fun w => ([], Ok a w).

Definition raise {A : Type} (e : exn) : M A := fun w => ([], Raise e w).

Definition diverge {A : Type} : M A := fun _ => ([], Diverge).

Definition bind {A B : Type} (m : M A) (k : A -> M B) : M B :=
  fun w =>
    match m w with
    | (o1, Ok a w1) => let '(o2, r) := k a w1 in (o1 ++ o2, r)
    | (o1, Raise e w1) => (o1, Raise e w1)
    | (o1, Diverge) => (o1, Diverge)
    end.

Notation "x <- m ;; k" := (bind m (fun x => k))
  (at level 100, m at next level, right associativity).
Notation "m ;; k" := (bind m (fun _ => k))
  (at level 100, right associativity).

Definition lift {A : Type} (r : pyres A) : M A :=
  match r with
  | inl e => raise e
  | inr a => ret a
  end.

Definition print (e : out_event) : M unit := fun w => ([e], Ok tt w).

Definition get_world : M world := fun w => ([], Ok w w).

Definition put_world (w' : world) : M unit := fun _ => ([], Ok tt w').

(** [try: m  except OSError as e: h e] *)
Definition try_except_OSError {A : Type} (m : M A) (h : Z -> M A) : M A :=
  fun w =>
    match m w with
    | (o1, Raise (OSError errno) w1) => let '(o2, r) := h errno w1 in (o1 ++ o2, r)
    | r => r
    end.

(** [try: m  finally: c] *)
Definition try_finally {A : Type} (m : M A) (c : M unit) : M A :=
  fun w =>
    match m w with
    | (o1, Ok a w1) =>
        match c w1 with
        | (o2, Ok _ w2) => (o1 ++ o2, Ok a w2)
        | (o2, Raise e w2) => (o1 ++ o2, Raise e w2)
        | (o2, Diverge) => (o1 ++ o2, Diverge)
        end
    | (o1, Raise e w1) =>
        match c w1 with
        | (o2, Ok _ w2) => (o1 ++ o2, Raise e w2)
        | (o2, Raise e2 w2) => (o1 ++ o2, Raise e2 w2)
        | (o2, Diverge) => (o1 ++ o2, Diverge)
        end
    | (o1, Diverge) => (o1, Diverge)
    end.

(** ** System calls *)

Definition ENOENT : Z := 2.
Definition EBADF : Z := 9.
Definition EACCES : Z := 13.
Definition EINVAL : Z := 22.
Definition ELOOP : Z := 40.

(** The file type bits of a mode: octal 0170000, with regular files at
    0100000 and symbolic links at 0120000. *)
Definition S_IFMT (mode : Z) : Z := Z.land mode 0xF000.
Definition S_ISREG (mode : Z) : bool := S_IFMT mode =? 0x8000.
Definition S_ISLNK (mode : Z) : bool := S_IFMT mode =? 0xA000.

Record stat_result : Type := {
  st_mode : Z;
  st_mtime : spec_float;
  st_size : Z
}.

Definition stat_of (i : inode) : stat_result :=
  {| st_mode := i_mode i; st_mtime := i_mtime i; st_size := len (i_data i) |}.

Definition resolve (w : world) (path : pystr) : option inode :=
  match w_dir w path with
  | Some n => w_inodes w !! n
  | None => None
  end.

Definition os_lstat (path : pystr) : M stat_result :=
  fun w =>
    match resolve w path with
    | Some i => ([], Ok (stat_of i) w)
    | None => ([], Raise (OSError ENOENT) w)
    end.

(** The lowest descriptor that is not open. *)
Fixpoint free_fd (fds : list (option open_file)) : nat :=
  match fds with
  | [] => O
  | None :: _ => O
  | Some _ :: fds' => S (free_fd fds')
  end.

Definition install_fd (fds : list (option open_file)) (f : open_file)
  : list (option open_file) :=
  let n := free_fd fds in
  if (n <? length fds)%nat then <[n := Some f]> fds else fds ++ [Some f].

(** [os.open(path, os.O_RDONLY|os.O_NOFOLLOW|os.O_CLOEXEC)] *)
Definition os_open (path : pystr) : M nat :=
  fun w =>
    match w_dir w path with
    | None => ([], Raise (OSError ENOENT) w)
    | Some n =>
        match w_inodes w !! n with
        | None => ([], Raise (OSError ENOENT) w)
        | Some i =>
            if S_ISLNK (i_mode i) then ([], Raise (OSError ELOOP) w)
            else if negb (i_readable i) then ([], Raise (OSError EACCES) w)
            else
              ([], Ok (free_fd (w_fds w))
                      (set_fds w (install_fd (w_fds w) {| of_ino := n; of_pos := 0 |})))
        end
    end.

Definition fd_lookup (w : world) (fd : nat) : option open_file :=
  match w_fds w !! fd with
  | Some (Some f) => Some f
  | _ => None
  end.

Definition os_close (fd : nat) : M unit :=
  fun w =>
    match fd_lookup w fd with
    | Some _ => ([], Ok tt (set_fds w (<[fd := None]> (w_fds w))))
    | None => ([], Raise (OSError EBADF) w)
    end.

(** The bytes of the file a descriptor is open on. *)
Definition fd_data (w : world) (fd : nat) : option bytes :=
  match fd_lookup w fd with
  | Some f => i_data <$> (w_inodes w !! of_ino f)
  | None => None
  end.

Inductive whence : Type := SEEK_SET | SEEK_CUR | SEEK_END.

Definition os_lseek (fd : nat) (pos : Z) (how : whence) : M Z :=
  fun w =>
    match fd_lookup w fd with
    | None => ([], Raise (OSError EBADF) w)
    | Some f =>
        match w_inodes w !! of_ino f with
        | None => ([], Raise (OSError EBADF) w)
        | Some i =>
            let new :=
              match how with
              | SEEK_SET => pos
              | SEEK_CUR => of_pos f + pos
              | SEEK_END => len (i_data i) + pos
              end in
            if new <? 0 then ([], Raise (OSError EINVAL) w)
            else ([], Ok new (set_fds w (<[fd := Some (set_pos f new)]> (w_fds w))))
        end
    end.

(** [os.read(fd, n)]: at most [n] bytes from the file position, and at
    most what the read schedule grants for this call; an exhausted
    schedule grants everything asked for. *)
Definition os_read (fd : nat) (n : Z) : M bytes :=
  fun w =>
    match fd_lookup w fd with
    | None => ([], Raise (OSError EBADF) w)
    | Some f =>
        match w_inodes w !! of_ino f with
        | None => ([], Raise (OSError EBADF) w)
        | Some i =>
            if n <? 0 then ([], Raise (OSError EINVAL) w)
            else
              let granted :=
                match w_reads w with
                | [] => n
                | g :: _ => Z.min n g
                end in
              let data := take (Z.to_nat granted) (drop (Z.to_nat (of_pos f)) (i_data i)) in
              ([], Ok data
                      (set_reads
                         (set_fds w (<[fd := Some (set_pos f (of_pos f + len data))]> (w_fds w)))
                         (tail (w_reads w))))
        end
    end.

(** The content of a file after [data] is stored at offset [pos]; a hole
    before [pos] reads as zeros. *)
Definition write_at (content : bytes) (pos : Z) (data : bytes) : bytes :=
  match data with
  | [] => content
  | _ =>
      let p := Z.to_nat pos in
      take p content ++ replicate (p - length content) x00 ++ data
        ++ drop (p + length data) content
  end.

Definition os_write (fd : nat) (data : bytes) : M Z :=
  fun w =>
    match fd_lookup w fd with
    | None => ([], Raise (OSError EBADF) w)
    | Some f =>
        match w_inodes w !! of_ino f with
        | None => ([], Raise (OSError EBADF) w)
        | Some i =>
            let inodes := <[of_ino f := set_data i (write_at (i_data i) (of_pos f) data)]> (w_inodes w) in
            let fds := <[fd := Some (set_pos f (of_pos f + len data))]> (w_fds w) in
            ([], Ok (len data)
                    (set_writes (set_fds (set_inodes w inodes) fds)
                       (w_writes w ++ [(fd, of_pos f, data)])))
        end
    end.

Definition FICLONERANGE : Z := 0x4020940d.

Definition signed64 (v : Z) : Z := if v <? 2 ^ 63 then v else v - 2 ^ 64.

Definition unpack_file_clone_range (data : bytes) : file_clone_range :=
  {| src_fd := signed64 (unpack_field FileCloneRange 0 data);
     src_offset := unpack_field FileCloneRange 1 data;
     src_length := unpack_field FileCloneRange 2 data;
     dest_offset := unpack_field FileCloneRange 3 data |}.

(** [fcntl.ioctl(fd, request, data, False)] for the one request the
    program issues.  A clone of length 0 extends to the end of the
    source; the bytes of the source range appear in the destination
    range, nothing is written through [os.write] and no file position
    moves. *)
Definition fcntl_ioctl (fd : nat) (request : Z) (data : bytes) : M unit :=
  fun w =>
    if negb (request =? FICLONERANGE) then ([], Raise (OSError EINVAL) w)
    else
      let req := unpack_file_clone_range data in
      match w_ficlonerange w fd req with
      | Some errno => ([], Raise (OSError errno) w)
      | None =>
          match fd_lookup w fd, fd_lookup w (Z.to_nat (src_fd req)) with
          | Some fdst, Some fsrc =>
              match w_inodes w !! of_ino fdst, w_inodes w !! of_ino fsrc with
              | Some idst, Some isrc =>
                  let n := if src_length req =? 0
                           then len (i_data isrc) - src_offset req
                           else src_length req in
                  if (src_fd req <? 0) || (n <? 0)
                     || (len (i_data isrc) <? src_offset req + n)
                  then ([], Raise (OSError EINVAL) w)
                  else
                    let chunk := take (Z.to_nat n)
                                      (drop (Z.to_nat (src_offset req)) (i_data isrc)) in
                    ([], Ok tt
                            (set_inodes w
                               (<[of_ino fdst :=
                                    set_data idst (write_at (i_data idst) (dest_offset req) chunk)]>
                                  (w_inodes w))))
              | _, _ => ([], Raise (OSError EBADF) w)
              end
          | _, _ => ([], Raise (OSError EBADF) w)
          end
      end.

(** ** Generators

    A generator is a state and a resumption: [gen_next] runs the body
    up to its next [yield], to a [continue] of its loop, or to its end. *)

Inductive step (S : Type) : Type :=
| Yield (data : bytes) (s : S)
| Skip (s : S)
| Stop.

Arguments Yield {S} data s.
Arguments Skip {S} s.
Arguments Stop {S}.

Record generator : Type := {
  gen_state : Type;
  gen_init : gen_state;
  gen_next : gen_state -> M (step gen_state)
}.

(** [for data in g: acc = body(data, acc)], resumed from state [s]. *)
Fixpoint for_each {Acc : Type} (fuel : nat) (g : generator) (s : gen_state g)
  (body : bytes -> Acc -> M Acc) (acc : Acc) : M Acc :=
  match fuel with
  | O => diverge
  | S fuel' =>
      r <- gen_next g s ;;
      match r with
      | Stop => ret acc
      | Skip s' => for_each fuel' g s' body acc
      | Yield data s' =>
          acc' <- body data acc ;;
          for_each fuel' g s' body acc'
      end
  end.

(** [list(g)]: the chunks a generator yields. *)
Definition collect (data : bytes) (acc : list bytes) : M (list bytes) :=
  ret (acc ++ [data]).

Definition chunks_of (fuel : nat) (g : generator) : M (list bytes) :=
  for_each fuel g (gen_init g) collect [].

Inductive chunk_state : Type :=
| chunk_start
| chunk_loop (length : Z).

Definition chunk_iterator_next (fd : nat) (position length chunk_size : Z)
  (s : chunk_state) : M (step chunk_state) :=
  match s with
  | chunk_start =>
      _ <- os_lseek fd position SEEK_SET ;;
      ret (Skip (chunk_loop length))
  | chunk_loop length =>
      if length =? 0 then ret Stop
      else
        data <- os_read fd (Z.min chunk_size length) ;;
        match data with
        | [] => ret (Skip (chunk_loop length))
        | _ => ret (Yield data (chunk_loop (length - len data)))
        end
  end.

Definition chunk_iterator (fd : nat) (position length chunk_size : Z) : generator :=
  {| gen_state := chunk_state;
     gen_init := chunk_start;
     gen_next := chunk_iterator_next fd position length chunk_size |}.

Definition default_chunk_size : Z := 63356.

Definition progress_next (it : generator) (each : Z)
  (s : gen_state it * Z * Z) : M (step (gen_state it * Z * Z)) :=
  let '(s0, position, written_at) := s in
  r <- gen_next it s0 ;;
  match r with
  | Stop => ret Stop
  | Skip s1 => ret (Skip (s1, position, written_at))
  | Yield data s1 =>
      let position := position + len data in
      if each <=? position - written_at then
        _ <- print MsgDot ;;
        ret (Yield data (s1, position, position))
      else ret (Yield data (s1, position, written_at))
  end.

Definition progress (it : generator) (each : Z) : generator :=
  {| gen_state := (gen_state it * Z * Z)%type;
     gen_init := (gen_init it, 0, 0);
     gen_next := progress_next it each |}.

Definition default_each : Z := 1048576 * 32.

Definition compute_crc32 (fuel : nat) (it : generator) : M Z :=
  for_each fuel it (gen_init it) (fun data crc => ret (zlib_crc32 data crc)) 0.

Definition write_all (fuel : nat) (fd : nat) (it : generator) : M unit :=
  for_each fuel it (gen_init it) (fun data _ => _ <- os_write fd data ;; ret tt) tt.

Definition clone_range (src_fd : nat) (src_offset src_length : Z) (dst_fd : nat)
  (dst_offset : Z) : M unit :=
  data <- lift (pack FileCloneRange [Z.of_nat src_fd; src_offset; src_length; dst_offset]) ;;
  fcntl_ioctl dst_fd FICLONERANGE data.

(** ** Observing runs *)

(** [m] run in [w] prints [o], returns [a] and leaves the world [w']. *)
Definition run {A : Type} (m : M A) (w : world) (o : list out_event) (a : A)
  (w' : world) : Prop :=
  m w = (o, Ok a w').

(** The result of a run with its value mapped, and with the output dropped. *)
Definition outcome_map {A B : Type} (f : A -> B) (r : outcome A) : outcome B :=
  match r with
  | Ok a w => Ok (f a) w
  | Raise e w => Raise e w
  | Diverge => Diverge
  end.

Definition is_dot (e : out_event) : bool :=
  match e with
  | MsgDot => true
  | _ => false
  end.

(** The output without the progress dots. *)
Definition without_dots (o : list out_event) : list out_event :=
  List.filter (fun e => negb (is_dot e)) o.

(** ** The headers as a reader parses them

    The name follows the fixed part of a header and the extra field
    follows the name; their lengths are fields of the fixed part. *)

Definition local_name_length (h : bytes) : nat := Z.to_nat (unpack_field ZipFileHeader 9 h).

Definition local_name (h : bytes) : bytes :=
  take (local_name_length h) (drop (calcsize ZipFileHeader) h).

Definition local_extra (h : bytes) : bytes :=
  drop (calcsize ZipFileHeader + local_name_length h) h.

Definition central_name_length (h : bytes) : nat :=
  Z.to_nat (unpack_field ZipCentralDirectoryFileHeader 10 h).

Definition central_name (h : bytes) : bytes :=
  take (central_name_length h) (drop (calcsize ZipCentralDirectoryFileHeader) h).

Definition central_extra (h : bytes) : bytes :=
  drop (calcsize ZipCentralDirectoryFileHeader + central_name_length h) h.

(** ** A small host, for examples

    Local time is fixed at 2024-05-17 13:45:31; the directory holds a
    regular file [big] of seven bytes, a directory [d] and a regular
    file [s] of two bytes; descriptor 3 is open on the empty archive. *)

Definition example_localtime (t : spec_float) : struct_time :=
  {| tm_year := 2024; tm_mon := 5; tm_mday := 17;
     tm_hour := 13; tm_min := 45; tm_sec := 31 |}.

Definition example_inode (mode : Z) (data : bytes) : inode :=
  {| i_mode := mode; i_mtime := S754_zero false; i_readable := true; i_data := data |}.

Definition path_big : pystr := [98; 105; 103].
Definition path_d : pystr := [100].
Definition path_s : pystr := [115].

Definition example_dir (p : pystr) : option nat :=
  if decide (p = path_big) then Some 1%nat
  else if decide (p = path_d) then Some 2%nat
  else if decide (p = path_s) then Some 3%nat
  else None.

Definition example_big : bytes := [x01; x02; x03; x04; x05; x06; x07].

(** [clone] is the errno of every clone request, or [None] when the
    file system clones; the first reads are empty or short. *)
Definition example_world (clone : option Z) : world :=
  {| w_dir := example_dir;
     w_inodes := [example_inode 0x81A4 []; example_inode 0x81A4 example_big;
                  example_inode 0x41ED []; example_inode 0x81A4 [x0a; x0b]];
     w_fds := [None; None; None; Some {| of_ino := 0; of_pos := 0 |}];
     w_reads := [0; 3; 0; 0; 1];
     w_ficlonerange := fun _ _ => clone;
     w_writes := [] |}.

Definition example_stat : stat_result :=
  {| st_mode := 0x81A4; st_mtime := S754_zero false; st_size := 7 |}.

(** The same host with descriptor 4 open on [big], at position 5, and
    with the given schedule of reads. *)
Definition example_reader (reads : list Z) : world :=
  {| w_dir := example_dir;
     w_inodes := w_inodes (example_world None);
     w_fds := [None; None; None; Some {| of_ino := 0; of_pos := 0 |};
               Some {| of_ino := 1; of_pos := 5 |}];
     w_reads := reads;
     w_ficlonerange := fun _ _ => None;
     w_writes := [] |}.

(** A file name that is not UTF-8: [a], e-acute, the byte 0xFF. *)
Definition example_raw_name : bytes := [x61; xc3; xa9; xff].

(** A host on which every file dates from 1970-01-01 00:00:00, before
    the first MS-DOS date. *)
Definition epoch_localtime (t : spec_float) : struct_time :=
  {| tm_year := 1970; tm_mon := 1; tm_mday := 1;
     tm_hour := 0; tm_min := 0; tm_sec := 0 |}.

(** A path the directory of the example host does not hold, and a
    name with a lone high surrogate. *)
Definition path_missing : pystr := [120].

(** ** The program, over the local time of the host *)

Section Zipref.

(** [time.localtime]: the host's conversion of a timestamp to local
    calendar time. *)
Variable localtime : spec_float -> struct_time.

Definition get_dos_date_time (t : spec_float) : Z * Z :=
  let tm := localtime t in
  let d := Z.lor (Z.lor (Z.shiftl (tm_year tm - 1980) 9) (Z.shiftl (tm_mon tm) 5))
                 (tm_mday tm) in
  let t := Z.lor (Z.lor (Z.shiftl (tm_hour tm) 11) (Z.shiftl (tm_min tm) 5))
                 (Z.shiftr (tm_sec tm) 1) in
  (d, t).

Definition make_file_header (name : pystr) (st : stat_result) (crc : Z) : pyres bytes :=
  let dos_tm := get_dos_date_time (st_mtime st) in
  let? bname := utf8_encode name in
  let? extra := pack Zip64FileHeaderExtraField [1; 16; st_size st; st_size st] in
  let? fixed_header :=
    pack ZipFileHeader
      [0x04034b50; 45; Z.shiftl 1 11; 0; snd dos_tm; fst dos_tm; crc;
       0xffffffff; 0xffffffff; len bname; len extra] in
  inr (fixed_header ++ bname ++ extra).

Definition make_central_header (name : pystr) (st : stat_result) (crc offset : Z)
  : pyres bytes :=
  let dos_tm := get_dos_date_time (st_mtime st) in
  let? bname := utf8_encode name in
  let? extra :=
    pack Zip64CentralDirectoryFileHeaderExtraField
      [1; 24; st_size st; st_size st; offset] in
  let? fixed_header :=
    pack ZipCentralDirectoryFileHeader
      [0x02014b50; 45; 45; Z.shiftl 1 11; 0; snd dos_tm; fst dos_tm; crc;
       0xffffffff; 0xffffffff; len bname; len extra; 0; 0; 0; 0; 0xffffffff] in
  inr (fixed_header ++ bname ++ extra).

(** An element of [datas]: path, stat result, checksum, header offset. *)
Definition entry : Type := (pystr * stat_result * Z * Z)%type.

Definition entry_path (e : entry) : pystr := e.1.1.1.
Definition entry_stat (e : entry) : stat_result := e.1.1.2.
Definition entry_crc (e : entry) : Z := e.1.2.
Definition entry_offset (e : entry) : Z := e.2.

(** The inner [try ... except OSError] of [execute]: clone the data,
    or copy it when the clone is refused.  Returns [cloned]. *)
Definition clone_or_copy (fuel : nat) (fd fd2 : nat) (size data_offset : Z) : M bool :=
  try_except_OSError
    (_ <- clone_range fd2 0 size fd data_offset ;;
     ret true)
    (fun errno =>
       _ <- print (MsgError errno) ;;
       _ <- write_all fuel fd
              (progress (chunk_iterator fd2 0 size default_chunk_size) default_each) ;;
       ret false).

(** The body of the [try ... finally] of [execute], with the source open as [fd2]. *)
Definition archive_file (fuel : nat) (fd : nat) (alignment : Z) (path : pystr)
  (st : stat_result) (fd2 : nat) : M (Z * Z * bool) :=
  crc <- compute_crc32 fuel
           (progress (chunk_iterator fd2 0 (st_size st) default_chunk_size) default_each) ;;
  header <- lift (make_file_header path st crc) ;;
  offset <- os_lseek fd 0 SEEK_END ;;
  offset <- lift (aligned_offset offset (len header) alignment) ;;
  _ <- os_lseek fd offset SEEK_SET ;;
  _ <- os_write fd header ;;
  _ <- print (MsgHeader crc offset) ;;
  cloned <- clone_or_copy fuel fd fd2 (st_size st) (offset + len header) ;;
  ret (crc, offset, cloned).

(** One iteration of [for path in paths]; [None] is the [continue]. *)
Definition execute_path (fuel : nat) (fd : nat) (alignment : Z) (path : pystr)
  : M (option entry) :=
  st <- os_lstat path ;;
  if negb (S_ISREG (st_mode st)) then ret None
  else
    _ <- print (MsgPath path) ;;
    fd2 <- os_open path ;;
    r <- try_finally (archive_file fuel fd alignment path st fd2) (os_close fd2) ;;
    let '(crc, offset, cloned) := r in
    _ <- print (if cloned : bool then MsgCloned else MsgCopied) ;;
    ret (Some (path, st, crc, offset)).

Fixpoint execute_paths (fuel : nat) (fd : nat) (alignment : Z) (paths : list pystr)
  (datas : list entry) : M (list entry) :=
  match paths with
  | [] => ret datas
  | path :: paths' =>
      r <- execute_path fuel fd alignment path ;;
      match r with
      | None => execute_paths fuel fd alignment paths' datas
      | Some e => execute_paths fuel fd alignment paths' (datas ++ [e])
      end
  end.

Fixpoint write_central_headers (fd : nat) (datas : list entry) : M unit :=
  match datas with
  | [] => ret tt
  | (path, st, crc, offset) :: datas' =>
      header <- lift (make_central_header path st crc offset) ;;
      _ <- os_write fd header ;;
      write_central_headers fd datas'
  end.

Definition zip64_end_of_central_directory (count central_start central_end : Z)
  : pyres bytes :=
  pack Zip64EndOfCentralDirectoryRecord
    [0x06064b50; 44; 45; 45; 0; 0; count; count; central_end - central_start;
     central_start].

Definition zip64_locator (central_end : Z) : pyres bytes :=
  pack Zip64EndOfCentralDirectoryLocator [0x07064b50; 0; central_end; 1].

Definition end_of_central_directory : pyres bytes :=
  pack ZipEndOfCentralDirectoryRecord
    [0x06054b50; 0; 0; 0xffff; 0xffff; 0xffffffff; 0xffffffff; 0].

Definition execute (fuel : nat) (fd : nat) (paths : list pystr) (alignment : Z) : M unit :=
  _ <- print (MsgAlignment alignment) ;;
  datas <- execute_paths fuel fd alignment paths [] ;;
  central_start <- os_lseek fd 0 SEEK_END ;;
  _ <- write_central_headers fd datas ;;
  central_end <- os_lseek fd 0 SEEK_CUR ;;
  data <- lift (zip64_end_of_central_directory (len datas) central_start central_end) ;;
  _ <- os_write fd data ;;
  data <- lift (zip64_locator central_end) ;;
  _ <- os_write fd data ;;
  data <- lift end_of_central_directory ;;
  _ <- os_write fd data ;;
  ret tt.

(** ** The order of the writes

    [entries_written fd datas evs]: the writes [evs] are, entry by
    entry in the order of [datas], the local header of the entry at
    its offset followed by the writes of its data (none when the data
    was cloned). *)
Inductive entries_written (fd : nat) : list entry -> list write_event -> Prop :=
| entries_written_nil : entries_written fd [] []
| entries_written_cons (e : entry) (header : bytes) (data_writes : list write_event)
    (es : list entry) (evs : list write_event) :
    make_file_header (entry_path e) (entry_stat e) (entry_crc e) = inr header ->
    Forall (fun ev : write_event => ev.1.1 = fd) data_writes ->
    entries_written fd es evs ->
    entries_written fd (e :: es) ((fd, entry_offset e, header) :: data_writes ++ evs).

(** [central_written fd datas evs]: the writes [evs] are the central
    headers of the entries of [datas], one write each, in that order. *)
Inductive central_written (fd : nat) : list entry -> list write_event -> Prop :=
| central_written_nil : central_written fd [] []
| central_written_cons (e : entry) (header : bytes) (pos : Z)
    (es : list entry) (evs : list write_event) :
    make_central_header (entry_path e) (entry_stat e) (entry_crc e) (entry_offset e)
    = inr header ->
    central_written fd es evs ->
    central_written fd (e :: es) ((fd, pos, header) :: evs).

(** ** Vocabulary of the specification *)

(** Descriptor [fd] is open on inode [ino] at position [pos], and the
    file holds [data]. *)
Definition fd_at (w : world) (fd ino : nat) (pos : Z) (data : bytes) : Prop :=
  fd_lookup w fd = Some {| of_ino := ino; of_pos := pos |} /\
  i_data <$> (w_inodes w !! ino) = Some data.

(** A chunk as [chunk_iterator] may yield it. *)
Definition chunk_ok (chunk_size : Z) (c : bytes) : Prop := 0 < len c <= chunk_size.

(** The number of bytes the next [read] of [n] bytes is granted. *)
Definition read_grant (w : world) (n : Z) : Z :=
  match w_reads w with
  | [] => n
  | g :: _ => Z.min n g
  end.

(** [lstat] finds a regular file at [path]. *)
Definition is_regular (w : world) (path : pystr) : bool :=
  match resolve w path with
  | Some i => S_ISREG (i_mode i)
  | None => false
  end.

(** The directory and the file types are those of [w]. *)
Definition meta_same (w w' : world) : Prop :=
  w_dir w' = w_dir w /\ (i_mode <$> w_inodes w') = (i_mode <$> w_inodes w).

(** Nothing was written through [os.write] between [w] and [w']. *)
Definition quiet (w w' : world) : Prop :=
  meta_same w w' /\ w_writes w' = w_writes w.

(** Between [w] and [w'] the events [evs] were written, all through [fd]. *)
Definition wrote (fd : nat) (evs : list write_event) (w w' : world) : Prop :=
  meta_same w w' /\ w_writes w' = w_writes w ++ evs /\
  Forall (fun ev : write_event => ev.1.1 = fd) evs.

(** The end of file rounded up so that a header of [header_len] bytes
    placed there ends on a multiple of [alignment]. *)
Definition round_up_offset (eof header_len alignment : Z) : Z :=
  (eof + header_len + alignment - 1) / alignment * alignment - header_len.

(** ** Runs that end, and what they leave alone *)

(** The world in which a run ends, when it ends: normally or with an
    exception. *)
Definition final_world {A : Type} (r : outcome A) : option world :=
  match r with
  | Ok _ w => Some w
  | Raise _ w => Some w
  | Diverge => None
  end.

Definition ends_in {A : Type} (m : M A) (w w' : world) : Prop :=
  final_world (snd (m w)) = Some w'.

(** The inode a descriptor is open on. *)
Definition fd_inode (w : world) (fd : nat) : option nat := of_ino <$> fd_lookup w fd.

(** Between [w] and [w'] nothing changed but file positions, the
    write history, the content of the file [dst], which did not get
    shorter, and the pending reads, of which some were consumed. *)
Definition steady (dst : nat) (w w' : world) : Prop :=
  w_dir w' = w_dir w /\
  (forall n, fd_inode w' n = fd_inode w n) /\
  (forall ino, ino <> dst -> w_inodes w' !! ino = w_inodes w !! ino) /\
  (forall i, w_inodes w !! dst = Some i ->
     exists i', w_inodes w' !! dst = Some i' /\ i_mode i' = i_mode i /\
                len (i_data i) <= len (i_data i')) /\
  w_ficlonerange w' = w_ficlonerange w /\
  (length (w_reads w') <= length (w_reads w))%nat.

(** [m] run with [fd] open on [dst] ends, if it ends, in a world that
    is [steady]. *)
Definition keeps (fd dst : nat) {A : Type} (m : M A) : Prop :=
  forall w w', fd_inode w fd = Some dst -> ends_in m w w' -> steady dst w w'.

(** The number of progress dots in an output. *)
Definition count_dots (o : list out_event) : Z := len (List.filter is_dot o).

(** The archive after an entry is added: the content so far, zeros up
    to the header offset, the local header, the data. *)
Definition place (alignment : Z) (content header data : bytes) : bytes :=
  content
    ++ replicate (Z.to_nat (round_up_offset (len content) (len header) alignment
                            - len content)) x00
    ++ header ++ data.

(** ** The archive as a function of the files

    What [execute] is to leave in the archive, computed from the
    files alone: the entries one after the other, the central
    directory, the three end records. *)

(** The regular files among [paths], each with its inode. *)
Definition regular_files (w : world) (paths : list pystr) : list (pystr * inode) :=
  omap (fun path =>
          match resolve w path with
          | Some i => if S_ISREG (i_mode i) then Some (path, i) else None
          | None => None
          end) paths.

(** The entries of [files] laid out after [content]: the elements of
    [datas] and the bytes. *)
Fixpoint archive_entries (alignment : Z) (files : list (pystr * inode)) (content : bytes)
  : pyres (list entry * bytes) :=
  match files with
  | [] => inr ([], content)
  | (path, i) :: files' =>
      let crc := zlib_crc32 (i_data i) 0 in
      let? header := make_file_header path (stat_of i) crc in
      let offset := round_up_offset (len content) (len header) alignment in
      let? rest := archive_entries alignment files'
                     (place alignment content header (i_data i)) in
      inr ((path, stat_of i, crc, offset) :: fst rest, snd rest)
  end.

Fixpoint central_directory (datas : list entry) : pyres bytes :=
  match datas with
  | [] => inr []
  | (path, st, crc, offset) :: datas' =>
      let? header := make_central_header path st crc offset in
      let? rest := central_directory datas' in
      inr (header ++ rest)
  end.

Definition archive_of (alignment : Z) (files : list (pystr * inode)) (content : bytes)
  : pyres bytes :=
  let? entries := archive_entries alignment files content in
  let? central := central_directory (fst entries) in
  let central_start := len (snd entries) in
  let central_end := central_start + len central in
  let? eocd64 :=
    zip64_end_of_central_directory (len (fst entries)) central_start central_end in
  let? locator := zip64_locator central_end in
  let? eocd := end_of_central_directory in
  inr (snd entries ++ central ++ eocd64 ++ locator ++ eocd).

(** A path [execute] can process: it exists, and if it is a regular
    file it can be read and is not the archive itself. *)
Definition archivable (w : world) (dst : nat) (path : pystr) : Prop :=
  exists ino i,
    w_dir w path = Some ino /\ w_inodes w !! ino = Some i /\
    (S_ISREG (i_mode i) = true -> i_readable i = true /\ ino <> dst).

(** * Properties *)

(** ** Bytes and little-endian fields *)

Lemma Z_of_byte_range (b : byte) : 0 <= Z_of_byte b < 256.
Proof.
  unfold Z_of_byte. pose proof (Byte.to_N_bounded b). lia.
Qed.

Lemma byte_of_Z_of_byte (b : byte) : byte_of_Z (Z_of_byte b) = b.
Proof.
  unfold byte_of_Z. rewrite Z.mod_small by apply Z_of_byte_range.
  unfold Z_of_byte. rewrite N2Z.id, Byte.of_to_N. reflexivity.
Qed.

Lemma Z_of_byte_of_Z (z : Z) : Z_of_byte (byte_of_Z z) = z mod 256.
Proof.
  unfold byte_of_Z, Z_of_byte.
  pose proof (Z.mod_pos_bound z 256 ltac:(lia)) as Hr.
  destruct (Byte.of_N (Z.to_N (z mod 256))) as [b|] eqn:E.
  - apply Byte.to_of_N in E. rewrite E. lia.
  - apply Byte.of_N_None_iff in E. lia.
Qed.

Lemma byte_of_Z_small (z : Z) (b : byte) : z = Z_of_byte b -> byte_of_Z z = b.
Proof. intros ->. apply byte_of_Z_of_byte. Qed.

Lemma length_le_bytes (n : nat) (v : Z) : length (le_bytes n v) = n.
Proof.
  revert v. induction n as [|n IH]; intros v; simpl; [reflexivity|].
  rewrite IH. reflexivity.
Qed.

Lemma le_value_le_bytes (n : nat) (v : Z) :
  le_value (le_bytes n v) = v mod 256 ^ Z.of_nat n.
Proof.
  revert v. induction n as [|n IH]; intros v.
  - simpl. rewrite Z.mod_1_r. reflexivity.
  - cbn [le_bytes le_value]. rewrite IH, Z_of_byte_of_Z.
    rewrite Nat2Z.inj_succ, Z.pow_succ_r by lia.
    rewrite Z.rem_mul_r by lia. reflexivity.
Qed.

Lemma le_value_le_bytes_small (n : nat) (v : Z) :
  0 <= v < 256 ^ Z.of_nat n -> le_value (le_bytes n v) = v.
Proof.
  intros H. rewrite le_value_le_bytes. apply Z.mod_small. exact H.
Qed.

Lemma format_in_range_unsigned (f : format) (v : Z) :
  f <> fmt_q -> format_in_range f v = true ->
  0 <= v < 256 ^ Z.of_nat (format_size f).
Proof.
  intros Hf H. destruct f; try congruence; unfold format_in_range in H;
    apply andb_prop in H as [H1 H2]; apply Z.leb_le in H1; apply Z.ltb_lt in H2;
    cbn in H2 |- *; lia.
Qed.

Lemma pack_cons_inr (f : format) (fs : list format) (v : Z) (vs : list Z) (bs : bytes) :
  pack (f :: fs) (v :: vs) = inr bs ->
  format_in_range f v = true /\
  exists bs', pack fs vs = inr bs' /\ bs = le_bytes (format_size f) v ++ bs'.
Proof.
  cbn [pack]. unfold pack_field.
  destruct (format_in_range f v); cbn; [|discriminate].
  destruct (pack fs vs) as [e|bs']; cbn; [discriminate|].
  intros [= <-]. eauto.
Qed.

Lemma pack_length (fs : list format) (vs : list Z) (bs : bytes) :
  pack fs vs = inr bs -> length bs = calcsize fs.
Proof.
  revert vs bs. induction fs as [|f fs IH]; intros [|v vs] bs H; try discriminate.
  - injection H as <-. reflexivity.
  - apply pack_cons_inr in H as (_ & bs' & H & ->).
    rewrite length_app, length_le_bytes. cbn. f_equal. eauto.
Qed.

(** A field that was packed is read back unchanged, whatever follows
    the structure. *)
Lemma unpack_pack_core (fs : list format) (vs : list Z) (bs rest : bytes) (i : nat)
  (f : format) (v : Z) :
  pack fs vs = inr bs -> fs !! i = Some f -> vs !! i = Some v ->
  (format_in_range f v = true -> 0 <= v < 256 ^ Z.of_nat (format_size f)) ->
  unpack_field fs i (bs ++ rest) = v.
Proof.
  revert vs bs i. induction fs as [|f0 fs IH]; intros [|v0 vs] bs i H Hf Hv Hq;
    try discriminate.
  apply pack_cons_inr in H as (Hr & bs' & H & ->).
  destruct i as [|i].
  - change (Some f0 = Some f) in Hf. change (Some v0 = Some v) in Hv.
    injection Hf as ->. injection Hv as ->.
    unfold unpack_field, field_offset.
    change ((f :: fs) !! 0%nat) with (Some f).
    change (calcsize (take 0 (f :: fs))) with 0%nat.
    rewrite <- app_assoc, drop_0.
    rewrite take_app_length' by (symmetry; apply length_le_bytes).
    apply le_value_le_bytes_small, Hq, Hr.
  - change (fs !! i = Some f) in Hf. change (vs !! i = Some v) in Hv.
    specialize (IH vs bs' i H Hf Hv Hq).
    unfold unpack_field, field_offset in IH |- *.
    change ((f0 :: fs) !! S i) with (fs !! i). rewrite Hf in IH |- *.
    change (take (S i) (f0 :: fs)) with (f0 :: take i fs).
    change (calcsize (f0 :: take i fs))
      with (format_size f0 + calcsize (take i fs))%nat.
    rewrite <- app_assoc, drop_app_add' by (symmetry; apply length_le_bytes).
    exact IH.
Qed.

Lemma unpack_pack (fs : list format) (vs : list Z) (bs rest : bytes) (i : nat)
  (f : format) (v : Z) :
  pack fs vs = inr bs -> fs !! i = Some f -> vs !! i = Some v -> f <> fmt_q ->
  unpack_field fs i (bs ++ rest) = v.
Proof.
  intros H Hf Hv Hq. eapply unpack_pack_core; try eassumption.
  apply format_in_range_unsigned, Hq.
Qed.

Lemma unpack_pack_nonneg (fs : list format) (vs : list Z) (bs : bytes) (i : nat)
  (f : format) (v : Z) :
  pack fs vs = inr bs -> fs !! i = Some f -> vs !! i = Some v -> 0 <= v ->
  unpack_field fs i bs = v.
Proof.
  intros H Hf Hv Hq. rewrite <- (app_nil_r bs).
  eapply unpack_pack_core; try eassumption.
  intros Hr. destruct f; try (apply format_in_range_unsigned; [discriminate|exact Hr]).
  unfold format_in_range in Hr. apply andb_prop in Hr as [_ Hr].
  apply Z.ltb_lt in Hr. cbn. lia.
Qed.

Lemma unpack_pack_nil (fs : list format) (vs : list Z) (bs : bytes) (i : nat)
  (f : format) (v : Z) :
  pack fs vs = inr bs -> fs !! i = Some f -> vs !! i = Some v -> f <> fmt_q ->
  unpack_field fs i bs = v.
Proof.
  intros. rewrite <- (app_nil_r bs). eapply unpack_pack; eassumption.
Qed.

(** Packing succeeds exactly when every value fits its field. *)
Lemma pack_total (fs : list format) (vs : list Z) :
  Forall2 (fun f v => format_in_range f v = true) fs vs ->
  exists bs, pack fs vs = inr bs.
Proof.
  induction 1 as [|f v fs vs Hr _ [bs IH]]; [eexists; reflexivity|].
  cbn [pack]. unfold pack_field. rewrite Hr. cbn. rewrite IH. cbn. eauto.
Qed.

(** ** CRC-32 *)

Lemma lxor_below (n a b : Z) :
  0 <= n -> 0 <= a < 2 ^ n -> 0 <= b < 2 ^ n -> 0 <= Z.lxor a b < 2 ^ n.
Proof.
  intros Hn Ha Hb.
  assert (H0 : 0 <= Z.lxor a b) by (apply Z.lxor_nonneg; lia).
  split; [exact H0|].
  destruct (Z.eq_dec (Z.lxor a b) 0) as [->|Hne]; [lia|].
  apply Z.log2_lt_pow2; [lia|].
  pose proof (Z.log2_lxor a b ltac:(lia) ltac:(lia)) as Hl.
  assert (Z.log2 a < n \/ a = 0) as [Hla|Hla].
  { destruct (Z.eq_dec a 0); [auto|left; apply Z.log2_lt_pow2; lia]. }
  all: assert (Z.log2 b < n \/ b = 0) as [Hlb|Hlb]
      by (destruct (Z.eq_dec b 0); [auto|left; apply Z.log2_lt_pow2; lia]).
  all: subst; rewrite ?Z.lxor_0_l, ?Z.lxor_0_r in *; try lia.
  all: try (apply Z.log2_lt_pow2 in Hlb; lia).
  all: try (apply Z.log2_lt_pow2 in Hla; lia).
  all: try (apply Z.log2_lt_pow2; lia).
Qed.

Lemma crc_shift_range (c : Z) : 0 <= c < 2 ^ 32 -> 0 <= crc_shift c < 2 ^ 32.
Proof.
  intros H. unfold crc_shift.
  assert (Hs : 0 <= Z.shiftr c 1 < 2 ^ 32).
  { rewrite Z.shiftr_div_pow2 by lia. change (2 ^ 1) with 2.
    split; [apply Z.div_pos; lia|].
    apply Z.div_lt_upper_bound; lia. }
  destruct (Z.testbit c 0); [|exact Hs].
  apply lxor_below; [lia|exact Hs|unfold crc_poly; lia].
Qed.

Lemma crc_byte_range (c : Z) (b : byte) : 0 <= c < 2 ^ 32 -> 0 <= crc_byte c b < 2 ^ 32.
Proof.
  intros H. unfold crc_byte.
  assert (H0 : 0 <= Z.lxor c (Z_of_byte b) < 2 ^ 32).
  { apply lxor_below; [lia|exact H|]. pose proof (Z_of_byte_range b). lia. }
  generalize dependent (Z.lxor c (Z_of_byte b)). intros x Hx.
  do 8 (rewrite Nat.iter_succ; apply crc_shift_range). exact Hx.
Qed.

Lemma crc_fold_range (data : bytes) (c : Z) :
  0 <= c < 2 ^ 32 -> 0 <= fold_left crc_byte data c < 2 ^ 32.
Proof.
  revert c. induction data as [|b data IH]; intros c H; cbn; [exact H|].
  apply IH, crc_byte_range, H.
Qed.

Lemma land_mask32 (x : Z) : 0 <= x < 2 ^ 32 -> Z.land x 0xFFFFFFFF = x.
Proof.
  intros H. change 0xFFFFFFFF with (Z.ones 32).
  rewrite Z.land_ones by lia. apply Z.mod_small. exact H.
Qed.

Lemma land_mask32_range (x : Z) : 0 <= Z.land x 0xFFFFFFFF < 2 ^ 32.
Proof.
  change 0xFFFFFFFF with (Z.ones 32). rewrite Z.land_ones by lia.
  apply Z.mod_pos_bound. lia.
Qed.

Lemma zlib_crc32_range (data : bytes) (value : Z) : 0 <= zlib_crc32 data value < 2 ^ 32.
Proof.
  unfold zlib_crc32. apply lxor_below; [lia| |lia].
  apply crc_fold_range, lxor_below; [lia|apply land_mask32_range|lia].
Qed.

(** The running checksum composes over concatenation. *)
Lemma zlib_crc32_app (a b : bytes) (value : Z) :
  zlib_crc32 (a ++ b) value = zlib_crc32 b (zlib_crc32 a value).
Proof.
  unfold zlib_crc32 at 1 2.
  rewrite fold_left_app. do 2 f_equal.
  rewrite (land_mask32 (zlib_crc32 a value)) by apply zlib_crc32_range.
  unfold zlib_crc32.
  rewrite Z.lxor_assoc, Z.lxor_nilpotent, Z.lxor_0_r. reflexivity.
Qed.

Lemma zlib_crc32_nil (value : Z) : 0 <= value < 2 ^ 32 -> zlib_crc32 [] value = value.
Proof.
  intros H. unfold zlib_crc32. cbn [fold_left].
  rewrite land_mask32 by exact H.
  rewrite Z.lxor_assoc, Z.lxor_nilpotent, Z.lxor_0_r. reflexivity.
Qed.

(** The checksum of the standard check string. *)
Example zlib_crc32_check :
  zlib_crc32 [x31; x32; x33; x34; x35; x36; x37; x38; x39] 0 = 0xCBF43926.
Proof. vm_compute. reflexivity. Qed.

(** ** The file-system encoding round-trips every byte sequence *)

Ltac ztest :=
  repeat (match goal with
          | |- context [Z.ltb ?a ?b] => destruct (Z.ltb_spec a b)
          | |- context [Z.leb ?a ?b] => destruct (Z.leb_spec a b)
          | |- context [Z.eqb ?a ?b] => destruct (Z.eqb_spec a b)
          end; cbn [andb orb negb fst snd]; try lia).

Ltac byte_eq :=
  match goal with
  | |- byte_of_Z _ = _ =>
      apply byte_of_Z_small;
      repeat match goal with H : ?z = Z_of_byte _ |- _ => rewrite <- H end;
      Z.div_mod_to_equations; lia
  end.

Ltac ztest_in H :=
  repeat (match type of H with
          | context [Z.ltb ?a ?b] => destruct (Z.ltb_spec a b)
          | context [Z.leb ?a ?b] => destruct (Z.leb_spec a b)
          | context [Z.eqb ?a ?b] => destruct (Z.eqb_spec a b)
          end; cbn [andb orb negb] in H; try lia).

Lemma decode_prefix_encode (b0 : byte) (rest : bytes) (c : Z) (n : nat) :
  decode_prefix (b0 :: rest) = (c, n) ->
  (1 <= n <= S (length rest))%nat /\
  encode_code_point c = inr (take n (b0 :: rest)).
Proof.
  intros H.
  pose proof (Z_of_byte_range b0) as R0.
  assert (Hesc : 0x80 <= Z_of_byte b0 ->
                 encode_code_point (surrogate_escape b0) = inr [b0]).
  { intros Hb. unfold surrogate_escape, encode_code_point.
    remember (Z_of_byte b0) as z0 eqn:E0.
    ztest. repeat f_equal. byte_eq. }
  unfold decode_prefix, is_continuation, second_of_3, second_of_4, in_range in H.
  destruct rest as [|b1 [|b2 [|b3 rest]]];
    try pose proof (Z_of_byte_range b1) as R1;
    try pose proof (Z_of_byte_range b2) as R2;
    try pose proof (Z_of_byte_range b3) as R3.
  all: remember (Z_of_byte b0) as z0 eqn:E0.
  all: try remember (Z_of_byte b1) as z1 eqn:E1.
  all: try remember (Z_of_byte b2) as z2 eqn:E2.
  all: try remember (Z_of_byte b3) as z3 eqn:E3.
  all: ztest_in H; injection H as <- <-.
  all: (split; [cbn [length]; lia|]); cbn [firstn].
  all: first [ apply Hesc; lia
             | unfold encode_code_point; ztest; repeat f_equal; byte_eq ].
Qed.

Lemma utf8_encode_decode_fuel (fuel : nat) (bs : bytes) :
  (length bs <= fuel)%nat -> utf8_encode (utf8_decode_fuel fuel bs) = inr bs.
Proof.
  revert bs. induction fuel as [|fuel IH]; intros bs Hlen.
  - destruct bs; [reflexivity|cbn in Hlen; lia].
  - destruct bs as [|b0 rest]; [reflexivity|].
    cbn [utf8_decode_fuel].
    destruct (decode_prefix (b0 :: rest)) as [c n] eqn:E.
    apply decode_prefix_encode in E as [Hn Henc].
    cbn [utf8_encode]. rewrite Henc. cbn [pyres_bind].
    rewrite IH.
    + cbn [pyres_bind]. rewrite take_drop. reflexivity.
    + rewrite length_drop. cbn [length] in Hlen |- *. lia.
Qed.

(** Encoding the [str] Python made of a file name gives the file name back. *)
Lemma utf8_encode_fsdecode (bs : bytes) : utf8_encode (os_fsdecode bs) = inr bs.
Proof. apply utf8_encode_decode_fuel. reflexivity. Qed.

(** ** MS-DOS date and time *)

Lemma lor_mul_pow2_add (a b n : Z) :
  0 <= n -> 0 <= b < 2 ^ n -> Z.lor (a * 2 ^ n) b = a * 2 ^ n + b.
Proof.
  intros Hn Hb.
  assert (Hland : Z.land (a * 2 ^ n) b = 0).
  { apply Z.bits_inj'. intros k Hk. rewrite Z.land_spec, Z.bits_0.
    destruct (Z.lt_ge_cases k n) as [Hlt|Hge].
    - rewrite Z.mul_pow2_bits_low by lia. reflexivity.
    - rewrite <- (Z.mod_small b (2 ^ n)) by lia.
      rewrite Z.mod_pow2_bits_high by lia. apply andb_false_r. }
  rewrite <- Z.lxor_lor by exact Hland.
  symmetry. apply Z.add_nocarry_lxor. exact Hland.
Qed.

Lemma lor_shiftl_add (a b n : Z) :
  0 <= n -> 0 <= b < 2 ^ n -> Z.lor (Z.shiftl a n) b = a * 2 ^ n + b.
Proof.
  intros Hn Hb. rewrite Z.shiftl_mul_pow2 by lia. apply lor_mul_pow2_add; assumption.
Qed.

(** The two DOS words as sums of their bit fields. *)
Lemma get_dos_date_time_sum (t : spec_float) :
  tm_in_range (localtime t) ->
  get_dos_date_time t =
    ((tm_year (localtime t) - 1980) * 512 + tm_mon (localtime t) * 32
       + tm_mday (localtime t),
     tm_hour (localtime t) * 2048 + tm_min (localtime t) * 32
       + tm_sec (localtime t) / 2).
Proof.
  intros (Hmon & Hday & Hhour & Hmin & Hsec). unfold get_dos_date_time.
  set (tm := localtime t) in *.
  assert (Hs : Z.shiftr (tm_sec tm) 1 = tm_sec tm / 2).
  { rewrite Z.shiftr_div_pow2 by lia. reflexivity. }
  assert (0 <= tm_sec tm / 2 < 32) by (Z.div_mod_to_equations; lia).
  rewrite Hs.
  replace (Z.shiftl (tm_year tm - 1980) 9)
    with (Z.shiftl ((tm_year tm - 1980) * 2 ^ 4) 5)
    by (rewrite !Z.shiftl_mul_pow2 by lia; lia).
  replace (Z.shiftl (tm_hour tm) 11) with (Z.shiftl (tm_hour tm * 2 ^ 6) 5)
    by (rewrite !Z.shiftl_mul_pow2 by lia; lia).
  rewrite <- !Z.shiftl_lor.
  rewrite (lor_mul_pow2_add (tm_year tm - 1980) (tm_mon tm) 4) by lia.
  rewrite (lor_mul_pow2_add (tm_hour tm) (tm_min tm) 6) by lia.
  rewrite !lor_shiftl_add by lia.
  f_equal; lia.
Qed.

(** C8: for a timestamp whose local year is within 1980..2107,
    [get_dos_date_time] returns the date word
    [((year-1980)<<9) | (month<<5) | day] and the time word
    [(hour<<11) | (minute<<5) | (second>>1)] of the host's local time;
    both fit sixteen bits, every calendar field is read back from its
    bit field, and the seconds come back rounded down to an even
    number, a resolution of two seconds. *)
Theorem get_dos_date_time_fields (t : spec_float) :
  1980 <= tm_year (localtime t) <= 2107 ->
  tm_in_range (localtime t) ->
  let tm := localtime t in
  let d := fst (get_dos_date_time t) in
  let dt := snd (get_dos_date_time t) in
  d = Z.lor (Z.lor (Z.shiftl (tm_year tm - 1980) 9) (Z.shiftl (tm_mon tm) 5))
            (tm_mday tm) /\
  dt = Z.lor (Z.lor (Z.shiftl (tm_hour tm) 11) (Z.shiftl (tm_min tm) 5))
             (Z.shiftr (tm_sec tm) 1) /\
  0 <= d < 2 ^ 16 /\ 0 <= dt < 2 ^ 16 /\
  Z.shiftr d 9 = tm_year tm - 1980 /\
  Z.land (Z.shiftr d 5) 15 = tm_mon tm /\
  Z.land d 31 = tm_mday tm /\
  Z.shiftr dt 11 = tm_hour tm /\
  Z.land (Z.shiftr dt 5) 63 = tm_min tm /\
  2 * Z.land dt 31 = tm_sec tm - tm_sec tm mod 2.
Proof.
  intros Hyear Hrange. cbv zeta.
  split; [reflexivity|]. split; [reflexivity|].
  rewrite (get_dos_date_time_sum t Hrange). cbn [fst snd].
  destruct Hrange as (Hmon & Hday & Hhour & Hmin & Hsec).
  set (tm := localtime t) in *.
  rewrite !Z.shiftr_div_pow2 by lia.
  change 15 with (Z.ones 4). change 31 with (Z.ones 5). change 63 with (Z.ones 6).
  rewrite !Z.land_ones by lia.
  change (2 ^ 16) with 65536. change (2 ^ 9) with 512. change (2 ^ 5) with 32.
  change (2 ^ 11) with 2048. change (2 ^ 4) with 16. change (2 ^ 6) with 64.
  repeat split; Z.div_mod_to_equations; lia.
Qed.

(** ** Local and central headers *)

Lemma pyres_bind_inr {A B : Type} (r : pyres A) (k : A -> pyres B) (b : B) :
  pyres_bind r k = inr b -> exists a, r = inr a /\ k a = inr b.
Proof. destruct r as [e|a]; cbn; [discriminate|eauto]. Qed.

Lemma make_file_header_inr (name : pystr) (st : stat_result) (crc : Z) (h : bytes) :
  make_file_header name st crc = inr h ->
  exists bname extra fixed_header,
    utf8_encode name = inr bname /\
    pack Zip64FileHeaderExtraField [1; 16; st_size st; st_size st] = inr extra /\
    pack ZipFileHeader
      [0x04034b50; 45; Z.shiftl 1 11; 0; snd (get_dos_date_time (st_mtime st));
       fst (get_dos_date_time (st_mtime st)); crc; 0xffffffff; 0xffffffff;
       len bname; len extra] = inr fixed_header /\
    h = fixed_header ++ bname ++ extra.
Proof.
  unfold make_file_header. intros H.
  apply pyres_bind_inr in H as (bname & Hb & H).
  apply pyres_bind_inr in H as (extra & He & H).
  apply pyres_bind_inr in H as (fixed & Hf & H).
  injection H as <-. eauto 10.
Qed.

Lemma make_central_header_inr (name : pystr) (st : stat_result) (crc offset : Z)
  (h : bytes) :
  make_central_header name st crc offset = inr h ->
  exists bname extra fixed_header,
    utf8_encode name = inr bname /\
    pack Zip64CentralDirectoryFileHeaderExtraField
      [1; 24; st_size st; st_size st; offset] = inr extra /\
    pack ZipCentralDirectoryFileHeader
      [0x02014b50; 45; 45; Z.shiftl 1 11; 0; snd (get_dos_date_time (st_mtime st));
       fst (get_dos_date_time (st_mtime st)); crc; 0xffffffff; 0xffffffff;
       len bname; len extra; 0; 0; 0; 0; 0xffffffff] = inr fixed_header /\
    h = fixed_header ++ bname ++ extra.
Proof.
  unfold make_central_header. intros H.
  apply pyres_bind_inr in H as (bname & Hb & H).
  apply pyres_bind_inr in H as (extra & He & H).
  apply pyres_bind_inr in H as (fixed & Hf & H).
  injection H as <-. eauto 10.
Qed.

Lemma len_nonneg {A : Type} (l : list A) : 0 <= len l.
Proof. unfold len. lia. Qed.

Lemma to_nat_len {A : Type} (l : list A) : Z.to_nat (len l) = length l.
Proof. unfold len. lia. Qed.

Lemma local_header_parts (name : pystr) (st : stat_result) (crc : Z) (h : bytes) :
  make_file_header name st crc = inr h ->
  exists bname, utf8_encode name = inr bname /\
    local_name h = bname /\
    pack Zip64FileHeaderExtraField [1; 16; st_size st; st_size st] = inr (local_extra h) /\
    length h = (30 + length bname + 20)%nat.
Proof.
  intros H. apply make_file_header_inr in H as (bname & extra & fixed & Hb & He & Hf & ->).
  exists bname. split; [exact Hb|].
  pose proof (pack_length _ _ _ Hf) as Lf. pose proof (pack_length _ _ _ He) as Le.
  assert (Hn : local_name_length (fixed ++ bname ++ extra) = length bname).
  { unfold local_name_length.
    erewrite unpack_pack by (try exact Hf; try reflexivity; discriminate).
    apply to_nat_len. }
  unfold local_name, local_extra. rewrite Hn.
  repeat split.
  - rewrite drop_app_length' by (symmetry; exact Lf).
    apply take_app_length.
  - rewrite app_assoc, drop_app_length'; [exact He|].
    rewrite length_app, Lf. reflexivity.
  - rewrite !length_app, Lf, Le. reflexivity.
Qed.

Lemma central_header_parts (name : pystr) (st : stat_result) (crc offset : Z) (h : bytes) :
  make_central_header name st crc offset = inr h ->
  exists bname, utf8_encode name = inr bname /\
    central_name h = bname /\
    pack Zip64CentralDirectoryFileHeaderExtraField
      [1; 24; st_size st; st_size st; offset] = inr (central_extra h) /\
    length h = (46 + length bname + 28)%nat.
Proof.
  intros H.
  apply make_central_header_inr in H as (bname & extra & fixed & Hb & He & Hf & ->).
  exists bname. split; [exact Hb|].
  pose proof (pack_length _ _ _ Hf) as Lf. pose proof (pack_length _ _ _ He) as Le.
  assert (Hn : central_name_length (fixed ++ bname ++ extra) = length bname).
  { unfold central_name_length.
    erewrite unpack_pack by (try exact Hf; try reflexivity; discriminate).
    apply to_nat_len. }
  unfold central_name, central_extra. rewrite Hn.
  repeat split.
  - rewrite drop_app_length' by (symmetry; exact Lf).
    apply take_app_length.
  - rewrite app_assoc, drop_app_length'; [exact He|].
    rewrite length_app, Lf. reflexivity.
  - rewrite !length_app, Lf, Le. reflexivity.
Qed.

(** C3: whatever the size and the offset of an entry, both headers
    carry 0xFFFFFFFF in their 32-bit compressed and uncompressed size
    fields, the central header also in its 32-bit offset field, and
    the true values are in the ZIP64 extra field: tag 1, length 16,
    size twice in the local header; tag 1, length 24, size twice and
    the local header offset in the central header.  Both headers are
    produced for every size and offset that fits 64 bits. *)
Theorem headers_always_zip64 (name : pystr) (st : stat_result) (crc offset : Z) :
  (forall h, make_file_header name st crc = inr h ->
     unpack_field ZipFileHeader 7 h = 0xFFFFFFFF /\
     unpack_field ZipFileHeader 8 h = 0xFFFFFFFF /\
     unpack_field ZipFileHeader 10 h = len (local_extra h) /\
     unpack_field Zip64FileHeaderExtraField 0 (local_extra h) = 1 /\
     unpack_field Zip64FileHeaderExtraField 1 (local_extra h) = 16 /\
     unpack_field Zip64FileHeaderExtraField 2 (local_extra h) = st_size st /\
     unpack_field Zip64FileHeaderExtraField 3 (local_extra h) = st_size st /\
     len (local_extra h) = 4 + 16) /\
  (forall h, make_central_header name st crc offset = inr h ->
     unpack_field ZipCentralDirectoryFileHeader 8 h = 0xFFFFFFFF /\
     unpack_field ZipCentralDirectoryFileHeader 9 h = 0xFFFFFFFF /\
     unpack_field ZipCentralDirectoryFileHeader 16 h = 0xFFFFFFFF /\
     unpack_field ZipCentralDirectoryFileHeader 11 h = len (central_extra h) /\
     unpack_field Zip64CentralDirectoryFileHeaderExtraField 0 (central_extra h) = 1 /\
     unpack_field Zip64CentralDirectoryFileHeaderExtraField 1 (central_extra h) = 24 /\
     unpack_field Zip64CentralDirectoryFileHeaderExtraField 2 (central_extra h) = st_size st /\
     unpack_field Zip64CentralDirectoryFileHeaderExtraField 3 (central_extra h) = st_size st /\
     unpack_field Zip64CentralDirectoryFileHeaderExtraField 4 (central_extra h) = offset /\
     len (central_extra h) = 4 + 24) /\
  (0 <= st_size st < 2 ^ 64 -> 0 <= offset < 2 ^ 64 -> 0 <= crc < 2 ^ 32 ->
   0 <= fst (get_dos_date_time (st_mtime st)) < 2 ^ 16 ->
   0 <= snd (get_dos_date_time (st_mtime st)) < 2 ^ 16 ->
   forall bname, utf8_encode name = inr bname -> len bname < 2 ^ 16 ->
   exists lh ch, make_file_header name st crc = inr lh /\
                 make_central_header name st crc offset = inr ch).
Proof.
  split; [|split].
  - intros h H.
    pose proof (local_header_parts _ _ _ _ H) as (bname & _ & _ & He & _).
    apply make_file_header_inr in H as (bname' & extra & fixed & Hb & He' & Hf & Hh).
    assert (Hx : local_extra h = extra) by congruence.
    rewrite Hx. subst h.
    pose proof (pack_length _ _ _ He') as Le.
    assert (Hlen : len extra = 20) by (unfold len; rewrite Le; reflexivity).
    repeat split.
    all: try (erewrite unpack_pack by (try exact Hf; try reflexivity; discriminate);
              reflexivity).
    all: try (erewrite unpack_pack_nil by (try exact He'; try reflexivity; discriminate);
              reflexivity).
    exact Hlen.
  - intros h H.
    pose proof (central_header_parts _ _ _ _ _ H) as (bname & _ & _ & He & _).
    apply make_central_header_inr in H as (bname' & extra & fixed & Hb & He' & Hf & Hh).
    assert (Hx : central_extra h = extra) by congruence.
    rewrite Hx. subst h.
    pose proof (pack_length _ _ _ He') as Le.
    assert (Hlen : len extra = 28) by (unfold len; rewrite Le; reflexivity).
    repeat split.
    all: try (erewrite unpack_pack by (try exact Hf; try reflexivity; discriminate);
              reflexivity).
    all: try (erewrite unpack_pack_nil by (try exact He'; try reflexivity; discriminate);
              reflexivity).
    exact Hlen.
  - intros Hsize Hoff Hcrc Hd Ht bname Hb Hlen.
    pose proof (len_nonneg bname) as Hl0.
    assert (Hr : forall v n, 0 <= v < 2 ^ n -> (0 <=? v) && (v <? 2 ^ n) = true).
    { intros v n Hv. apply andb_true_intro. split; [apply Z.leb_le|apply Z.ltb_lt]; lia. }
    destruct (pack_total Zip64FileHeaderExtraField [1; 16; st_size st; st_size st])
      as [extra He].
    { repeat constructor; cbn; apply Hr; cbn; lia. }
    destruct (pack_total Zip64CentralDirectoryFileHeaderExtraField
                [1; 24; st_size st; st_size st; offset]) as [cextra Hce].
    { repeat constructor; cbn; apply Hr; cbn; lia. }
    pose proof (pack_length _ _ _ He) as Le.
    pose proof (pack_length _ _ _ Hce) as Lce.
    assert (Hle : len extra = 20) by (unfold len; rewrite Le; reflexivity).
    assert (Hlce : len cextra = 28) by (unfold len; rewrite Lce; reflexivity).
    destruct (pack_total ZipFileHeader
                [0x04034b50; 45; Z.shiftl 1 11; 0; snd (get_dos_date_time (st_mtime st));
                 fst (get_dos_date_time (st_mtime st)); crc; 0xffffffff; 0xffffffff;
                 len bname; len extra]) as [fixed Hf].
    { rewrite Hle. repeat constructor; cbn -[get_dos_date_time]; apply Hr;
        cbn -[get_dos_date_time]; lia. }
    destruct (pack_total ZipCentralDirectoryFileHeader
                [0x02014b50; 45; 45; Z.shiftl 1 11; 0;
                 snd (get_dos_date_time (st_mtime st));
                 fst (get_dos_date_time (st_mtime st)); crc; 0xffffffff; 0xffffffff;
                 len bname; len cextra; 0; 0; 0; 0; 0xffffffff]) as [cfixed Hcf].
    { rewrite Hlce. repeat constructor; cbn -[get_dos_date_time]; apply Hr;
        cbn -[get_dos_date_time]; lia. }
    exists (fixed ++ bname ++ extra), (cfixed ++ bname ++ cextra).
    unfold make_file_header, make_central_header.
    rewrite Hb. cbn [pyres_bind]. rewrite He, Hce. cbn [pyres_bind].
    rewrite Hf, Hcf. cbn [pyres_bind]. split; reflexivity.
Qed.

(** C7: the name bytes of the local header and of the central header
    of an entry are the same, namely the encoding of the path; when
    the path is the [str] Python made of a file name of the operating
    system, these bytes are that file name, byte for byte, and decoding
    them gives the path back. *)
Theorem header_names_round_trip (name : pystr) (st : stat_result) (crc offset : Z)
  (lh ch : bytes) :
  make_file_header name st crc = inr lh ->
  make_central_header name st crc offset = inr ch ->
  local_name lh = central_name ch /\
  utf8_encode name = inr (local_name lh) /\
  forall raw, name = os_fsdecode raw ->
    local_name lh = raw /\ central_name ch = raw /\
    os_fsdecode (local_name lh) = name /\ os_fsdecode (central_name ch) = name.
Proof.
  intros Hl Hc.
  apply local_header_parts in Hl as (bname & Hb & Hln & _).
  apply central_header_parts in Hc as (bname' & Hb' & Hcn & _).
  assert (E : bname' = bname) by congruence.
  rewrite Hln, Hcn, E. clear Hln Hcn Hb' E.
  split; [reflexivity|]. split; [exact Hb|].
  intros raw ->. rewrite utf8_encode_fsdecode in Hb. injection Hb as <-.
  auto.
Qed.

(** ** True division of integers below 2^53 *)

Lemma digits2_pos_size (p : positive) : digits2_pos p = Pos.size p.
Proof. induction p as [p IH|p IH|]; cbn; rewrite ?IH; reflexivity. Qed.

Lemma Zdigits2_range (p : positive) :
  2 ^ (Zdigits2 (Zpos p) - 1) <= Zpos p < 2 ^ Zdigits2 (Zpos p).
Proof.
  cbn [Zdigits2]. rewrite digits2_pos_size.
  pose proof (Pos.size_gt p) as Hgt. pose proof (Pos.size_le p) as Hle.
  assert (E : Zpos (2 ^ Pos.size p) = 2 ^ Zpos (Pos.size p)) by apply Pos2Z.inj_pow.
  split.
  - assert (2 ^ Zpos (Pos.size p) = 2 * 2 ^ (Zpos (Pos.size p) - 1)) as E2.
    { rewrite <- Z.pow_succ_r by lia. f_equal. lia. }
    lia.
  - lia.
Qed.

Lemma Zdigits2_unique (z d : Z) :
  2 ^ (d - 1) <= z < 2 ^ d -> 0 < d -> Zdigits2 z = d.
Proof.
  intros [Hlo Hhi] Hd.
  assert (0 < z) by (pose proof (Z.pow_pos_nonneg 2 (d - 1)); lia).
  destruct z as [|p|p]; try lia.
  pose proof (Zdigits2_range p) as [Rlo Rhi].
  set (D := Zdigits2 (Zpos p)) in *.
  assert (0 < D) by (subst D; cbn; lia).
  destruct (Z.lt_trichotomy D d) as [Hlt|[Heq|Hgt]]; [|exact Heq|].
  - assert (2 ^ D <= 2 ^ (d - 1)) by (apply Z.pow_le_mono_r; lia). lia.
  - assert (2 ^ d <= 2 ^ (D - 1)) by (apply Z.pow_le_mono_r; lia). lia.
Qed.

Lemma loc_of_shr_record_of_loc (m : Z) (l : location) :
  loc_of_shr_record (shr_record_of_loc m l) = l.
Proof. destruct l as [|[]]; reflexivity. Qed.

Lemma shr_m_of_loc (m : Z) (l : location) : shr_m (shr_record_of_loc m l) = m.
Proof. destruct l as [|[]]; reflexivity. Qed.

(** Rounding a quotient with 53 significant bits needs no shift. *)
Lemma shr_fexp_53 (q e : Z) (l : location) :
  2 ^ 52 <= q < 2 ^ 53 -> -1074 <= e ->
  shr_fexp 53 1024 q e l = (shr_record_of_loc q l, e).
Proof.
  intros Hq He. unfold shr_fexp.
  rewrite (Zdigits2_unique q 53) by lia.
  unfold fexp, emin.
  replace (Z.max (53 + e - 53) (3 - 1024 - 53) - e) with 0 by lia.
  reflexivity.
Qed.

(** One with 54 loses its last bit. *)
Lemma shr_fexp_54 (q e : Z) (l : location) :
  2 ^ 53 <= q < 2 ^ 54 -> -1074 <= e ->
  shr_fexp 53 1024 q e l = (shr_1 (shr_record_of_loc q l), e + 1).
Proof.
  intros Hq He. unfold shr_fexp.
  rewrite (Zdigits2_unique q 54) by lia.
  unfold fexp, emin.
  replace (Z.max (54 + e - 53) (3 - 1024 - 53) - e) with 1 by lia.
  reflexivity.
Qed.

Lemma shr_1_m (m : Z) (r s : bool) :
  0 <= m -> shr_m (shr_1 {| shr_m := m; shr_r := r; shr_s := s |}) = m / 2.
Proof.
  intros Hm. destruct m as [|[p|p|]|p]; try lia; cbn [shr_1 shr_m].
  - reflexivity.
  - rewrite Pos2Z.inj_xI. apply Z.div_unique with (r := 1); lia.
  - rewrite Pos2Z.inj_xO. apply Z.div_unique with (r := 0); lia.
  - reflexivity.
Qed.

(** The location after one shift rounds up only from an odd mantissa. *)
Lemma round_after_shr_1 (q : Z) (l : location) :
  0 <= q ->
  let mrs := shr_1 (shr_record_of_loc q l) in
  let m := round_nearest_even (shr_m mrs) (loc_of_shr_record mrs) in
  m = q / 2 \/ (m = q / 2 + 1 /\ q mod 2 = 1).
Proof.
  intros Hq. cbv zeta.
  destruct q as [|[p|p|]|p]; try lia.
  - left. destruct l as [|[]]; reflexivity.
  - assert (E : Zpos p~1 / 2 = Zpos p).
    { rewrite Pos2Z.inj_xI. symmetry. apply Z.div_unique with (r := 1); lia. }
    assert (E2 : Zpos p~1 mod 2 = 1).
    { rewrite Pos2Z.inj_xI. symmetry. apply Z.mod_unique with (q := Zpos p); lia. }
    rewrite E, E2.
    destruct l as [|[]]; cbn [shr_record_of_loc shr_1 shr_m loc_of_shr_record orb
                               round_nearest_even];
      try destruct (Z.even (Zpos p)); auto.
  - assert (E : Zpos p~0 / 2 = Zpos p).
    { rewrite Pos2Z.inj_xO. symmetry. apply Z.div_unique with (r := 0); lia. }
    rewrite E. left.
    destruct l as [|[]]; reflexivity.
  - destruct l as [|[]]; cbn; auto.
Qed.

(** The location of a division rounds up only from a remainder of at
    least half the divisor. *)
Lemma round_new_location (q b r : Z) :
  0 < b -> 0 <= r < b ->
  let m := round_nearest_even q (new_location b r) in
  m = q \/ (m = q + 1 /\ b <= 2 * r).
Proof.
  intros Hb Hr. cbv zeta. unfold new_location, new_location_even, new_location_odd.
  destruct (Z.even b) eqn:Eb.
  - destruct (Z.eqb_spec r 0); [left; reflexivity|].
    destruct (Z.compare_spec (2 * r) b); cbn [round_nearest_even];
      try destruct (Z.even q); auto; right; split; lia.
  - destruct (Z.eqb_spec r 0); [left; reflexivity|].
    destruct (Z.compare_spec (2 * r + 1) b); cbn [round_nearest_even];
      try destruct (Z.even q); auto; right; split; lia.
Qed.

(** The integer part of a rounded quotient: rounding up by one unit of
    [1/P] cannot reach the next integer while the divisor is below [2P]. *)
Lemma rounded_quotient_floor (a b P M : Z) :
  0 <= a -> 0 < b -> 0 < P -> b < 2 * P ->
  M = a * P / b \/ (M = a * P / b + 1 /\ b <= 2 * ((a * P) mod b)) ->
  M / P = a / b.
Proof.
  intros Ha Hb HP HbP HM.
  pose proof (Z.div_mod a b ltac:(lia)) as Hab.
  pose proof (Z.mod_pos_bound a b Hb) as Hrho.
  set (c := a / b) in *. set (rho := a mod b) in *.
  pose proof (Z.div_mod (rho * P) b ltac:(lia)) as Hy.
  pose proof (Z.mod_pos_bound (rho * P) b Hb) as Hr'.
  set (k := rho * P / b) in *. set (r' := (rho * P) mod b) in *.
  assert (Hk : 0 <= k < P).
  { split; [apply Z.div_pos; nia|]. apply Z.div_lt_upper_bound; nia. }
  assert (Hq : a * P / b = c * P + k).
  { symmetry. apply Z.div_unique with (r := r'); [lia|]. nia. }
  assert (Hm : (a * P) mod b = r').
  { symmetry. apply Z.mod_unique with (q := c * P + k); [lia|]. nia. }
  rewrite Hq, Hm in HM.
  destruct HM as [->|[-> Hup]].
  - symmetry. apply Z.div_unique with (r := k); lia.
  - assert (k + 1 < P) by nia.
    symmetry. apply Z.div_unique with (r := k + 1); lia.
Qed.

Lemma int_of_float_finite (m e : Z) (sigma : Z) :
  0 < m -> 0 <= sigma -> e = - sigma ->
  exists p, m = Zpos p /\ int_of_float (S754_finite false p e) = inr (m / 2 ^ sigma).
Proof.
  intros Hm Hs ->. destruct m as [|p|p]; try lia. exists p. split; [reflexivity|].
  unfold int_of_float. destruct (Z.leb_spec 0 (- sigma)).
  - assert (sigma = 0) as -> by lia. cbn [Z.opp]. rewrite Z.pow_0_r, Z.mul_1_r, Z.div_1_r.
    reflexivity.
  - rewrite Z.opp_involutive. reflexivity.
Qed.

(** The carry of a rounding to 2^53 is renormalised to 2^52 with the
    exponent one higher; the integer part is the same. *)
Lemma int_of_float_carry (sigma : Z) :
  0 <= sigma ->
  int_of_float (S754_finite false (2 ^ 52)%positive (1 - sigma)) = inr (2 ^ 53 / 2 ^ sigma).
Proof.
  intros Hs. unfold int_of_float. f_equal.
  destruct (Z.leb_spec 0 (1 - sigma)).
  - assert (sigma = 0 \/ sigma = 1) as [-> | ->] by lia; reflexivity.
  - replace (- (1 - sigma)) with (sigma - 1) by lia.
    replace (2 ^ sigma) with (2 * 2 ^ (sigma - 1))
      by (rewrite <- Z.pow_succ_r by lia; f_equal; lia).
    change (2 ^ 53) with (2 * Zpos (2 ^ 52)).
    rewrite Z.div_mul_cancel_l; [reflexivity| |lia].
    pose proof (Z.pow_pos_nonneg 2 (sigma - 1)). lia.
Qed.

(** Rounding [m] to 53 bits when it has at most 53 bits already, or is 2^53. *)
Lemma round_final (m sigma : Z) :
  2 ^ 52 <= m <= 2 ^ 53 -> 0 <= sigma <= 1000 ->
  let '(mrs, e) := shr_fexp 53 1024 m (- sigma) loc_Exact in
  exists x,
    match shr_m mrs with
    | Z0 => S754_zero false
    | Zpos p => if e <=? 1024 - 53 then S754_finite false p e else S754_infinity false
    | Zneg _ => S754_nan
    end = x /\
    int_of_float x = inr (m / 2 ^ sigma) /\
    (forall s, x <> S754_infinity s).
Proof.
  intros Hm Hs.
  destruct (Z.lt_ge_cases m (2 ^ 53)) as [Hlt|Hge].
  - rewrite shr_fexp_53 by lia. cbn [shr_record_of_loc shr_m].
    destruct (int_of_float_finite m (- sigma) sigma) as (p & -> & Hint); try lia.
    destruct (Z.leb_spec (- sigma) (1024 - 53)); [|lia].
    eexists. split; [reflexivity|]. split; [exact Hint|discriminate].
  - assert (m = 2 ^ 53) as -> by lia.
    rewrite shr_fexp_54 by lia. cbn [shr_record_of_loc shr_1 shr_m Z.pow Z.pow_pos Pos.iter Z.mul Pos.mul].
    destruct (Z.leb_spec (- sigma + 1) (1024 - 53)); [|lia].
    eexists. split; [reflexivity|]. split; [|discriminate].
    replace (- sigma + 1) with (1 - sigma) by lia.
    apply int_of_float_carry. lia.
Qed.

Lemma binary_round_aux_quotient (a b sigma : Z) :
  0 <= a -> 0 < b -> 0 <= sigma <= 1000 ->
  2 ^ 52 <= a * 2 ^ sigma / b < 2 ^ 54 ->
  (a * 2 ^ sigma / b < 2 ^ 53 -> b < 2 * 2 ^ sigma) ->
  (2 ^ 53 <= a * 2 ^ sigma / b -> 1 <= sigma /\ b < 2 ^ sigma) ->
  exists x,
    binary_round_aux 53 1024 false (a * 2 ^ sigma / b) (- sigma)
      (new_location b ((a * 2 ^ sigma) mod b)) = x /\
    int_of_float x = inr (a / b) /\
    (forall s, x <> S754_infinity s).
Proof.
  intros Ha Hb Hs Hq HA HB.
  assert (HP : 0 < 2 ^ sigma) by (apply Z.pow_pos_nonneg; lia).
  set (q := a * 2 ^ sigma / b) in *.
  set (r := (a * 2 ^ sigma) mod b).
  assert (Hr : 0 <= r < b) by (apply Z.mod_pos_bound; lia).
  unfold binary_round_aux.
  destruct (Z.lt_ge_cases q (2 ^ 53)) as [Hlt|Hge].
  - rewrite shr_fexp_53 by lia.
    rewrite shr_m_of_loc, loc_of_shr_record_of_loc.
    pose proof (round_new_location q b r Hb Hr) as Hround. cbv zeta in Hround.
    set (m := round_nearest_even q (new_location b r)) in *.
    pose proof (round_final m sigma ltac:(lia) ltac:(lia)) as Hfinal.
    destruct (shr_fexp 53 1024 m (- sigma) loc_Exact) as [mrs e].
    destruct Hfinal as (x & Hx & Hint & Hinf).
    exists x. split; [exact Hx|]. split; [|exact Hinf].
    rewrite Hint. f_equal.
    apply rounded_quotient_floor; first [lia|exact Hround].
  - destruct (HB Hge) as [Hs1 HbP].
    rewrite shr_fexp_54 by lia.
    pose proof (round_after_shr_1 q (new_location b r) ltac:(lia)) as Hround.
    cbv zeta in Hround.
    set (m := round_nearest_even _ _) in *.
    assert (HP' : 0 < 2 ^ (sigma - 1)) by (apply Z.pow_pos_nonneg; lia).
    assert (E2 : 2 ^ sigma = 2 * 2 ^ (sigma - 1)).
    { rewrite <- Z.pow_succ_r by lia. f_equal. lia. }
    assert (Hq2 : q / 2 = a * 2 ^ (sigma - 1) / b).
    { unfold q. rewrite Z.div_div by lia. rewrite E2.
      replace (a * (2 * 2 ^ (sigma - 1))) with (2 * (a * 2 ^ (sigma - 1))) by lia.
      rewrite (Z.mul_comm b 2). apply Z.div_mul_cancel_l; lia. }
    assert (Hm : 2 ^ 52 <= m <= 2 ^ 53).
    { assert (2 ^ 52 <= q / 2 < 2 ^ 53)
        by (split; [apply Z.div_le_lower_bound|apply Z.div_lt_upper_bound]; lia).
      lia. }
    pose proof (round_final m (sigma - 1) ltac:(lia) ltac:(lia)) as Hfinal.
    replace (- sigma + 1) with (- (sigma - 1)) by lia.
    destruct (shr_fexp 53 1024 m (- (sigma - 1)) loc_Exact) as [mrs e].
    destruct Hfinal as (x & Hx & Hint & Hinf).
    exists x. split; [exact Hx|]. split; [|exact Hinf].
    rewrite Hint. f_equal.
    apply rounded_quotient_floor; try lia.
    rewrite <- Hq2.
    destruct Hround as [Hround|[Hround Hodd]]; [left; exact Hround|right].
    split; [exact Hround|].
    pose proof (Z.div_mod (a * 2 ^ (sigma - 1)) b ltac:(lia)) as D1.
    pose proof (Z.mod_pos_bound (a * 2 ^ (sigma - 1)) b Hb) as D2.
    pose proof (Z.div_mod (a * 2 ^ sigma) b ltac:(lia)) as D3.
    pose proof (Z.div_mod q 2 ltac:(lia)) as D4.
    fold q in D3. fold r in D3. rewrite <- Hq2 in D1. rewrite Hodd in D4.
    rewrite E2 in D3. nia.
Qed.

(** [int(a / b)] is the floor of the quotient as long as the dividend
    is below 2^53. *)
Lemma int_truediv_floor (a b : Z) :
  0 <= a < 2 ^ 53 -> 0 < b < 2 ^ 64 ->
  exists x, int_truediv a b = inr x /\ int_of_float x = inr (a / b).
Proof.
  intros Ha Hb. unfold int_truediv.
  destruct (Z.eqb_spec b 0); [lia|].
  destruct b as [|pb|pb]; try lia.
  destruct a as [|pa|pa]; try lia.
  - cbn [float_of_int SFdiv xorb]. eexists. split; reflexivity.
  - cbn [float_of_int SFdiv xorb]. unfold SFdiv_core_binary.
    pose proof (Zdigits2_range pa) as R1. pose proof (Zdigits2_range pb) as R2.
    set (d1 := Zdigits2 (Zpos pa)) in *. set (d2 := Zdigits2 (Zpos pb)) in *.
    assert (H1 : 1 <= d1 <= 53).
    { split; [subst d1; cbn; lia|].
      destruct (Z.le_gt_cases d1 53); [assumption|].
      assert (2 ^ 53 <= 2 ^ (d1 - 1)) by (apply Z.pow_le_mono_r; lia). lia. }
    assert (H2 : 1 <= d2 <= 64).
    { split; [subst d2; cbn; lia|].
      destruct (Z.le_gt_cases d2 64); [assumption|].
      assert (2 ^ 64 <= 2 ^ (d2 - 1)) by (apply Z.pow_le_mono_r; lia). lia. }
    set (sigma := 53 + d2 - d1).
    unfold fexp, emin.
    replace (Z.min (Z.max (d1 + 0 - (d2 + 0) - 53) (3 - 1024 - 53)) (0 - 0))
      with (- sigma) by lia.
    replace (0 - 0 - - sigma) with sigma by lia.
    assert (Hsig : 1 <= sigma <= 116) by lia.
    destruct sigma as [|ps|ps] eqn:Esig; try lia. rewrite <- Esig in *.
    rewrite Z.shiftl_mul_pow2 by lia.
    pose proof (Z.div_mod (Zpos pa * 2 ^ sigma) (Zpos pb) ltac:(lia)) as Hdm.
    unfold Z.div, Z.modulo in Hdm |- *.
    assert (Hq : Z.div_eucl (Zpos pa * 2 ^ sigma) (Zpos pb)
                 = (Zpos pa * 2 ^ sigma / Zpos pb, (Zpos pa * 2 ^ sigma) mod Zpos pb)).
    { unfold Z.div, Z.modulo. destruct (Z.div_eucl _ _). reflexivity. }
    rewrite Hq.
    assert (P1 : 2 ^ sigma = 2 ^ (53 - d1) * 2 ^ d2).
    { rewrite <- Z.pow_add_r by lia. f_equal. lia. }
    assert (P2 : 2 ^ 53 = 2 ^ (53 - d1) * 2 ^ d1).
    { rewrite <- Z.pow_add_r by lia. f_equal. lia. }
    assert (P3 : 2 ^ d1 = 2 * 2 ^ (d1 - 1)).
    { rewrite <- Z.pow_succ_r by lia. f_equal. lia. }
    assert (P4 : 2 ^ d2 = 2 * 2 ^ (d2 - 1)).
    { rewrite <- Z.pow_succ_r by lia. f_equal. lia. }
    assert (P5 : 0 < 2 ^ (53 - d1)) by (apply Z.pow_pos_nonneg; lia).
    assert (P6 : 0 < 2 ^ (d1 - 1)) by (apply Z.pow_pos_nonneg; lia).
    assert (P7 : 0 < 2 ^ (d2 - 1)) by (apply Z.pow_pos_nonneg; lia).
    destruct (binary_round_aux_quotient (Zpos pa) (Zpos pb) sigma)
      as (x & Hx & Hint & Hinf); try lia.
    + split.
      * apply Z.div_le_lower_bound; [lia|].
        change (2 ^ 52) with (2 ^ 53 / 2). rewrite P2.
        replace (2 ^ (53 - d1) * 2 ^ d1 / 2) with (2 ^ (53 - d1) * 2 ^ (d1 - 1)).
        -- rewrite P1. nia.
        -- rewrite P3. replace (2 ^ (53 - d1) * (2 * 2 ^ (d1 - 1)))
             with (2 ^ (53 - d1) * 2 ^ (d1 - 1) * 2) by lia.
           rewrite Z.div_mul by lia. reflexivity.
      * apply Z.div_lt_upper_bound; [lia|].
        change (2 ^ 54) with (2 * 2 ^ 53). rewrite P2, P1. nia.
    + intros _. rewrite P1. nia.
    + intros Hge. split; [lia|].
      (* a quotient of 54 bits needs a dividend of 53 bits *)
      rewrite P1. 
      assert (d1 = 53 \/ d1 <= 52) as [E53|Hlt] by lia.
      * rewrite E53. change (2 ^ (53 - 53)) with 1. lia.
      * assert (2 ^ (53 - d1) = 2 * 2 ^ (52 - d1)) as E.
        { rewrite <- Z.pow_succ_r by lia. f_equal. lia. }
        assert (0 < 2 ^ (52 - d1)) by (apply Z.pow_pos_nonneg; lia).
        nia.
    + exists x. rewrite Hx. split; [|exact Hint].
      destruct x; try reflexivity. exfalso. eapply Hinf. reflexivity.
Qed.

(** Below 2^53 the header offset is the round-up of the end of file. *)
Lemma aligned_offset_exact (offset header_len alignment : Z) :
  0 <= offset -> 0 <= header_len -> 0 < alignment < 2 ^ 64 ->
  offset + header_len + alignment - 1 < 2 ^ 53 ->
  aligned_offset offset header_len alignment
  = inr (round_up_offset offset header_len alignment).
Proof.
  intros Ho Hh Ha Hlt. unfold aligned_offset.
  destruct (int_truediv_floor (offset + header_len + alignment - 1) alignment)
    as (x & Hx & Hint); try lia.
  rewrite Hx. cbn [pyres_bind]. rewrite Hint. reflexivity.
Qed.

(** The round-up of the end of file is the first admissible offset. *)
Lemma round_up_smallest (offset header_len alignment : Z) :
  0 < alignment ->
  let p := round_up_offset offset header_len alignment in
  (p + header_len) mod alignment = 0 /\ offset <= p /\
  forall p', offset <= p' -> (p' + header_len) mod alignment = 0 -> p <= p'.
Proof.
  intros HA. cbv zeta. unfold round_up_offset.
  set (x := offset + header_len + alignment - 1).
  pose proof (Z.div_mod x alignment ltac:(lia)) as Hx.
  pose proof (Z.mod_pos_bound x alignment HA) as Hr.
  split; [|split].
  - replace (x / alignment * alignment - header_len + header_len)
      with (x / alignment * alignment) by lia.
    apply Z.mod_mul. lia.
  - subst x. nia.
  - intros p' Hle Hmod.
    apply Z.mod_divide in Hmod; [|lia]. destruct Hmod as [k Hk].
    assert (x / alignment < k + 1); [|nia].
    apply Z.div_lt_upper_bound; [lia|]. subst x. nia.
Qed.

(** C1 (the code departs from it): at an end of file of 2^53 - 55
    bytes, a header of 55 bytes and an alignment of 4096, the offset
    itself is admissible, but the division in floating point rounds
    the quotient up to the next integer and the header is placed 4096
    bytes later; with an alignment of 1 the quotient of 2^53 + 1 is
    rounded down and the header is placed one byte before the end of
    file. *)
Theorem aligned_offset_beyond_2_53 :
  aligned_offset (2 ^ 53 - 55) 55 4096 = inr (2 ^ 53 - 55 + 4096) /\
  (2 ^ 53 - 55 + 55) mod 4096 = 0 /\
  aligned_offset (2 ^ 53 - 54) 55 1 = inr (2 ^ 53 - 54 - 1).
Proof. vm_compute. repeat split; reflexivity. Qed.

(** ** The monad *)

Lemma run_ret {A : Type} (a : A) (w : world) : run (ret a) w [] a w.
Proof. reflexivity. Qed.

Lemma run_bind {A B : Type} (m : M A) (k : A -> M B) w o1 a w1 o2 b w2 :
  run m w o1 a w1 -> run (k a) w1 o2 b w2 -> run (bind m k) w (o1 ++ o2) b w2.
Proof.
  unfold run, bind. intros -> ->. reflexivity.
Qed.

Lemma run_bind_inv {A B : Type} (m : M A) (k : A -> M B) w o b w2 :
  run (bind m k) w o b w2 ->
  exists o1 a w1 o2, run m w o1 a w1 /\ run (k a) w1 o2 b w2 /\ o = o1 ++ o2.
Proof.
  unfold run, bind. destruct (m w) as [o1 [a w1|e w1|]]; try discriminate.
  destruct (k a w1) as [o2 r] eqn:E. intros [= <- ->].
  exists o1, a, w1, o2. auto.
Qed.

Lemma run_lift {A : Type} (r : pyres A) (a : A) (w : world) :
  r = inr a -> run (lift r) w [] a w.
Proof. intros ->. reflexivity. Qed.

Lemma run_lift_inv {A : Type} (r : pyres A) w o (a : A) w' :
  run (lift r) w o a w' -> r = inr a /\ o = [] /\ w' = w.
Proof.
  unfold run, lift. destruct r as [e|a0]; cbn; [discriminate|].
  intros [= <- <- <-]. auto.
Qed.

Lemma run_print (e : out_event) (w : world) : run (print e) w [e] tt w.
Proof. reflexivity. Qed.

Lemma run_print_inv (e : out_event) w o u w' :
  run (print e) w o u w' -> o = [e] /\ w' = w.
Proof. unfold run, print. intros [= <- <-]. auto. Qed.

Lemma run_ret_inv {A : Type} (a : A) w o b w' :
  run (ret a) w o b w' -> o = [] /\ b = a /\ w' = w.
Proof. unfold run, ret. intros [= <- <- <-]. auto. Qed.

Lemma bind_unfold {A B : Type} (m : M A) (k : A -> M B) (w : world) :
  bind m k w =
    match m w with
    | (o1, Ok a w1) => (o1 ++ fst (k a w1), snd (k a w1))
    | (o1, Raise e w1) => (o1, Raise e w1)
    | (o1, Diverge) => (o1, Diverge)
    end.
Proof.
  unfold bind. destruct (m w) as [o1 [a w1|e w1|]]; try reflexivity.
  destruct (k a w1); reflexivity.
Qed.

Lemma without_dots_app (o1 o2 : list out_event) :
  without_dots (o1 ++ o2) = without_dots o1 ++ without_dots o2.
Proof. apply List.filter_app. Qed.

(** ** [progress] is transparent *)

Ltac dots0 :=
  rewrite ?without_dots_app;
  change (without_dots []) with (@nil out_event);
  change (without_dots [MsgDot]) with (@nil out_event);
  rewrite ?app_nil_r, ?app_nil_l; reflexivity.

Ltac dots E := rewrite ?without_dots_app, E; dots0.

Lemma for_each_progress {Acc : Type} (it : generator) (each : Z)
  (body : bytes -> Acc -> M Acc) (fuel : nat) :
  forall (s : gen_state it) (position written_at : Z) (acc : Acc) (w : world),
    snd (for_each fuel (progress it each) (s, position, written_at) body acc w)
    = snd (for_each fuel it s body acc w) /\
    without_dots (fst (for_each fuel (progress it each) (s, position, written_at)
                         body acc w))
    = without_dots (fst (for_each fuel it s body acc w)).
Proof.
  induction fuel as [|fuel IH]; intros s position written_at acc w.
  - split; reflexivity.
  - cbn [for_each]. rewrite !bind_unfold.
    change (gen_next (progress it each) (s, position, written_at))
      with (progress_next it each (s, position, written_at)).
    unfold progress_next. rewrite bind_unfold.
    destruct (gen_next it s w) as [o1 [[data s1|s1|] w1|e w1|]]; cbn [fst snd].
    + destruct (each <=? position + len data - written_at).
      * rewrite bind_unfold. cbn [print ret fst snd]. rewrite !bind_unfold.
        destruct (body data acc w1) as [o2 [acc' w2|e w2|]]; cbn [fst snd].
        -- destruct (IH s1 (position + len data) (position + len data) acc' w2)
             as [E1 E2].
           split; [exact E1|dots E2].
        -- split; [reflexivity|dots0].
        -- split; [reflexivity|dots0].
      * cbn [ret fst snd]. rewrite !bind_unfold.
        destruct (body data acc w1) as [o2 [acc' w2|e w2|]]; cbn [fst snd].
        -- destruct (IH s1 (position + len data) written_at acc' w2) as [E1 E2].
           split; [exact E1|dots E2].
        -- split; [reflexivity|dots0].
        -- split; [reflexivity|dots0].
    + cbn [ret fst snd].
      destruct (IH s1 position written_at acc w1) as [E1 E2].
      split; [exact E1|dots E2].
    + cbn [ret fst snd]. split; [reflexivity|dots0].
    + split; reflexivity.
    + split; reflexivity.
Qed.

Lemma compute_crc32_progress (it : generator) (each : Z) (fuel : nat) (w : world) :
  snd (compute_crc32 fuel (progress it each) w) = snd (compute_crc32 fuel it w).
Proof. apply for_each_progress. Qed.

Lemma write_all_progress (it : generator) (each : Z) (fuel : nat) (fd : nat)
  (w : world) :
  snd (write_all fuel fd (progress it each) w) = snd (write_all fuel fd it w).
Proof. apply for_each_progress. Qed.

(** C10: [progress] hands on the chunks of the generator it wraps,
    the same ones in the same order: any loop over [progress it]
    ends as the same loop over [it] does, with the same value,
    exception or divergence and the same world, and prints the same
    except for dots.  In particular the chunks listed, the checksum
    computed and the bytes written through it are those of [it]. *)
Theorem progress_transparent (it : generator) (each : Z) (fuel : nat) (w : world) :
  (forall (Acc : Type) (body : bytes -> Acc -> M Acc) (acc : Acc),
     snd (for_each fuel (progress it each) (gen_init (progress it each)) body acc w)
     = snd (for_each fuel it (gen_init it) body acc w) /\
     without_dots (fst (for_each fuel (progress it each)
                          (gen_init (progress it each)) body acc w))
     = without_dots (fst (for_each fuel it (gen_init it) body acc w))) /\
  snd (chunks_of fuel (progress it each) w) = snd (chunks_of fuel it w) /\
  snd (compute_crc32 fuel (progress it each) w) = snd (compute_crc32 fuel it w) /\
  (forall fd, snd (write_all fuel fd (progress it each) w)
              = snd (write_all fuel fd it w)).
Proof.
  split; [|split; [|split]].
  - intros Acc body acc. apply for_each_progress.
  - apply for_each_progress.
  - apply compute_crc32_progress.
  - intros fd. apply write_all_progress.
Qed.

(** ** Loops with a pure body *)

Lemma bind_ret_l {A B : Type} (a : A) (k : A -> M B) (w : world) :
  bind (ret a) k w = k a w.
Proof. unfold bind, ret. destruct (k a w). reflexivity. Qed.

Lemma bind_collect {B : Type} (data : bytes) (l : list bytes)
  (k : list bytes -> M B) (w : world) :
  bind (collect data l) k w = k (l ++ [data]) w.
Proof. apply bind_ret_l. Qed.

Lemma for_each_collect_prefix (g : generator) (fuel : nat) :
  forall (s : gen_state g) (l0 : list bytes) (w : world),
    for_each fuel g s collect l0 w
    = (fst (for_each fuel g s collect [] w),
       outcome_map (app l0) (snd (for_each fuel g s collect [] w))).
Proof.
  induction fuel as [|fuel IH]; intros s l0 w; [reflexivity|].
  cbn [for_each]. rewrite !bind_unfold.
  destruct (gen_next g s w) as [o1 [[data s1|s1|] w1|e w1|]]; cbn [fst snd].
  - rewrite !bind_collect. cbn [app].
    rewrite (IH s1 (l0 ++ [data]) w1), (IH s1 [data] w1). cbn [fst snd].
    f_equal.
    destruct (snd (for_each fuel g s1 collect [] w1)) as [l w2|e w2|]; cbn;
      [|reflexivity|reflexivity].
    rewrite <- app_assoc. reflexivity.
  - rewrite (IH s1 l0 w1). reflexivity.
  - cbn. rewrite !app_nil_r. reflexivity.
  - reflexivity.
  - reflexivity.
Qed.

Lemma for_each_pure {A : Type} (f : bytes -> A -> A) (g : generator) (fuel : nat) :
  forall (s : gen_state g) (a : A) (w : world),
    for_each fuel g s (fun data acc => ret (f data acc)) a w
    = (fst (for_each fuel g s collect [] w),
       outcome_map (fun l => fold_left (fun acc data => f data acc) l a)
                   (snd (for_each fuel g s collect [] w))).
Proof.
  induction fuel as [|fuel IH]; intros s a w; [reflexivity|].
  cbn [for_each]. rewrite !bind_unfold.
  destruct (gen_next g s w) as [o1 [[data s1|s1|] w1|e w1|]]; cbn [fst snd].
  - rewrite bind_collect, bind_ret_l. cbn [app].
    rewrite (IH s1 (f data a) w1), (for_each_collect_prefix g fuel s1 [data] w1).
    cbn [fst snd]. f_equal.
    destruct (snd (for_each fuel g s1 collect [] w1)) as [l w2|e w2|]; reflexivity.
  - rewrite (IH s1 a w1). reflexivity.
  - reflexivity.
  - reflexivity.
  - reflexivity.
Qed.

Lemma crc_fold_concat (chunks : list bytes) (value : Z) :
  0 <= value < 2 ^ 32 ->
  fold_left (fun crc data => zlib_crc32 data crc) chunks value
  = zlib_crc32 (concat chunks) value.
Proof.
  revert value. induction chunks as [|c chunks IH]; intros value H; cbn [fold_left concat].
  - symmetry. apply zlib_crc32_nil, H.
  - rewrite zlib_crc32_app. apply IH, zlib_crc32_range.
Qed.

Lemma compute_crc32_chunks (fuel : nat) (it : generator) (w : world) :
  compute_crc32 fuel it w
  = (fst (chunks_of fuel it w),
     outcome_map (fun chunks => zlib_crc32 (concat chunks) 0) (snd (chunks_of fuel it w))).
Proof.
  unfold compute_crc32, chunks_of.
  rewrite for_each_pure. f_equal.
  destruct (snd (for_each fuel it (gen_init it) collect [] w)) as [l w2|e w2|];
    cbn [outcome_map]; [|reflexivity|reflexivity].
  rewrite crc_fold_concat by lia. reflexivity.
Qed.

(** C9: the checksum [compute_crc32] returns is a function of the
    bytes alone: it is the 32-bit CRC-32 of the concatenation of the
    chunks the iterable yields, so two runs whose chunks concatenate
    to the same bytes return the same value, however the bytes were
    split into chunks. *)
Theorem compute_crc32_chunking :
  (forall fuel it w,
     compute_crc32 fuel it w
     = (fst (chunks_of fuel it w),
        outcome_map (fun chunks => zlib_crc32 (concat chunks) 0)
                    (snd (chunks_of fuel it w)))) /\
  (forall fuel1 it1 w1 o1 chunks1 w1' fuel2 it2 w2 o2 chunks2 w2',
     run (chunks_of fuel1 it1) w1 o1 chunks1 w1' ->
     run (chunks_of fuel2 it2) w2 o2 chunks2 w2' ->
     concat chunks1 = concat chunks2 ->
     exists crc, 0 <= crc < 2 ^ 32 /\
       run (compute_crc32 fuel1 it1) w1 o1 crc w1' /\
       run (compute_crc32 fuel2 it2) w2 o2 crc w2').
Proof.
  split; [exact compute_crc32_chunks|].
  intros fuel1 it1 w1 o1 chunks1 w1' fuel2 it2 w2 o2 chunks2 w2' H1 H2 E.
  exists (zlib_crc32 (concat chunks1) 0).
  split; [apply zlib_crc32_range|].
  unfold run in *. rewrite !compute_crc32_chunks, H1, H2. cbn. rewrite E.
  split; reflexivity.
Qed.

(** ** Descriptors *)

Lemma fd_lookup_eq (w w' : world) (fd : nat) (f f' : open_file) :
  w_fds w' = <[fd := Some f']> (w_fds w) -> fd_lookup w fd = Some f ->
  fd_lookup w' fd = Some f'.
Proof.
  unfold fd_lookup. intros -> H.
  destruct (w_fds w !! fd) as [x|] eqn:E; [|discriminate].
  rewrite list_lookup_insert_eq by (eapply lookup_lt_Some; exact E). reflexivity.
Qed.

Lemma fd_lookup_ne (w w' : world) (fd fd' : nat) (x : option open_file) :
  w_fds w' = <[fd := x]> (w_fds w) -> fd <> fd' ->
  fd_lookup w' fd' = fd_lookup w fd'.
Proof.
  unfold fd_lookup. intros -> H. rewrite list_lookup_insert_ne by exact H. reflexivity.
Qed.

Lemma fd_lookup_same (w w' : world) (fd : nat) :
  w_fds w' = w_fds w -> fd_lookup w' fd = fd_lookup w fd.
Proof. unfold fd_lookup. intros ->. reflexivity. Qed.

Lemma fd_at_inode (w : world) (fd ino : nat) (pos : Z) (data : bytes) :
  fd_at w fd ino pos data ->
  exists i, w_inodes w !! ino = Some i /\ i_data i = data.
Proof.
  intros [_ H]. destruct (w_inodes w !! ino) as [i|]; [|discriminate].
  injection H as <-. eauto.
Qed.

Lemma run_os_lseek_set (w : world) (fd ino : nat) (pos0 pos : Z) (data : bytes) :
  fd_at w fd ino pos0 data -> 0 <= pos ->
  run (os_lseek fd pos SEEK_SET) w [] pos
      (set_fds w (<[fd := Some {| of_ino := ino; of_pos := pos |}]> (w_fds w))).
Proof.
  intros H Hpos. destruct (fd_at_inode _ _ _ _ _ H) as (i & Hi & _).
  destruct H as [Hf _]. unfold run, os_lseek. rewrite Hf. cbn [of_ino]. rewrite Hi.
  destruct (Z.ltb_spec pos 0); [lia|]. reflexivity.
Qed.

Lemma run_os_lseek_end (w : world) (fd ino : nat) (pos0 : Z) (data : bytes) :
  fd_at w fd ino pos0 data ->
  run (os_lseek fd 0 SEEK_END) w [] (len data)
      (set_fds w (<[fd := Some {| of_ino := ino; of_pos := len data |}]> (w_fds w))).
Proof.
  intros H. destruct (fd_at_inode _ _ _ _ _ H) as (i & Hi & <-).
  destruct H as [Hf _]. unfold run, os_lseek. rewrite Hf. cbn [of_ino]. rewrite Hi.
  rewrite Z.add_0_r. pose proof (len_nonneg (i_data i)).
  destruct (Z.ltb_spec (len (i_data i)) 0); [lia|]. reflexivity.
Qed.

Lemma run_os_lseek_cur (w : world) (fd ino : nat) (pos0 : Z) (data : bytes) :
  fd_at w fd ino pos0 data -> 0 <= pos0 ->
  run (os_lseek fd 0 SEEK_CUR) w [] pos0
      (set_fds w (<[fd := Some {| of_ino := ino; of_pos := pos0 |}]> (w_fds w))).
Proof.
  intros H Hpos. destruct (fd_at_inode _ _ _ _ _ H) as (i & Hi & _).
  destruct H as [Hf _]. unfold run, os_lseek. rewrite Hf. cbn [of_ino of_pos]. rewrite Hi.
  rewrite Z.add_0_r. destruct (Z.ltb_spec pos0 0); [lia|]. reflexivity.
Qed.

Lemma run_os_read (w : world) (fd ino : nat) (pos n : Z) (data : bytes) :
  fd_at w fd ino pos data -> 0 <= n ->
  let chunk := take (Z.to_nat (read_grant w n)) (drop (Z.to_nat pos) data) in
  run (os_read fd n) w [] chunk
      (set_reads
         (set_fds w (<[fd := Some {| of_ino := ino; of_pos := pos + len chunk |}]> (w_fds w)))
         (tail (w_reads w))).
Proof.
  intros H Hn. destruct (fd_at_inode _ _ _ _ _ H) as (i & Hi & <-).
  destruct H as [Hf _]. unfold run, os_read. rewrite Hf. cbn [of_ino of_pos]. rewrite Hi.
  destruct (Z.ltb_spec n 0); [lia|]. reflexivity.
Qed.

Lemma take_take_drop {A : Type} (l : list A) (a b : nat) :
  take a l ++ take b (drop a l) = take (a + b) l.
Proof.
  rewrite <- (take_drop a l) at 3.
  destruct (Nat.le_gt_cases a (length l)) as [Hle|Hgt].
  - rewrite take_app_add' by (rewrite length_take; lia). reflexivity.
  - rewrite (drop_ge l a) by lia. rewrite take_nil, !app_nil_r.
    rewrite (take_ge l a) by lia. rewrite take_ge by lia. reflexivity.
Qed.

Lemma take_min_length {A : Type} (l : list A) (n : nat) :
  take (n `min` length l) l = take n l.
Proof.
  destruct (Nat.le_gt_cases n (length l)) as [Hle|Hgt].
  - rewrite Nat.min_l by lia. reflexivity.
  - rewrite Nat.min_r by lia. rewrite !take_ge by lia. reflexivity.
Qed.

Lemma len_take_drop (data : bytes) (pos n : Z) :
  0 <= pos -> 0 <= n -> pos + n <= len data ->
  len (take (Z.to_nat n) (drop (Z.to_nat pos) data)) = n.
Proof.
  unfold len. intros. rewrite length_take, length_drop. lia.
Qed.

(** ** The loop of [chunk_iterator], for any loop body

    The body may change the world as long as it leaves the source
    descriptor, the source file and the pending reads as they are
    ([P] is what it maintains, indexed by the bytes consumed so far). *)

Section ChunkLoop.

Context {Acc : Type}.
Variables (fd2 ino : nat) (src : bytes).
Variable body : bytes -> Acc -> M Acc.
Variable P : bytes -> Acc -> world -> Prop.
Variables position length0 chunk_size : Z.

Hypothesis chunk_size_pos : 0 < chunk_size.

Hypothesis P_read : forall consumed acc w f reads,
  P consumed acc w ->
  P consumed acc (set_reads (set_fds w (<[fd2 := Some f]> (w_fds w))) reads).

Hypothesis body_ok : forall consumed data acc w pos,
  P consumed acc w -> fd_at w fd2 ino pos src -> chunk_ok chunk_size data ->
  exists acc' w',
    run (body data acc) w [] acc' w' /\ P (consumed ++ data) acc' w' /\
    fd_at w' fd2 ino pos src /\ (length (w_reads w') <= length (w_reads w))%nat.

Lemma chunk_loop_run (fuel : nat) :
  forall remaining consumed acc w pos,
    P consumed acc w -> fd_at w fd2 ino pos src ->
    0 <= pos -> 0 <= remaining -> pos + remaining <= len src ->
    (length (w_reads w) + Z.to_nat remaining < fuel)%nat ->
    exists acc' w',
      run (for_each fuel (chunk_iterator fd2 position length0 chunk_size)
             (chunk_loop remaining) body acc) w [] acc' w' /\
      P (consumed ++ take (Z.to_nat remaining) (drop (Z.to_nat pos) src)) acc' w' /\
      fd_at w' fd2 ino (pos + remaining) src /\
      (length (w_reads w') <= length (w_reads w))%nat.
Proof.
  induction fuel as [|fuel IH]; intros remaining consumed acc w pos HP Hfd Hpos Hrem Hlen Hfuel;
    [lia|].
  cbn [for_each gen_next chunk_iterator chunk_iterator_next].
  destruct (Z.eqb_spec remaining 0) as [->|Hne].
  - exists acc, w. unfold run. rewrite bind_ret_l. cbn [Z.to_nat]. rewrite take_0, app_nil_r, Z.add_0_r.
    repeat split; try assumption; try apply Hfd. lia.
  - assert (Hn : 0 < Z.min chunk_size remaining) by lia.
    pose proof (run_os_read w fd2 ino pos (Z.min chunk_size remaining) src Hfd ltac:(lia))
      as Hread.
    cbv zeta in Hread.
    remember (take (Z.to_nat (read_grant w (Z.min chunk_size remaining)))
                   (drop (Z.to_nat pos) src)) as chunk eqn:Echunk.
    set (w1 := set_reads _ _) in Hread.
    assert (Hfd1 : fd_at w1 fd2 ino (pos + len chunk) src).
    { destruct Hfd as [Hf Hi]. split; [|exact Hi].
      eapply fd_lookup_eq; [reflexivity|exact Hf]. }
    assert (HP1 : P consumed acc w1) by (apply P_read, HP).
    assert (Hgrant : read_grant w (Z.min chunk_size remaining) <= Z.min chunk_size remaining).
    { unfold read_grant. destruct (w_reads w); lia. }
    assert (Hclen : len chunk <= Z.min chunk_size remaining).
    { unfold len. rewrite Echunk, length_take. lia. }
    assert (Htail : (length (w_reads w1) <= length (w_reads w))%nat).
    { subst w1. cbn [w_reads set_reads]. destruct (w_reads w); cbn; lia. }
    assert (Hempty : len chunk = 0 -> (length (w_reads w1) < length (w_reads w))%nat).
    { intros Hc. subst w1. cbn [w_reads set_reads].
      destruct (w_reads w) as [|g reads] eqn:Hreads; [|cbn; lia].
      exfalso. revert Hc. unfold len. rewrite Echunk, length_take, length_drop.
      unfold read_grant. rewrite Hreads. unfold len in Hlen. lia. }
    assert (Hd : chunk = take (Z.to_nat (len chunk)) (drop (Z.to_nat pos) src)).
    { unfold len. rewrite Nat2Z.id, Echunk, length_take.
      symmetry. apply take_min_length. }
    clearbody w1. clear Echunk.
    unfold run. rewrite bind_unfold, bind_unfold. unfold run in Hread. rewrite Hread.
    cbn [fst snd].
    destruct chunk as [|b chunk'].
    + (* an empty read: the loop continues with the same length *)
      cbn [ret fst snd app].
      change (len (@nil byte)) with 0 in *. rewrite Z.add_0_r in Hfd1.
      specialize (Hempty eq_refl).
      destruct (IH remaining consumed acc w1 pos) as (acc' & w' & Hrun & HP' & Hfd' & Hr');
        try assumption; try lia.
      exists acc', w'. unfold run in Hrun. rewrite Hrun. cbn [fst snd app].
      repeat split; try assumption; try apply Hfd'. lia.
    + (* a chunk is yielded to the body *)
      cbn [ret fst snd app]. set (data := b :: chunk') in *.
      assert (Hdlen : 0 < len data) by (unfold len, data; cbn [length]; lia).
      destruct (body_ok consumed data acc w1 (pos + len data) HP1 Hfd1)
        as (acc1 & w2 & Hbody & HP2 & Hfd2 & Hr2).
      { unfold chunk_ok. lia. }
      rewrite bind_unfold. unfold run in Hbody. rewrite Hbody. cbn [fst snd app].
      destruct (IH (remaining - len data) (consumed ++ data) acc1 w2 (pos + len data))
        as (acc' & w' & Hrun & HP' & Hfd' & Hr'); try assumption; try lia.
      exists acc', w'. unfold run in Hrun. rewrite Hrun. cbn [fst snd app].
      replace (pos + len data + (remaining - len data)) with (pos + remaining) in Hfd' by lia.
      repeat split; try assumption; try apply Hfd'; try lia.
      rewrite <- app_assoc in HP'.
      rewrite Hd in HP' at 1.
      replace (Z.to_nat (pos + len data)) with (Z.to_nat pos + Z.to_nat (len data))%nat
        in HP' by lia.
      rewrite <- drop_drop, take_take_drop in HP'.
      replace (Z.to_nat (len data) + Z.to_nat (remaining - len data))%nat
        with (Z.to_nat remaining) in HP' by lia.
      exact HP'.
Qed.

Lemma chunk_iterator_run (fuel : nat) (acc : Acc) (w : world) (pos0 : Z) :
  P [] acc w -> fd_at w fd2 ino pos0 src ->
  0 <= position -> 0 <= length0 -> position + length0 <= len src ->
  (length (w_reads w) + Z.to_nat length0 + 1 < fuel)%nat ->
  exists acc' w',
    run (for_each fuel (chunk_iterator fd2 position length0 chunk_size)
           (gen_init (chunk_iterator fd2 position length0 chunk_size)) body acc)
        w [] acc' w' /\
    P (take (Z.to_nat length0) (drop (Z.to_nat position) src)) acc' w' /\
    fd_at w' fd2 ino (position + length0) src /\
    (length (w_reads w') <= length (w_reads w))%nat.
Proof.
  intros HP Hfd Hpos Hlen Hsrc Hfuel.
  destruct fuel as [|fuel]; [lia|].
  cbn [for_each gen_next gen_init chunk_iterator chunk_iterator_next].
  pose proof (run_os_lseek_set w fd2 ino pos0 position src Hfd Hpos) as Hseek.
  set (w1 := set_fds _ _) in Hseek.
  assert (Hfd1 : fd_at w1 fd2 ino position src).
  { destruct Hfd as [Hf Hi]. split; [|exact Hi].
    eapply fd_lookup_eq; [reflexivity|exact Hf]. }
  assert (HP1 : P [] acc w1).
  { apply (P_read [] acc w {| of_ino := ino; of_pos := position |} (w_reads w)) in HP.
    exact HP. }
  unfold run. rewrite bind_unfold, bind_unfold. unfold run in Hseek. rewrite Hseek.
  cbn [fst snd ret app].
  destruct (chunk_loop_run fuel length0 [] acc w1 position HP1 Hfd1 Hpos Hlen Hsrc)
    as (acc' & w' & Hrun & HP' & Hfd' & Hr').
  { subst w1. cbn [w_reads set_fds]. lia. }
  exists acc', w'. unfold run in Hrun. rewrite Hrun. cbn [fst snd app].
  repeat split; try assumption; apply Hfd'.
Qed.

End ChunkLoop.

(** C6: when the file behind the descriptor holds [length] bytes from
    [position] on, [chunk_iterator] yields, whatever the schedule of
    short and empty reads, chunks of at least one and at most
    [chunk_size] bytes whose concatenation is exactly that byte range;
    an empty read is retried, enough fuel for the pending reads and the
    bytes gives the result, and the generator stops exactly in the
    state where no byte remains to be read. *)
Theorem chunk_iterator_yields (fd ino : nat) (pos0 : Z) (data : bytes)
  (position length : Z) (fuel : nat) (w : world) :
  fd_at w fd ino pos0 data ->
  0 <= position -> 0 <= length -> position + length <= len data ->
  (List.length (w_reads w) + Z.to_nat length + 1 < fuel)%nat ->
  (exists chunks w',
     run (chunks_of fuel (chunk_iterator fd position length default_chunk_size))
         w [] chunks w' /\
     Forall (chunk_ok default_chunk_size) chunks /\
     concat chunks = take (Z.to_nat length) (drop (Z.to_nat position) data) /\
     len (concat chunks) = length /\
     fd_at w' fd ino (position + length) data) /\
  (forall remaining w1 o r w2,
     run (chunk_iterator_next fd position length default_chunk_size
            (chunk_loop remaining)) w1 o r w2 ->
     (r = Stop <-> remaining = 0)).
Proof.
  intros Hfd Hpos Hlen Hdata Hfuel. split.
  - pose (P := fun (consumed : bytes) (acc : list bytes) (_ : world) =>
                 concat acc = consumed /\ Forall (chunk_ok default_chunk_size) acc).
    destruct (chunk_iterator_run fd ino data collect P position length default_chunk_size)
      with (fuel := fuel) (acc := @nil bytes) (w := w) (pos0 := pos0)
      as (chunks & w' & Hrun & [Hcat Hall] & Hfd' & _); try assumption.
    + unfold default_chunk_size. lia.
    + intros consumed acc w0 f reads H. exact H.
    + intros consumed d acc w0 pos [Hc Ha] Hf Hd.
      exists (acc ++ [d]), w0. repeat split; try apply Hf; try lia.
      * rewrite concat_app, Hc. cbn. rewrite app_nil_r. reflexivity.
      * apply Forall_app. split; [exact Ha|]. constructor; [exact Hd|constructor].
    + split; [reflexivity|constructor].
    + exists chunks, w'. repeat split; try assumption; try apply Hfd'.
      rewrite Hcat. apply len_take_drop; assumption.
  - intros remaining w1 o r w2 H. cbn [chunk_iterator_next] in H.
    destruct (Z.eqb_spec remaining 0) as [->|Hne].
    + apply run_ret_inv in H as (_ & -> & _). split; reflexivity.
    + apply run_bind_inv in H as (o1 & d & w3 & o2 & _ & H & _).
      destruct d; apply run_ret_inv in H as (_ & -> & _); split; [discriminate|lia| discriminate|lia].
Qed.

(** ** Storing bytes in a file *)

Ltac splits := repeat match goal with |- _ /\ _ => split end.

Lemma len_app {A : Type} (a b : list A) : len (a ++ b) = len a + len b.
Proof. unfold len. rewrite length_app. lia. Qed.

Lemma length_hole_prefix (content : bytes) (p : nat) :
  length (take p content ++ replicate (p - length content) x00) = p.
Proof. rewrite length_app, length_take, length_replicate. lia. Qed.

Lemma write_at_cons (content : bytes) (pos : Z) (b : byte) (data : bytes) :
  write_at content pos (b :: data)
  = (take (Z.to_nat pos) content ++ replicate (Z.to_nat pos - length content) x00)
      ++ (b :: data) ++ drop (Z.to_nat pos + length (b :: data)) content.
Proof. unfold write_at. rewrite <- app_assoc. reflexivity. Qed.

(** What was stored is read back from the same offset. *)
Lemma write_at_read_back (content data : bytes) (pos : Z) :
  take (length data) (drop (Z.to_nat pos) (write_at content pos data)) = data.
Proof.
  destruct data as [|b data]; [apply take_0|].
  rewrite write_at_cons.
  rewrite drop_app_length' by (symmetry; apply length_hole_prefix).
  apply take_app_length.
Qed.

(** Two consecutive writes are one write of the concatenation. *)
Lemma write_at_app (content a b : bytes) (pos : Z) :
  0 <= pos ->
  write_at (write_at content pos a) (pos + len a) b = write_at content pos (a ++ b).
Proof.
  intros Hpos.
  destruct a as [|x a]; [cbn [write_at app len length Z.of_nat]; rewrite Z.add_0_r; reflexivity|].
  destruct b as [|y b]; [rewrite app_nil_r; reflexivity|].
  change ((x :: a) ++ y :: b) with (x :: (a ++ y :: b)).
  rewrite (write_at_cons _ (pos + len (x :: a))), !(write_at_cons content).
  set (p := Z.to_nat pos).
  set (X := take p content ++ replicate (p - length content) x00).
  assert (HX : length X = p) by apply length_hole_prefix.
  replace (Z.to_nat (pos + len (x :: a))) with (p + length (x :: a))%nat
    by (unfold len, p; lia).
  set (A := x :: a) in *. set (B := y :: b) in *.
  change (x :: (a ++ B)) with (A ++ B).
  assert (E1 : take (p + length A) (X ++ A ++ drop (p + length A) content) = X ++ A).
  { rewrite app_assoc. apply take_app_length'. rewrite length_app. lia. }
  assert (E2 : (p + length A - length (X ++ A ++ drop (p + length A) content) = 0)%nat).
  { rewrite !length_app. lia. }
  assert (E3 : drop (p + length A + length B) (X ++ A ++ drop (p + length A) content)
               = drop (p + length (A ++ B)) content).
  { rewrite app_assoc.
    rewrite drop_app_add' by (rewrite length_app; lia).
    rewrite drop_drop, length_app. f_equal. lia. }
  rewrite E1, E2, E3. cbn [replicate]. rewrite app_nil_r, <- !app_assoc. reflexivity.
Qed.

(** ** Descriptors under the system calls *)

Lemma free_fd_not_open (fds : list (option open_file)) (f : open_file) :
  fds !! free_fd fds <> Some (Some f).
Proof.
  induction fds as [|[g|] fds IH]; cbn; try discriminate. exact IH.
Qed.

Lemma free_fd_le (fds : list (option open_file)) : (free_fd fds <= length fds)%nat.
Proof. induction fds as [|[g|] fds IH]; cbn; lia. Qed.

Lemma install_fd_lookup (fds : list (option open_file)) (f : open_file) :
  install_fd fds f !! free_fd fds = Some (Some f).
Proof.
  unfold install_fd. destruct (Nat.ltb_spec (free_fd fds) (length fds)) as [Hlt|Hge].
  - apply list_lookup_insert_eq. exact Hlt.
  - pose proof (free_fd_le fds).
    assert (free_fd fds = length fds) as -> by lia.
    rewrite lookup_app_r by lia. rewrite Nat.sub_diag. reflexivity.
Qed.

Lemma install_fd_lookup_ne (fds : list (option open_file)) (f : open_file) (fd : nat)
  (g : open_file) :
  fds !! fd = Some (Some g) -> install_fd fds f !! fd = Some (Some g).
Proof.
  intros H. assert (fd <> free_fd fds).
  { intros ->. exact (free_fd_not_open fds g H). }
  unfold install_fd. destruct (Nat.ltb_spec (free_fd fds) (length fds)) as [Hlt|Hge].
  - rewrite list_lookup_insert_ne by congruence. exact H.
  - rewrite lookup_app_l by (eapply lookup_lt_Some; exact H). exact H.
Qed.

Lemma fd_lookup_Some (w : world) (fd : nat) (f : open_file) :
  fd_lookup w fd = Some f <-> w_fds w !! fd = Some (Some f).
Proof.
  unfold fd_lookup. destruct (w_fds w !! fd) as [[g|]|]; split; congruence.
Qed.

(** [w'] is [w] except for descriptor [fd] and for the pending reads. *)
Lemma fd_at_frame (w w' : world) (fd fd' ino : nat) (pos : Z) (data : bytes)
  (x : option open_file) :
  w_fds w' = <[fd := x]> (w_fds w) -> w_inodes w' = w_inodes w -> fd <> fd' ->
  fd_at w fd' ino pos data -> fd_at w' fd' ino pos data.
Proof.
  intros Hfds Hino Hne [Hf Hi]. split.
  - rewrite (fd_lookup_ne w w' fd fd' x Hfds Hne). exact Hf.
  - rewrite Hino. exact Hi.
Qed.

Lemma run_os_write (w : world) (fd ino : nat) (pos : Z) (content data : bytes) :
  fd_at w fd ino pos content ->
  exists w',
    run (os_write fd data) w [] (len data) w' /\
    fd_at w' fd ino (pos + len data) (write_at content pos data) /\
    w_writes w' = w_writes w ++ [(fd, pos, data)] /\
    w_reads w' = w_reads w /\
    w_ficlonerange w' = w_ficlonerange w /\
    (forall fd' ino' pos' data',
       fd' <> fd -> ino' <> ino -> fd_at w fd' ino' pos' data' ->
       fd_at w' fd' ino' pos' data').
Proof.
  intros Hfd. destruct (fd_at_inode _ _ _ _ _ Hfd) as (i & Hi & <-).
  destruct Hfd as [Hf _].
  eexists. split; [|split; [|split; [|split; [|split]]]].
  - unfold run, os_write. rewrite Hf. cbn [of_ino of_pos]. rewrite Hi. reflexivity.
  - split.
    + eapply fd_lookup_eq; [reflexivity|exact Hf].
    + cbn [w_inodes set_writes set_fds set_inodes].
      rewrite list_lookup_insert_eq by (eapply lookup_lt_Some; exact Hi). reflexivity.
  - reflexivity.
  - reflexivity.
  - reflexivity.
  - intros fd' ino' pos' data' Hfd' Hino' [Hf' Hi']. split.
    + rewrite <- Hf'. eapply fd_lookup_ne; [reflexivity|congruence].
    + cbn [w_inodes set_writes set_fds set_inodes].
      rewrite list_lookup_insert_ne by congruence. exact Hi'.
Qed.

Lemma run_of_snd {A : Type} (m : M A) (w : world) (a : A) (w' : world) :
  snd (m w) = Ok a w' -> exists o, run m w o a w'.
Proof.
  unfold run. destruct (m w) as [o r]. cbn. intros ->. eauto.
Qed.

(** ** The two passes over a source file *)

Section Passes.

Variables (fd fd2 dst_ino src_ino : nat) (src : bytes).
Hypothesis fd_ne : fd <> fd2.
Hypothesis ino_ne : src_ino <> dst_ino.

(** The checksum pass reads the whole file and touches nothing but
    the source descriptor. *)
Lemma checksum_pass (fuel : nat) (w : world) (pos2 pos : Z) (content : bytes) :
  fd_at w fd2 src_ino pos2 src -> fd_at w fd dst_ino pos content ->
  (length (w_reads w) + length src + 1 < fuel)%nat ->
  exists o w',
    run (compute_crc32 fuel
           (progress (chunk_iterator fd2 0 (len src) default_chunk_size) default_each))
        w o (zlib_crc32 src 0) w' /\
    fd_at w' fd2 src_ino (len src) src /\ fd_at w' fd dst_ino pos content /\
    w_ficlonerange w' = w_ficlonerange w /\
    (length (w_reads w') <= length (w_reads w))%nat.
Proof.
  intros Hsrc Hdst Hfuel.
  pose (P := fun (consumed : bytes) (acc : list bytes) (w0 : world) =>
               concat acc = consumed /\ fd_at w0 fd dst_ino pos content /\
               w_ficlonerange w0 = w_ficlonerange w).
  destruct (chunk_iterator_run fd2 src_ino src collect P 0 (len src) default_chunk_size)
    with (fuel := fuel) (acc := @nil bytes) (w := w) (pos0 := pos2)
    as (chunks & w' & Hrun & (Hcat & Hdst' & Hclone) & Hsrc' & Hreads);
    try assumption; try (unfold len; lia).
  - unfold default_chunk_size. lia.
  - intros consumed acc w0 f reads (Hc & Hd & Hk). unfold P. splits; try assumption.
    eapply fd_at_frame; [reflexivity|reflexivity| |exact Hd]. congruence.
  - intros consumed d acc w0 p (Hc & Hd & Hk) Hs Hok.
    exists (acc ++ [d]), w0. unfold P. splits; try assumption; try reflexivity; try lia.
    rewrite concat_app, Hc. cbn. rewrite app_nil_r. reflexivity.
  - unfold P. splits; try assumption; reflexivity.
  - assert (Hall : take (Z.to_nat (len src)) (drop (Z.to_nat 0) src) = src).
    { rewrite to_nat_len. change (Z.to_nat 0) with 0%nat. rewrite drop_0.
      apply take_ge. lia. }
    assert (Hcrc : snd (compute_crc32 fuel
                          (progress (chunk_iterator fd2 0 (len src) default_chunk_size)
                             default_each) w)
                   = Ok (zlib_crc32 src 0) w').
    { rewrite compute_crc32_progress.
      rewrite compute_crc32_chunks. cbn [snd]. unfold chunks_of, run in *.
      rewrite Hrun. cbn [snd outcome_map]. rewrite Hcat, Hall. reflexivity. }
    apply run_of_snd in Hcrc as [o Hcrc].
    exists o, w'. rewrite Z.add_0_l in Hsrc'. splits; assumption.
Qed.

(** The copy pass stores the whole file at the position of the
    destination descriptor. *)
Lemma copy_pass (fuel : nat) (w : world) (pos2 pos : Z) (content : bytes) :
  fd_at w fd2 src_ino pos2 src -> fd_at w fd dst_ino pos content -> 0 <= pos ->
  (length (w_reads w) + length src + 1 < fuel)%nat ->
  exists o w',
    run (write_all fuel fd
           (progress (chunk_iterator fd2 0 (len src) default_chunk_size) default_each))
        w o tt w' /\
    fd_at w' fd2 src_ino (len src) src /\
    fd_at w' fd dst_ino (pos + len src) (write_at content pos src).
Proof.
  intros Hsrc Hdst Hpos Hfuel.
  pose (P := fun (consumed : bytes) (_ : unit) (w0 : world) =>
               fd_at w0 fd dst_ino (pos + len consumed) (write_at content pos consumed)).
  destruct (chunk_iterator_run fd2 src_ino src
              (fun data (_ : unit) => _ <- os_write fd data ;; ret tt)
              P 0 (len src) default_chunk_size)
    with (fuel := fuel) (acc := tt) (w := w) (pos0 := pos2)
    as ([] & w' & Hrun & Hdst' & Hsrc' & Hreads);
    try assumption; try (unfold len; lia).
  - unfold default_chunk_size. lia.
  - intros consumed acc w0 f reads Hd. unfold P in *.
    eapply fd_at_frame; [reflexivity|reflexivity| |exact Hd]. congruence.
  - intros consumed d acc w0 p Hd Hs Hok. unfold P in *.
    destruct (run_os_write w0 fd dst_ino _ _ d Hd) as (w1 & Hw & Hd1 & _ & Hr & _ & Hframe).
    exists tt, w1. splits.
    + exact (run_bind _ _ _ _ _ _ _ _ _ Hw (run_ret tt w1)).
    + rewrite write_at_app in Hd1 by (pose proof (len_nonneg consumed); lia).
      rewrite len_app, Z.add_assoc. exact Hd1.
    + apply Hframe; [congruence|exact ino_ne|exact Hs].
    + rewrite Hr. lia.
  - unfold P. cbn [len length Z.of_nat write_at]. rewrite Z.add_0_r. exact Hdst.
  - unfold P in Hdst'.
    assert (Hall : take (Z.to_nat (len src)) (drop (Z.to_nat 0) src) = src).
    { rewrite to_nat_len. change (Z.to_nat 0) with 0%nat. rewrite drop_0.
      apply take_ge. lia. }
    rewrite Hall in Hdst'. rewrite Z.add_0_l in Hsrc'.
    assert (Hw : snd (write_all fuel fd
                        (progress (chunk_iterator fd2 0 (len src) default_chunk_size)
                           default_each) w)
                 = Ok tt w').
    { rewrite write_all_progress.
      unfold write_all, run in *. rewrite Hrun. reflexivity. }
    apply run_of_snd in Hw as [o Hw].
    exists o, w'. splits; assumption.
Qed.

End Passes.

(** ** A refused clone *)

Lemma format_in_range_intro (f : format) (v : Z) :
  f <> fmt_q -> 0 <= v < 2 ^ (8 * Z.of_nat (format_size f)) ->
  format_in_range f v = true.
Proof.
  intros Hf Hv. destruct f; try congruence; unfold format_in_range;
    apply andb_true_intro; split; [apply Z.leb_le|apply Z.ltb_lt| apply Z.leb_le
                                  |apply Z.ltb_lt|apply Z.leb_le|apply Z.ltb_lt]; lia.
Qed.

Lemma clone_range_refused (w : world) (fd fd2 : nat) (size offset errno : Z) :
  (forall req, w_ficlonerange w fd req = Some errno) ->
  Z.of_nat fd2 < 2 ^ 63 -> 0 <= size < 2 ^ 64 -> 0 <= offset < 2 ^ 64 ->
  clone_range fd2 0 size fd offset w = ([], Raise (OSError errno) w).
Proof.
  intros Hclone Hfd Hsize Hoff. unfold clone_range.
  destruct (pack_total FileCloneRange [Z.of_nat fd2; 0; size; offset]) as [data Hdata].
  { repeat constructor; try (apply format_in_range_intro; [discriminate|cbn; lia]).
    unfold format_in_range. apply andb_true_intro.
    split; [apply Z.leb_le|apply Z.ltb_lt]; lia. }
  rewrite Hdata. cbn [lift]. rewrite bind_ret_l.
  unfold fcntl_ioctl. rewrite Z.eqb_refl. cbn [negb]. rewrite Hclone. reflexivity.
Qed.

Lemma try_except_run {A : Type} (m : M A) (h : Z -> M A) w o1 errno w1 o2 a w2 :
  m w = (o1, Raise (OSError errno) w1) -> run (h errno) w1 o2 a w2 ->
  run (try_except_OSError m h) w (o1 ++ o2) a w2.
Proof.
  unfold run, try_except_OSError. intros -> ->. reflexivity.
Qed.

Lemma try_finally_run {A : Type} (m : M A) (c : M unit) w o1 a w1 o2 w2 :
  run m w o1 a w1 -> run c w1 o2 tt w2 -> run (try_finally m c) w (o1 ++ o2) a w2.
Proof.
  unfold run, try_finally. intros -> ->. reflexivity.
Qed.

Lemma round_up_nonneg (offset header_len alignment : Z) :
  0 < alignment -> 0 <= offset ->
  offset <= (offset + header_len + alignment - 1) / alignment * alignment - header_len.
Proof. intros HA Ho. apply (round_up_smallest offset header_len alignment HA). Qed.

(** ** Placing one file in the archive *)

Lemma fd_at_data (w : world) (fd ino : nat) (pos : Z) (data : bytes) :
  fd_at w fd ino pos data -> fd_data w fd = Some data.
Proof. intros [Hf Hi]. unfold fd_data. rewrite Hf. exact Hi. Qed.

Lemma make_file_header_size (name : pystr) (st : stat_result) (crc : Z) (h : bytes) :
  make_file_header name st crc = inr h -> 0 <= st_size st < 2 ^ 64.
Proof.
  intros H. apply make_file_header_inr in H as (bname & extra & fixed & _ & He & _).
  apply pack_cons_inr in He as (_ & b1 & He & _).
  apply pack_cons_inr in He as (_ & b2 & He & _).
  apply pack_cons_inr in He as (Hr & _).
  apply format_in_range_unsigned in Hr; [|discriminate]. cbn in Hr. lia.
Qed.

Lemma offset_range (content header : bytes) (alignment : Z) :
  0 < alignment ->
  len content + len header + alignment - 1 < 2 ^ 53 ->
  let offset := round_up_offset (len content) (len header) alignment in
  len content <= offset /\ offset + len header < 2 ^ 64.
Proof.
  intros HA Hb offset.
  pose proof (round_up_smallest (len content) (len header) alignment HA)
    as (_ & Hle & _).
  fold offset in Hle. split; [exact Hle|].
  pose proof (len_nonneg content). pose proof (len_nonneg header).
  pose proof (Z.mul_div_le (len content + len header + alignment - 1) alignment HA).
  unfold offset, round_up_offset. lia.
Qed.

Section Place.

Variables (fd fd2 dst_ino src_ino : nat) (src content header : bytes).
Variables (path : pystr) (st : stat_result) (alignment : Z).
Hypothesis fd_ne : fd <> fd2.
Hypothesis ino_ne : src_ino <> dst_ino.
Hypothesis st_size_src : st_size st = len src.
Hypothesis header_ok : make_file_header path st (zlib_crc32 src 0) = inr header.
Hypothesis alignment_range : 0 < alignment < 2 ^ 64.
Hypothesis below_2_53 : len content + len header + alignment - 1 < 2 ^ 53.
Hypothesis fd2_range : Z.of_nat fd2 < 2 ^ 63.

Local Abbreviation offset := (round_up_offset (len content) (len header) alignment).

(** Up to the clone request: checksum, header, placement; [K] is the
    rest of the body. *)
Lemma archive_file_header {B : Type} (K : Z -> bytes -> Z -> M B) (fuel : nat)
  (w : world) (pos2 pos : Z) :
  fd_at w fd2 src_ino pos2 src -> fd_at w fd dst_ino pos content ->
  (length (w_reads w) + length src + 1 < fuel)%nat ->
  exists w',
    fd_at w' fd2 src_ino (len src) src /\
    fd_at w' fd dst_ino (offset + len header) (write_at content offset header) /\
    w_ficlonerange w' = w_ficlonerange w /\
    (length (w_reads w') <= length (w_reads w))%nat /\
    forall o2 b w'',
      run (K (zlib_crc32 src 0) header offset) w' o2 b w'' ->
      exists o,
        run (crc <- compute_crc32 fuel
                      (progress (chunk_iterator fd2 0 (st_size st) default_chunk_size)
                         default_each) ;;
             header <- lift (make_file_header path st crc) ;;
             offset <- os_lseek fd 0 SEEK_END ;;
             offset <- lift (aligned_offset offset (len header) alignment) ;;
             _ <- os_lseek fd offset SEEK_SET ;;
             _ <- os_write fd header ;;
             _ <- print (MsgHeader crc offset) ;;
             K crc header offset)
            w o b w'' /\
        (forall e, In e o2 -> In e o).
Proof.
  intros Hsrc Hdst Hfuel.
  pose proof (offset_range content header alignment ltac:(lia) below_2_53)
    as [Hoff1 Hoff2].
  pose proof (len_nonneg content) as Hc0.
  edestruct (checksum_pass fd fd2 dst_ino src_ino src) with (fuel := fuel) (w := w)
    as (o1 & w1 & Hcrc & Hsrc1 & Hdst1 & Hk1 & Hr1); try eassumption.
  pose proof (run_os_lseek_end w1 fd dst_ino pos content Hdst1) as Hend.
  set (w2 := set_fds w1 _) in Hend.
  assert (Hdst2 : fd_at w2 fd dst_ino (len content) content).
  { destruct Hdst1 as [Hf Hi]. split; [|exact Hi].
    eapply fd_lookup_eq; [reflexivity|exact Hf]. }
  assert (Hsrc2 : fd_at w2 fd2 src_ino (len src) src).
  { eapply fd_at_frame; [reflexivity|reflexivity|exact fd_ne|exact Hsrc1]. }
  pose proof (run_os_lseek_set w2 fd dst_ino (len content) offset content Hdst2
                ltac:(lia)) as Hset.
  set (w3 := set_fds w2 _) in Hset.
  assert (Hdst3 : fd_at w3 fd dst_ino offset content).
  { destruct Hdst2 as [Hf Hi]. split; [|exact Hi].
    eapply fd_lookup_eq; [reflexivity|exact Hf]. }
  assert (Hsrc3 : fd_at w3 fd2 src_ino (len src) src).
  { eapply fd_at_frame; [reflexivity|reflexivity|exact fd_ne|exact Hsrc2]. }
  destruct (run_os_write w3 fd dst_ino offset content header Hdst3)
    as (w4 & Hwrite & Hdst4 & _ & Hr4 & Hk4 & Hframe).
  assert (Hsrc4 : fd_at w4 fd2 src_ino (len src) src).
  { apply Hframe; [congruence|exact ino_ne|exact Hsrc3]. }
  assert (Halign : aligned_offset (len content) (len header) alignment = inr offset).
  { apply aligned_offset_exact; try lia. apply len_nonneg. }
  exists w4. splits; try assumption.
  - rewrite Hk4. exact Hk1.
  - rewrite Hr4. exact Hr1.
  - intros o2 b w'' HK. eexists. split.
    + rewrite st_size_src.
      eapply run_bind; [exact Hcrc|]. cbv beta.
      eapply run_bind; [apply run_lift; exact header_ok|]. cbv beta.
      eapply run_bind; [exact Hend|]. cbv beta.
      eapply run_bind; [apply run_lift; exact Halign|]. cbv beta.
      eapply run_bind; [exact Hset|]. cbv beta.
      eapply run_bind; [exact Hwrite|]. cbv beta.
      eapply run_bind; [apply run_print|]. cbv beta.
      exact HK.
    + intros e He. rewrite !in_app_iff. auto 10.
Qed.

(** The rest of the body when the kernel refuses the clone. *)
Lemma clone_or_copy_refused (fuel : nat) (w : world) (pos2 pos errno : Z)
  (dst : bytes) :
  fd_at w fd2 src_ino pos2 src -> fd_at w fd dst_ino pos dst ->
  0 <= pos < 2 ^ 64 ->
  (forall req, w_ficlonerange w fd req = Some errno) ->
  (length (w_reads w) + length src + 1 < fuel)%nat ->
  exists o w',
    run (clone_or_copy fuel fd fd2 (st_size st) pos) w o false w' /\
    In (MsgError errno) o /\
    fd_at w' fd2 src_ino (len src) src /\
    fd_at w' fd dst_ino (pos + len src) (write_at dst pos src).
Proof.
  intros Hsrc Hdst Hpos Hclone Hfuel.
  pose proof (make_file_header_size _ _ _ _ header_ok) as Hsize.
  edestruct (copy_pass fd fd2 dst_ino src_ino src) with (fuel := fuel) (w := w)
    as (o & w' & Hcopy & Hsrc' & Hdst'); try eassumption; try lia.
  eexists. exists w'. splits; try assumption.
  - unfold clone_or_copy. eapply try_except_run.
    + rewrite bind_unfold, (clone_range_refused w fd fd2 (st_size st) pos errno);
        try assumption. reflexivity.
    + eapply run_bind; [apply run_print|]. cbv beta.
      rewrite st_size_src.
      eapply run_bind; [exact Hcopy|]. cbv beta. apply run_ret.
  - cbn. auto.
Qed.

Lemma try_except_ok {A : Type} (m : M A) (h : Z -> M A) w o a w' :
  run m w o a w' -> run (try_except_OSError m h) w o a w'.
Proof. unfold run, try_except_OSError. intros ->. reflexivity. Qed.

Lemma signed64_small (v : Z) : 0 <= v < 2 ^ 63 -> signed64 v = v.
Proof. intros H. unfold signed64. destruct (Z.ltb_spec v (2 ^ 63)); lia. Qed.

(** The rest of the body when the kernel clones. *)
Lemma clone_or_copy_cloned (fuel : nat) (w : world) (pos2 pos : Z) (dst : bytes) :
  fd_at w fd2 src_ino pos2 src -> fd_at w fd dst_ino pos dst ->
  0 <= pos < 2 ^ 64 ->
  (forall req, w_ficlonerange w fd req = None) ->
  exists w',
    run (clone_or_copy fuel fd fd2 (st_size st) pos) w [] true w' /\
    fd_at w' fd2 src_ino pos2 src /\
    fd_at w' fd dst_ino pos (write_at dst pos src).
Proof.
  intros Hsrc Hdst Hpos Hclone.
  pose proof (make_file_header_size _ _ _ _ header_ok) as Hsize.
  destruct (fd_at_inode _ _ _ _ _ Hsrc) as (isrc & Hisrc & Esrc).
  destruct (fd_at_inode _ _ _ _ _ Hdst) as (idst & Hidst & Edst).
  destruct (pack_total FileCloneRange [Z.of_nat fd2; 0; st_size st; pos]) as [data Hdata].
  { repeat constructor; try (apply format_in_range_intro; [discriminate|cbn; lia]).
    unfold format_in_range. apply andb_true_intro.
    split; [apply Z.leb_le|apply Z.ltb_lt]; lia. }
  assert (Hreq : unpack_file_clone_range data
                 = {| src_fd := Z.of_nat fd2; src_offset := 0;
                      src_length := st_size st; dest_offset := pos |}).
  { unfold unpack_file_clone_range.
    rewrite (unpack_pack_nonneg _ _ _ 0 fmt_q (Z.of_nat fd2) Hdata) by (reflexivity || lia).
    rewrite (unpack_pack_nonneg _ _ _ 1 fmt_Q 0 Hdata) by (reflexivity || lia).
    rewrite (unpack_pack_nonneg _ _ _ 2 fmt_Q (st_size st) Hdata) by (reflexivity || lia).
    rewrite (unpack_pack_nonneg _ _ _ 3 fmt_Q pos Hdata) by (reflexivity || lia).
    rewrite signed64_small by lia. reflexivity. }
  assert (Hn : (if st_size st =? 0 then len (i_data isrc) - 0 else st_size st) = len src).
  { rewrite Esrc, st_size_src. destruct (Z.eqb_spec (len src) 0); lia. }
  assert (Hchunk : take (Z.to_nat (len src)) (drop (Z.to_nat 0) (i_data isrc)) = src).
  { rewrite Esrc, to_nat_len. change (Z.to_nat 0) with 0%nat. rewrite drop_0.
    apply take_ge. lia. }
  eexists. splits.
  - unfold clone_or_copy. apply try_except_ok.
    eapply (run_bind _ _ _ [] tt _ []); [|apply run_ret].
    unfold clone_range. rewrite Hdata. cbn [lift]. unfold run. rewrite bind_ret_l.
    unfold fcntl_ioctl. rewrite Z.eqb_refl. cbn [negb]. rewrite Hreq, Hclone.
    cbn [src_fd src_offset src_length dest_offset]. rewrite Nat2Z.id.
    destruct Hsrc as [Hfsrc _]. destruct Hdst as [Hfdst _]. rewrite Hfsrc, Hfdst.
    cbn [of_ino]. rewrite Hidst, Hisrc. rewrite Hn.
    pose proof (len_nonneg src).
    destruct (Z.ltb_spec (Z.of_nat fd2) 0); [lia|].
    destruct (Z.ltb_spec (len src) 0); [lia|].
    rewrite Esrc. destruct (Z.ltb_spec (len src) (0 + len src)); [lia|].
    cbn [orb]. rewrite <- Esrc at 2. rewrite Hchunk, Edst. reflexivity.
  - destruct Hsrc as [Hfsrc Hi]. split; [exact Hfsrc|].
    cbn [w_inodes set_inodes]. rewrite list_lookup_insert_ne by congruence. exact Hi.
  - destruct Hdst as [Hfdst Hi]. split; [exact Hfdst|].
    cbn [w_inodes set_inodes].
    rewrite list_lookup_insert_eq by (eapply lookup_lt_Some; exact Hidst). reflexivity.
Qed.

End Place.

Lemma S_ISREG_not_link (mode : Z) : S_ISREG mode = true -> S_ISLNK mode = false.
Proof.
  unfold S_ISREG, S_ISLNK. intros H. apply Z.eqb_eq in H. rewrite H. reflexivity.
Qed.

Lemma run_os_open (w : world) (path : pystr) (n : nat) (i : inode) :
  w_dir w path = Some n -> w_inodes w !! n = Some i ->
  S_ISREG (i_mode i) = true -> i_readable i = true ->
  run (os_open path) w [] (free_fd (w_fds w))
      (set_fds w (install_fd (w_fds w) {| of_ino := n; of_pos := 0 |})).
Proof.
  intros Hdir Hino Hreg Hread. unfold run, os_open.
  rewrite Hdir, Hino, (S_ISREG_not_link _ Hreg), Hread. reflexivity.
Qed.

Lemma run_os_close (w : world) (fd ino : nat) (pos : Z) (data : bytes) :
  fd_at w fd ino pos data ->
  run (os_close fd) w [] tt (set_fds w (<[fd := None]> (w_fds w))).
Proof. intros [Hf _]. unfold run, os_close. rewrite Hf. reflexivity. Qed.

(** One regular file, cloned or copied: the entry that is returned and
    the content of the archive afterwards. *)
Lemma execute_path_places (verdict : option Z) (fuel fd : nat) (alignment : Z)
  (path : pystr) (w : world) (src_ino dst_ino : nat) (i : inode) (pos : Z)
  (content header : bytes) :
  w_dir w path = Some src_ino -> w_inodes w !! src_ino = Some i ->
  S_ISREG (i_mode i) = true -> i_readable i = true ->
  fd_at w fd dst_ino pos content -> src_ino <> dst_ino ->
  (forall req, w_ficlonerange w fd req = verdict) ->
  make_file_header path (stat_of i) (zlib_crc32 (i_data i) 0) = inr header ->
  0 < alignment < 2 ^ 64 ->
  len content + len header + alignment - 1 < 2 ^ 53 ->
  len (w_fds w) < 2 ^ 63 ->
  (length (w_reads w) + length (i_data i) + 1 < fuel)%nat ->
  let offset := round_up_offset (len content) (len header) alignment in
  exists out w',
    run (execute_path fuel fd alignment path) w out
        (Some (path, stat_of i, zlib_crc32 (i_data i) 0, offset)) w' /\
    fd_data w' fd
    = Some (write_at (write_at content offset header) (offset + len header) (i_data i)) /\
    match verdict with
    | Some errno => In (MsgError errno) out /\ In MsgCopied out
    | None => In MsgCloned out
    end.
Proof.
  intros Hdir Hino Hreg Hread Hdst Hne Hclone Hheader Halign Hbound Hfds Hfuel offset.
  set (fd2 := free_fd (w_fds w)).
  pose proof (run_os_open w path src_ino i Hdir Hino Hreg Hread) as Hopen.
  fold fd2 in Hopen. set (w1 := set_fds w _) in Hopen.
  assert (Hfd_ne : fd <> fd2).
  { intros ->. destruct Hdst as [Hf _]. apply fd_lookup_Some in Hf.
    exact (free_fd_not_open _ _ Hf). }
  assert (Hsrc1 : fd_at w1 fd2 src_ino 0 (i_data i)).
  { split.
    - apply fd_lookup_Some. apply install_fd_lookup.
    - cbn [w_inodes w1 set_fds]. rewrite Hino. reflexivity. }
  assert (Hdst1 : fd_at w1 fd dst_ino pos content).
  { destruct Hdst as [Hf Hi]. split; [|exact Hi].
    apply fd_lookup_Some. apply install_fd_lookup_ne. apply fd_lookup_Some. exact Hf. }
  assert (Hfd2 : Z.of_nat fd2 < 2 ^ 63).
  { pose proof (free_fd_le (w_fds w)). unfold len in Hfds. lia. }
  pose proof (offset_range content header alignment ltac:(lia) Hbound) as [Hoff1 Hoff2].
  fold offset in Hoff1, Hoff2.
  pose proof (len_nonneg content) as Hc0. pose proof (len_nonneg header) as Hh0.
  edestruct (archive_file_header fd fd2 dst_ino src_ino (i_data i) content header path
               (stat_of i) alignment)
    with (K := fun (c : Z) (h : bytes) (o : Z) =>
                 cloned <- clone_or_copy fuel fd fd2 (st_size (stat_of i)) (o + len h) ;;
                 ret (c, o, cloned))
         (fuel := fuel) (w := w1) (pos2 := 0) (pos := pos)
    as (w2 & Hsrc2 & Hdst2 & Hk2 & Hr2 & Hchain); try eassumption; try reflexivity.
  fold offset in Hdst2, Hchain.
  assert (Hr2' : (length (w_reads w2) <= length (w_reads w))%nat) by exact Hr2.
  assert (Hverdict : forall req, w_ficlonerange w2 fd req = verdict).
  { intros req. rewrite Hk2. apply Hclone. }
  assert (Hplaced : exists o3 cloned w3 pos2 pos3,
            run (clone_or_copy fuel fd fd2 (st_size (stat_of i)) (offset + len header))
                w2 o3 cloned w3 /\
            fd_at w3 fd2 src_ino pos2 (i_data i) /\
            fd_at w3 fd dst_ino pos3
              (write_at (write_at content offset header) (offset + len header) (i_data i)) /\
            match verdict with
            | Some errno => In (MsgError errno) o3 /\ cloned = false
            | None => cloned = true
            end).
  { destruct verdict as [errno|].
    - edestruct (clone_or_copy_refused fd fd2 dst_ino src_ino (i_data i))
        with (st := stat_of i) (fuel := fuel) (w := w2) (pos := offset + len header)
             (errno := errno)
        as (o3 & w3 & Hrun & Hin & Hsrc3 & Hdst3);
        try eassumption; try reflexivity; try lia.
      exists o3, false, w3. eauto 10.
    - edestruct (clone_or_copy_cloned fd fd2 dst_ino src_ino (i_data i))
        with (st := stat_of i) (fuel := fuel) (w := w2) (pos := offset + len header)
        as (w3 & Hrun & Hsrc3 & Hdst3);
        try eassumption; try reflexivity; try lia.
      exists [], true, w3. eauto 10. }
  destruct Hplaced as (o3 & cloned & w3 & pos2 & pos3 & Hrun3 & Hsrc3 & Hdst3 & Hout).
  destruct (Hchain (o3 ++ []) (zlib_crc32 (i_data i) 0, offset, cloned) w3)
    as (o2 & Hbody & Hin2).
  { eapply run_bind; [exact Hrun3|]. apply run_ret. }
  pose proof (run_os_close w3 fd2 src_ino pos2 (i_data i) Hsrc3) as Hclose.
  set (w4 := set_fds w3 _) in Hclose.
  assert (Hdst4 : fd_at w4 fd dst_ino pos3
            (write_at (write_at content offset header) (offset + len header) (i_data i))).
  { eapply fd_at_frame; [reflexivity|reflexivity| |exact Hdst3]. congruence. }
  eexists. exists w4. splits.
  - unfold execute_path.
    eapply run_bind.
    { unfold run, os_lstat, resolve. rewrite Hdir, Hino. reflexivity. }
    cbv beta. cbn [st_mode stat_of]. rewrite Hreg. cbn [negb].
    eapply run_bind; [apply run_print|]. cbv beta.
    eapply run_bind; [exact Hopen|]. cbv beta.
    eapply run_bind.
    { eapply try_finally_run; [|exact Hclose]. unfold archive_file. exact Hbody. }
    cbv beta iota.
    eapply run_bind; [apply run_print|]. cbv beta.
    apply run_ret.
  - eapply fd_at_data. exact Hdst4.
  - destruct verdict as [errno|].
    + destruct Hout as [Hin ->].
      assert (In (MsgError errno) o2)
        by (apply Hin2; rewrite in_app_iff; left; exact Hin).
      split; rewrite !in_app_iff; cbn [In]; auto 10.
    + subst cloned. rewrite !in_app_iff. cbn [In]. auto 10.
Qed.

Lemma write_header_data_read_back (content header data : bytes) (offset : Z) :
  0 <= offset ->
  let archive := write_at (write_at content offset header) (offset + len header) data in
  take (length header) (drop (Z.to_nat offset) archive) = header /\
  take (length data) (drop (Z.to_nat (offset + len header)) archive) = data.
Proof.
  intros Hoff archive.
  assert (H : take (length (header ++ data)) (drop (Z.to_nat offset) archive)
              = header ++ data).
  { unfold archive. rewrite write_at_app by exact Hoff. apply write_at_read_back. }
  rewrite length_app in H. split.
  - rewrite <- (take_take_drop _ (length header) (length data)) in H.
    apply app_inj_1 in H as [H _]; [exact H|].
    rewrite length_take. apply (f_equal length) in H.
    rewrite !length_app, !length_take in H. lia.
  - replace (Z.to_nat (offset + len header)) with (Z.to_nat offset + length header)%nat
      by (unfold len; lia).
    rewrite <- drop_drop.
    rewrite <- (take_take_drop _ (length header) (length data)) in H.
    apply app_inj_2 in H as [_ H]; [exact H|].
    apply (f_equal length) in H.
    rewrite !length_app, !length_take, !length_drop in H.
    rewrite length_take, !length_drop. lia.
Qed.

(** C2: when the kernel refuses the clone request for a regular file
    other than the archive, [execute] does not fail: it prints the
    errno, copies the file through the chunked reader and returns the
    entry.  The header sits at the reported offset, the data start
    [offset + len(header)] is a multiple of the alignment, the bytes
    of the archive from there on are the bytes of the source file, and
    the archive is byte for byte the one the same call produces when
    the kernel accepts the clone. *)
Theorem clone_refused_copies (fuel fd : nat) (alignment : Z) (path : pystr) (w : world)
  (src_ino dst_ino : nat) (i : inode) (pos : Z) (content header : bytes) (errno : Z) :
  w_dir w path = Some src_ino -> w_inodes w !! src_ino = Some i ->
  S_ISREG (i_mode i) = true -> i_readable i = true ->
  fd_at w fd dst_ino pos content -> src_ino <> dst_ino ->
  (forall req, w_ficlonerange w fd req = Some errno) ->
  make_file_header path (stat_of i) (zlib_crc32 (i_data i) 0) = inr header ->
  0 < alignment < 2 ^ 64 ->
  len content + len header + alignment - 1 < 2 ^ 53 ->
  len (w_fds w) < 2 ^ 63 ->
  (length (w_reads w) + length (i_data i) + 1 < fuel)%nat ->
  exists offset out w' archive,
    run (execute_path fuel fd alignment path) w out
        (Some (path, stat_of i, zlib_crc32 (i_data i) 0, offset)) w' /\
    In (MsgError errno) out /\ In MsgCopied out /\
    (offset + len header) mod alignment = 0 /\
    fd_data w' fd = Some archive /\
    take (length header) (drop (Z.to_nat offset) archive) = header /\
    take (length (i_data i)) (drop (Z.to_nat (offset + len header)) archive) = i_data i /\
    exists out0 w0',
      run (execute_path fuel fd alignment path) (set_ficlonerange w (fun _ _ => None)) out0
          (Some (path, stat_of i, zlib_crc32 (i_data i) 0, offset)) w0' /\
      In MsgCloned out0 /\
      fd_data w0' fd = Some archive.
Proof.
  intros Hdir Hino Hreg Hread Hdst Hne Hclone Hheader Halign Hbound Hfds Hfuel.
  destruct (execute_path_places (Some errno) fuel fd alignment path w src_ino dst_ino i pos
              content header Hdir Hino Hreg Hread Hdst Hne Hclone Hheader Halign Hbound
              Hfds Hfuel) as (out & w' & Hrun & Hdata & Herr & Hcopied).
  destruct (execute_path_places None fuel fd alignment path
              (set_ficlonerange w (fun _ _ => None)) src_ino dst_ino i pos
              content header Hdir Hino Hreg Hread Hdst Hne (fun _ => eq_refl) Hheader
              Halign Hbound Hfds Hfuel) as (out0 & w0' & Hrun0 & Hdata0 & Hcloned).
  pose proof (round_up_smallest (len content) (len header) alignment ltac:(lia))
    as (Hmod & Hle & _).
  set (offset := round_up_offset (len content) (len header) alignment) in *.
  pose proof (len_nonneg content) as Hc0.
  destruct (write_header_data_read_back content header (i_data i) offset ltac:(lia))
    as [Hh Hd].
  exists offset, out, w'. eexists. splits; try eassumption.
  exists out0, w0'. splits; assumption.
Qed.

(** ** What a run can change *)

Lemma meta_same_refl (w : world) : meta_same w w.
Proof. split; reflexivity. Qed.

Lemma meta_same_trans (w1 w2 w3 : world) :
  meta_same w1 w2 -> meta_same w2 w3 -> meta_same w1 w3.
Proof. intros [A1 B1] [A2 B2]. split; congruence. Qed.

Lemma quiet_refl (w : world) : quiet w w.
Proof. split; [apply meta_same_refl|reflexivity]. Qed.

Lemma quiet_trans (w1 w2 w3 : world) : quiet w1 w2 -> quiet w2 w3 -> quiet w1 w3.
Proof.
  intros [M1 L1] [M2 L2]. split; [eapply meta_same_trans; eassumption|congruence].
Qed.

Lemma wrote_nil (fd : nat) (w w' : world) : quiet w w' -> wrote fd [] w w'.
Proof.
  intros [M L]. split; [exact M|]. split; [rewrite app_nil_r; exact L|constructor].
Qed.

Lemma wrote_trans (fd : nat) (evs1 evs2 : list write_event) (w1 w2 w3 : world) :
  wrote fd evs1 w1 w2 -> wrote fd evs2 w2 w3 -> wrote fd (evs1 ++ evs2) w1 w3.
Proof.
  intros (M1 & L1 & F1) (M2 & L2 & F2). split; [eapply meta_same_trans; eassumption|].
  split; [rewrite L2, L1, app_assoc; reflexivity|]. apply Forall_app. auto.
Qed.

Lemma quiet_wrote (fd : nat) (evs : list write_event) (w1 w2 w3 : world) :
  quiet w1 w2 -> wrote fd evs w2 w3 -> wrote fd evs w1 w3.
Proof. intros Q W. apply (wrote_trans fd [] evs w1 w2 w3); [apply wrote_nil, Q|exact W]. Qed.

Lemma wrote_quiet (fd : nat) (evs : list write_event) (w1 w2 w3 : world) :
  wrote fd evs w1 w2 -> quiet w2 w3 -> wrote fd evs w1 w3.
Proof.
  intros W Q. rewrite <- (app_nil_r evs).
  apply (wrote_trans fd evs [] w1 w2 w3); [exact W|apply wrote_nil, Q].
Qed.

Lemma is_regular_meta_same (w w' : world) (path : pystr) :
  meta_same w w' -> is_regular w' path = is_regular w path.
Proof.
  intros [Hdir Hmode]. unfold is_regular, resolve. rewrite Hdir.
  destruct (w_dir w path) as [n|]; [|reflexivity].
  assert (H : i_mode <$> (w_inodes w' !! n) = i_mode <$> (w_inodes w !! n)).
  { rewrite <- !list_lookup_fmap, Hmode. reflexivity. }
  destruct (w_inodes w' !! n), (w_inodes w !! n); cbn in H; congruence.
Qed.

Lemma fmap_mode_insert (inodes : list inode) (n : nat) (i : inode) (data : bytes) :
  inodes !! n = Some i ->
  i_mode <$> <[n := set_data i data]> inodes = i_mode <$> inodes.
Proof.
  intros H. rewrite list_fmap_insert. apply list_insert_id.
  rewrite list_lookup_fmap, H. reflexivity.
Qed.

(** The system calls. *)

Lemma os_lstat_inv (path : pystr) w o st w' :
  run (os_lstat path) w o st w' ->
  o = [] /\ w' = w /\ exists i, resolve w path = Some i /\ st = stat_of i.
Proof.
  unfold run, os_lstat. destruct (resolve w path) as [i|]; [|discriminate].
  intros [= <- <- <-]. eauto.
Qed.

Lemma os_open_quiet (path : pystr) w o fd w' : run (os_open path) w o fd w' -> quiet w w'.
Proof.
  unfold run, os_open.
  destruct (w_dir w path) as [n|]; [|discriminate].
  destruct (w_inodes w !! n) as [i|]; [|discriminate].
  destruct (S_ISLNK (i_mode i)); [discriminate|].
  destruct (negb (i_readable i)); [discriminate|].
  intros [= <- <- <-]. split; [split|]; reflexivity.
Qed.

Lemma os_close_quiet (fd : nat) w o u w' : run (os_close fd) w o u w' -> quiet w w'.
Proof.
  unfold run, os_close. destruct (fd_lookup w fd); [|discriminate].
  intros [= <- <- <-]. split; [split|]; reflexivity.
Qed.

Lemma os_lseek_quiet (fd : nat) (pos : Z) (how : whence) w o r w' :
  run (os_lseek fd pos how) w o r w' -> quiet w w'.
Proof.
  unfold run, os_lseek. destruct (fd_lookup w fd) as [f|]; [|discriminate].
  destruct (w_inodes w !! of_ino f); [|discriminate].
  match goal with |- context [if ?c then _ else _] => destruct c end; [discriminate|].
  intros [= <- <- <-]. split; [split|]; reflexivity.
Qed.

Lemma os_read_quiet (fd : nat) (n : Z) w o r w' : run (os_read fd n) w o r w' -> quiet w w'.
Proof.
  unfold run, os_read. destruct (fd_lookup w fd) as [f|]; [|discriminate].
  destruct (w_inodes w !! of_ino f); [|discriminate].
  destruct (n <? 0); [discriminate|].
  intros [= <- <- <-]. split; [split|]; reflexivity.
Qed.

Lemma os_write_wrote (fd : nat) (data : bytes) w o n w' :
  run (os_write fd data) w o n w' ->
  o = [] /\ exists pos, wrote fd [(fd, pos, data)] w w'.
Proof.
  unfold run, os_write. destruct (fd_lookup w fd) as [f|]; [|discriminate].
  destruct (w_inodes w !! of_ino f) as [i|] eqn:Hi; [|discriminate].
  intros [= <- <- <-]. split; [reflexivity|]. exists (of_pos f).
  split; [|split; [reflexivity|repeat constructor]].
  split; [reflexivity|]. cbn [w_inodes set_writes set_fds set_inodes].
  apply fmap_mode_insert, Hi.
Qed.

Lemma fcntl_ioctl_quiet (fd : nat) (request : Z) (data : bytes) w o u w' :
  run (fcntl_ioctl fd request data) w o u w' -> quiet w w'.
Proof.
  unfold run, fcntl_ioctl.
  destruct (negb (request =? FICLONERANGE)); [discriminate|].
  destruct (w_ficlonerange w fd _); [discriminate|].
  destruct (fd_lookup w fd) as [fdst|]; [|discriminate].
  destruct (fd_lookup w _) as [fsrc|]; [|discriminate].
  destruct (w_inodes w !! of_ino fdst) as [idst|] eqn:Hdst; [|discriminate].
  destruct (w_inodes w !! of_ino fsrc) as [isrc|]; [|discriminate].
  match goal with |- context [if ?c then _ else _] => destruct c end; [discriminate|].
  intros [= <- <- <-]. split; [|reflexivity]. split; [reflexivity|].
  cbn [w_inodes set_inodes]. apply fmap_mode_insert, Hdst.
Qed.

Lemma fcntl_ioctl_raise (fd : nat) (request : Z) (data : bytes) w o e w' :
  fcntl_ioctl fd request data w = (o, Raise e w') -> w' = w.
Proof.
  unfold fcntl_ioctl.
  destruct (negb (request =? FICLONERANGE)); [intros [= _ _ <-]; reflexivity|].
  destruct (w_ficlonerange w fd _); [intros [= _ _ <-]; reflexivity|].
  destruct (fd_lookup w fd) as [fdst|]; [|intros [= _ _ <-]; reflexivity].
  destruct (fd_lookup w _) as [fsrc|]; [|intros [= _ _ <-]; reflexivity].
  destruct (w_inodes w !! of_ino fdst) as [idst|]; [|intros [= _ _ <-]; reflexivity].
  destruct (w_inodes w !! of_ino fsrc) as [isrc|]; [|intros [= _ _ <-]; reflexivity].
  match goal with |- context [if ?c then _ else _] => destruct c end;
    [intros [= _ _ <-]; reflexivity|discriminate].
Qed.

Lemma os_lseek_set_inv (fd : nat) (pos : Z) w o r w' :
  run (os_lseek fd pos SEEK_SET) w o r w' ->
  r = pos /\ quiet w w' /\ exists f, fd_lookup w' fd = Some f /\ of_pos f = pos.
Proof.
  intros H. pose proof (os_lseek_quiet _ _ _ _ _ _ _ H) as Q. revert H.
  unfold run, os_lseek. destruct (fd_lookup w fd) as [f|] eqn:Hf; [|discriminate].
  destruct (w_inodes w !! of_ino f); [|discriminate].
  destruct (pos <? 0); [discriminate|].
  intros [= <- <- <-]. split; [reflexivity|]. split; [exact Q|].
  exists (set_pos f pos). split; [|reflexivity].
  eapply fd_lookup_eq; [reflexivity|exact Hf].
Qed.

Lemma os_write_at (fd : nat) (data : bytes) w o n w' :
  run (os_write fd data) w o n w' ->
  exists f, fd_lookup w fd = Some f /\ wrote fd [(fd, of_pos f, data)] w w'.
Proof.
  unfold run, os_write. destruct (fd_lookup w fd) as [f|]; [|discriminate].
  destruct (w_inodes w !! of_ino f) as [i|] eqn:Hi; [|discriminate].
  intros [= <- <- <-]. exists f. split; [reflexivity|].
  split; [|split; [reflexivity|repeat constructor]].
  split; [reflexivity|]. cbn [w_inodes set_writes set_fds set_inodes].
  apply fmap_mode_insert, Hi.
Qed.

(** Loops. *)

Lemma for_each_quiet {Acc : Type} (g : generator) (body : bytes -> Acc -> M Acc) :
  (forall s w o r w', run (gen_next g s) w o r w' -> quiet w w') ->
  (forall d a w o a' w', run (body d a) w o a' w' -> quiet w w') ->
  forall fuel s a w o a' w',
    run (for_each fuel g s body a) w o a' w' -> quiet w w'.
Proof.
  intros Hnext Hbody. induction fuel as [|fuel IH]; intros s a w o a' w' H;
    [discriminate|].
  cbn [for_each] in H. apply run_bind_inv in H as (o1 & r & w1 & o2 & Hr & H & _).
  apply Hnext in Hr. destruct r as [d s1|s1|].
  - apply run_bind_inv in H as (o3 & a1 & w2 & o4 & Hb & H & _).
    apply Hbody in Hb. apply IH in H.
    eapply quiet_trans; [exact Hr|]. eapply quiet_trans; eassumption.
  - apply IH in H. eapply quiet_trans; eassumption.
  - apply run_ret_inv in H as (_ & _ & ->). exact Hr.
Qed.

Lemma for_each_wrote {Acc : Type} (fd : nat) (g : generator)
  (body : bytes -> Acc -> M Acc) :
  (forall s w o r w', run (gen_next g s) w o r w' -> quiet w w') ->
  (forall d a w o a' w', run (body d a) w o a' w' -> exists evs, wrote fd evs w w') ->
  forall fuel s a w o a' w',
    run (for_each fuel g s body a) w o a' w' -> exists evs, wrote fd evs w w'.
Proof.
  intros Hnext Hbody. induction fuel as [|fuel IH]; intros s a w o a' w' H;
    [discriminate|].
  cbn [for_each] in H. apply run_bind_inv in H as (o1 & r & w1 & o2 & Hr & H & _).
  apply Hnext in Hr. destruct r as [d s1|s1|].
  - apply run_bind_inv in H as (o3 & a1 & w2 & o4 & Hb & H & _).
    apply Hbody in Hb as [evs1 Hb]. apply IH in H as [evs2 H].
    exists (evs1 ++ evs2). eapply quiet_wrote; [exact Hr|].
    eapply wrote_trans; eassumption.
  - apply IH in H as [evs H]. exists evs. eapply quiet_wrote; eassumption.
  - apply run_ret_inv in H as (_ & _ & ->). exists []. apply wrote_nil, Hr.
Qed.

Lemma chunk_iterator_next_quiet (fd : nat) (position length chunk_size : Z) s w o r w' :
  run (gen_next (chunk_iterator fd position length chunk_size) s) w o r w' -> quiet w w'.
Proof.
  cbn [gen_next chunk_iterator]. destruct s as [|remaining]; cbn [chunk_iterator_next].
  - intros H. apply run_bind_inv in H as (o1 & r1 & w1 & o2 & Hs & H & _).
    apply os_lseek_quiet in Hs. apply run_ret_inv in H as (_ & _ & ->). exact Hs.
  - destruct (remaining =? 0).
    + intros H. apply run_ret_inv in H as (_ & _ & ->). apply quiet_refl.
    + intros H. apply run_bind_inv in H as (o1 & d & w1 & o2 & Hs & H & _).
      apply os_read_quiet in Hs.
      destruct d; apply run_ret_inv in H as (_ & _ & ->); exact Hs.
Qed.

Lemma progress_next_quiet (it : generator) (each : Z) :
  (forall s w o r w', run (gen_next it s) w o r w' -> quiet w w') ->
  forall s w o r w', run (gen_next (progress it each) s) w o r w' -> quiet w w'.
Proof.
  intros Hit [[s0 position] written_at] w o r w'.
  cbn [gen_next progress progress_next]. intros H.
  apply run_bind_inv in H as (o1 & r1 & w1 & o2 & Hs & H & _).
  apply Hit in Hs. destruct r1 as [d s1|s1|].
  - destruct (each <=? position + len d - written_at).
    + apply run_bind_inv in H as (o3 & u & w2 & o4 & Hp & H & _).
      apply run_print_inv in Hp as [_ ->].
      apply run_ret_inv in H as (_ & _ & ->). exact Hs.
    + apply run_ret_inv in H as (_ & _ & ->). exact Hs.
  - apply run_ret_inv in H as (_ & _ & ->). exact Hs.
  - apply run_ret_inv in H as (_ & _ & ->). exact Hs.
Qed.

Lemma compute_crc32_quiet (fuel fd : nat) (position length : Z) w o crc w' :
  run (compute_crc32 fuel
         (progress (chunk_iterator fd position length default_chunk_size) default_each))
      w o crc w' ->
  quiet w w'.
Proof.
  unfold compute_crc32. apply for_each_quiet.
  - apply progress_next_quiet. apply chunk_iterator_next_quiet.
  - intros d a w0 o0 a' w0' H. apply run_ret_inv in H as (_ & _ & ->). apply quiet_refl.
Qed.

Lemma write_all_wrote (fuel fd fd2 : nat) (position length : Z) w o u w' :
  run (write_all fuel fd
         (progress (chunk_iterator fd2 position length default_chunk_size) default_each))
      w o u w' ->
  exists evs, wrote fd evs w w'.
Proof.
  unfold write_all. apply for_each_wrote.
  - apply progress_next_quiet. apply chunk_iterator_next_quiet.
  - intros d a w0 o0 a' w0' H.
    apply run_bind_inv in H as (o1 & n & w1 & o2 & Hw & H & _).
    apply os_write_at in Hw as (f & _ & Hw).
    apply run_ret_inv in H as (_ & _ & ->). eauto.
Qed.

(** Exceptions. *)

Lemma try_except_inv {A : Type} (m : M A) (h : Z -> M A) w o a w' :
  run (try_except_OSError m h) w o a w' ->
  run m w o a w' \/
  exists o1 errno w1 o2,
    m w = (o1, Raise (OSError errno) w1) /\ run (h errno) w1 o2 a w'.
Proof.
  unfold run, try_except_OSError. destruct (m w) as [o1 [a1 w1|e w1|]].
  - auto.
  - destruct e; try discriminate.
    destruct (h errno w1) as [o2 r] eqn:E. intros [= <- ->]. right.
    exists o1, errno, w1, o2. auto.
  - discriminate.
Qed.

Lemma try_finally_inv {A : Type} (m : M A) (c : M unit) w o a w' :
  run (try_finally m c) w o a w' ->
  exists o1 w1 o2 u, run m w o1 a w1 /\ run c w1 o2 u w'.
Proof.
  unfold run, try_finally. destruct (m w) as [o1 [a1 w1|e w1|]].
  - destruct (c w1) as [o2 [u w2|e w2|]] eqn:E; try discriminate.
    intros [= <- <- <-]. exists o1, w1, o2, u. auto.
  - destruct (c w1) as [o2 [u w2|e2 w2|]]; discriminate.
  - discriminate.
Qed.

Lemma clone_range_quiet (src_fd : nat) (src_offset src_length : Z) (dst_fd : nat)
  (dst_offset : Z) w o u w' :
  run (clone_range src_fd src_offset src_length dst_fd dst_offset) w o u w' ->
  quiet w w'.
Proof.
  unfold clone_range. intros H.
  apply run_bind_inv in H as (o1 & data & w1 & o2 & Hp & H & _).
  apply run_lift_inv in Hp as (_ & _ & ->).
  eapply fcntl_ioctl_quiet. exact H.
Qed.

Lemma clone_range_raise (src_fd : nat) (src_offset src_length : Z) (dst_fd : nat)
  (dst_offset : Z) w o e w' :
  clone_range src_fd src_offset src_length dst_fd dst_offset w = (o, Raise e w') ->
  w' = w.
Proof.
  unfold clone_range. rewrite bind_unfold.
  destruct (pack FileCloneRange _) as [e0|data]; cbn [lift raise ret].
  - intros [= _ _ <-]. reflexivity.
  - destruct (fcntl_ioctl dst_fd FICLONERANGE data w) as [o2 [u w2|e2 w2|]] eqn:E;
      cbn [fst snd]; try discriminate.
    intros [= _ _ <-]. eapply fcntl_ioctl_raise. exact E.
Qed.

Lemma clone_or_copy_wrote (fuel fd fd2 : nat) (size data_offset : Z) w o cloned w' :
  run (clone_or_copy fuel fd fd2 size data_offset) w o cloned w' ->
  exists evs, wrote fd evs w w'.
Proof.
  unfold clone_or_copy. intros H.
  apply try_except_inv in H as [H|(o1 & errno & w1 & o2 & Hm & H)].
  - apply run_bind_inv in H as (o1 & u & w1 & o2 & Hc & H & _).
    apply clone_range_quiet in Hc. apply run_ret_inv in H as (_ & _ & ->).
    exists []. apply wrote_nil, Hc.
  - rewrite bind_unfold in Hm.
    destruct (clone_range fd2 0 size fd data_offset w) as [o3 [u w3|e w3|]] eqn:E;
      cbn [fst snd ret] in Hm; try discriminate.
    injection Hm as _ _ <-. apply clone_range_raise in E as ->.
    apply run_bind_inv in H as (o4 & u & w4 & o5 & Hp & H & _).
    apply run_print_inv in Hp as [_ ->].
    apply run_bind_inv in H as (o6 & u' & w6 & o7 & Hw & H & _).
    apply write_all_wrote in Hw as [evs Hw].
    apply run_ret_inv in H as (_ & _ & ->). eauto.
Qed.

(** ** The writes of a run of [execute] *)

Lemma archive_file_wrote (fuel fd : nat) (alignment : Z) (path : pystr)
  (st : stat_result) (fd2 : nat) w o crc offset cloned w' :
  run (archive_file fuel fd alignment path st fd2) w o (crc, offset, cloned) w' ->
  exists header data_writes,
    make_file_header path st crc = inr header /\
    wrote fd ((fd, offset, header) :: data_writes) w w'.
Proof.
  unfold archive_file. intros H.
  apply run_bind_inv in H as (o1 & crc1 & w1 & o2 & Hcrc & H & _).
  apply compute_crc32_quiet in Hcrc.
  apply run_bind_inv in H as (o3 & header & w2 & o4 & Hh & H & _).
  apply run_lift_inv in Hh as (Hheader & _ & ->).
  apply run_bind_inv in H as (o5 & eof & w3 & o6 & Hend & H & _).
  apply os_lseek_quiet in Hend.
  apply run_bind_inv in H as (o7 & off & w4 & o8 & Ha & H & _).
  apply run_lift_inv in Ha as (_ & _ & ->).
  apply run_bind_inv in H as (o9 & r & w5 & o10 & Hset & H & _).
  apply os_lseek_set_inv in Hset as (_ & Hset & f & Hf & Hpos).
  apply run_bind_inv in H as (o11 & n & w6 & o12 & Hw & H & _).
  apply os_write_at in Hw as (f' & Hf' & Hw).
  assert (f' = f) by congruence. subst f'. rewrite Hpos in Hw.
  apply run_bind_inv in H as (o13 & u & w7 & o14 & Hp & H & _).
  apply run_print_inv in Hp as [_ ->].
  apply run_bind_inv in H as (o15 & cl & w8 & o16 & Hc & H & _).
  apply clone_or_copy_wrote in Hc as [evs Hc].
  apply run_ret_inv in H as (_ & [= <- <- <-] & ->).
  exists header, evs. split; [exact Hheader|].
  eapply quiet_wrote; [exact Hcrc|]. eapply quiet_wrote; [exact Hend|].
  eapply quiet_wrote; [exact Hset|].
  exact (wrote_trans fd [(fd, offset, header)] evs _ _ _ Hw Hc).
Qed.

Lemma execute_path_inv (fuel fd : nat) (alignment : Z) (path : pystr) w o r w' :
  run (execute_path fuel fd alignment path) w o r w' ->
  (r = None /\ is_regular w path = false /\ w' = w /\ o = []) \/
  (exists st crc offset header data_writes,
     r = Some (path, st, crc, offset) /\ is_regular w path = true /\
     make_file_header path st crc = inr header /\
     wrote fd ((fd, offset, header) :: data_writes) w w').
Proof.
  unfold execute_path. intros H.
  apply run_bind_inv in H as (o1 & st & w1 & o2 & Hst & H & Ho).
  apply os_lstat_inv in Hst as (-> & -> & i & Hres & ->).
  assert (Hreg : is_regular w path = S_ISREG (i_mode i))
    by (unfold is_regular; rewrite Hres; reflexivity).
  cbn [st_mode stat_of] in H. rewrite Hreg.
  destruct (S_ISREG (i_mode i)); cbn [negb] in H.
  - right.
    apply run_bind_inv in H as (o3 & u & w2 & o4 & Hp & H & _).
    apply run_print_inv in Hp as [_ ->].
    apply run_bind_inv in H as (o5 & fd2 & w3 & o6 & Hopen & H & _).
    apply os_open_quiet in Hopen.
    apply run_bind_inv in H as (o7 & [[crc offset] cloned] & w4 & o8 & Htry & H & _).
    apply try_finally_inv in Htry as (o9 & w5 & o10 & u' & Hbody & Hclose).
    apply archive_file_wrote in Hbody as (header & dw & Hheader & Hbody).
    apply os_close_quiet in Hclose.
    apply run_bind_inv in H as (o11 & u'' & w6 & o12 & Hp & H & _).
    apply run_print_inv in Hp as [_ ->].
    apply run_ret_inv in H as (_ & -> & ->).
    exists (stat_of i), crc, offset, header, dw. splits; try reflexivity; try assumption.
    eapply quiet_wrote; [exact Hopen|]. eapply wrote_quiet; eassumption.
  - left. apply run_ret_inv in H as (-> & -> & ->). subst o. auto.
Qed.

Lemma execute_paths_inv (fuel fd : nat) (alignment : Z) (paths : list pystr) :
  forall datas0 w o datas w',
    run (execute_paths fuel fd alignment paths datas0) w o datas w' ->
    exists new evs,
      datas = datas0 ++ new /\
      map entry_path new = List.filter (is_regular w) paths /\
      entries_written fd new evs /\ wrote fd evs w w'.
Proof.
  induction paths as [|path paths IH]; intros datas0 w o datas w' H.
  - apply run_ret_inv in H as (_ & -> & ->). exists [], [].
    rewrite app_nil_r. splits; try reflexivity; [constructor|apply wrote_nil, quiet_refl].
  - cbn [execute_paths] in H.
    apply run_bind_inv in H as (o1 & r & w1 & o2 & Hp & H & _).
    apply execute_path_inv in Hp
      as [(-> & Hreg & -> & _)|(st & crc & off & header & dw & -> & Hreg & Hh & Hw)].
    + apply IH in H as (new & evs & -> & Hmap & Hew & Hw).
      exists new, evs. cbn [List.filter]. rewrite Hreg. auto.
    + apply IH in H as (new & evs & -> & Hmap & Hew & Hw').
      exists ((path, st, crc, off) :: new), ((fd, off, header) :: dw ++ evs).
      splits.
      * rewrite <- app_assoc. reflexivity.
      * cbn [List.filter map]. rewrite Hreg. f_equal.
        rewrite Hmap. apply List.filter_ext. intros p.
        apply is_regular_meta_same, Hw.
      * apply (entries_written_cons fd (path, st, crc, off)); try assumption.
        destruct Hw as (_ & _ & HF). inversion HF. assumption.
      * exact (wrote_trans fd ((fd, off, header) :: dw) evs _ _ _ Hw Hw').
Qed.

Lemma write_central_headers_inv (fd : nat) (datas : list entry) :
  forall w o u w',
    run (write_central_headers fd datas) w o u w' ->
    exists evs, central_written fd datas evs /\ wrote fd evs w w'.
Proof.
  induction datas as [|[[[path st] crc] offset] datas IH]; intros w o u w' H.
  - apply run_ret_inv in H as (_ & _ & ->). exists [].
    split; [constructor|apply wrote_nil, quiet_refl].
  - cbn [write_central_headers] in H.
    apply run_bind_inv in H as (o1 & header & w1 & o2 & Hh & H & _).
    apply run_lift_inv in Hh as (Hheader & _ & ->).
    apply run_bind_inv in H as (o3 & n & w2 & o4 & Hw & H & _).
    apply os_write_at in Hw as (f & _ & Hw).
    apply IH in H as (evs & Hcw & Hw').
    exists ((fd, of_pos f, header) :: evs). split.
    + apply (central_written_cons fd (path, st, crc, offset)); assumption.
    + exact (wrote_trans fd [(fd, of_pos f, header)] evs _ _ _ Hw Hw').
Qed.

(** The whole run: the entries, then the central directory, then the
    three records of the trailer. *)
Lemma execute_structure (fuel fd : nat) (paths : list pystr) (alignment : Z) w o w' :
  run (execute fuel fd paths alignment) w o tt w' ->
  exists datas local_events central_events central_start central_end
         eocd64 locator eocd p1 p2 p3,
    map entry_path datas = List.filter (is_regular w) paths /\
    entries_written fd datas local_events /\
    central_written fd datas central_events /\
    zip64_end_of_central_directory (len datas) central_start central_end = inr eocd64 /\
    zip64_locator central_end = inr locator /\
    end_of_central_directory = inr eocd /\
    w_writes w' = w_writes w ++ local_events ++ central_events
                    ++ [(fd, p1, eocd64); (fd, p2, locator); (fd, p3, eocd)].
Proof.
  unfold execute. intros H.
  apply run_bind_inv in H as (o1 & u & w1 & o2 & Hp & H & _).
  apply run_print_inv in Hp as [_ ->].
  apply run_bind_inv in H as (o3 & datas & w2 & o4 & Hpaths & H & _).
  apply execute_paths_inv in Hpaths as (new & levs & Hd & Hmap & Hew & Hlw).
  cbn [app] in Hd. subst new.
  apply run_bind_inv in H as (o5 & cs & w3 & o6 & Hend & H & _).
  apply os_lseek_quiet in Hend.
  apply run_bind_inv in H as (o7 & u' & w4 & o8 & Hcen & H & _).
  apply write_central_headers_inv in Hcen as (cevs & Hcw & Hcwr).
  apply run_bind_inv in H as (o9 & ce & w5 & o10 & Hcur & H & _).
  apply os_lseek_quiet in Hcur.
  apply run_bind_inv in H as (o11 & eocd64 & w6 & o12 & Hr1 & H & _).
  apply run_lift_inv in Hr1 as (Hr1 & _ & ->).
  apply run_bind_inv in H as (o13 & n1 & w7 & o14 & Hw1 & H & _).
  apply os_write_at in Hw1 as (f1 & _ & Hw1).
  apply run_bind_inv in H as (o15 & locator & w8 & o16 & Hr2 & H & _).
  apply run_lift_inv in Hr2 as (Hr2 & _ & ->).
  apply run_bind_inv in H as (o17 & n2 & w9 & o18 & Hw2 & H & _).
  apply os_write_at in Hw2 as (f2 & _ & Hw2).
  apply run_bind_inv in H as (o19 & eocd & w10 & o20 & Hr3 & H & _).
  apply run_lift_inv in Hr3 as (Hr3 & _ & ->).
  apply run_bind_inv in H as (o21 & n3 & w11 & o22 & Hw3 & H & _).
  apply os_write_at in Hw3 as (f3 & _ & Hw3).
  apply run_ret_inv in H as (_ & _ & ->).
  exists datas, levs, cevs, cs, ce, eocd64, locator, eocd, (of_pos f1), (of_pos f2),
         (of_pos f3).
  splits; try assumption.
  pose proof (wrote_trans _ _ _ _ _ _ Hlw (quiet_wrote _ _ _ _ _ Hend Hcwr)) as W1.
  pose proof (wrote_trans _ _ _ _ _ _ W1 (quiet_wrote _ _ _ _ _ Hcur Hw1)) as W2.
  pose proof (wrote_trans _ _ _ _ _ _ W2 Hw2) as W3.
  pose proof (wrote_trans _ _ _ _ _ _ W3 Hw3) as (_ & W4 & _).
  rewrite W4. rewrite <- !app_assoc. reflexivity.
Qed.

(** C5: in a completed run the entries collected are the regular
    files among the paths, in the order of the paths; the writes to
    the archive are, entry by entry in that order, the local header at
    the offset of the entry and then its data, after them the central
    headers, one write each, of the same entries in the same order,
    and last the three records of the trailer. *)
Theorem execute_keeps_order (fuel fd : nat) (paths : list pystr) (alignment : Z)
  (w : world) (o : list out_event) (w' : world) :
  run (execute fuel fd paths alignment) w o tt w' ->
  exists datas local_events central_events trailer,
    map entry_path datas = List.filter (is_regular w) paths /\
    entries_written fd datas local_events /\
    central_written fd datas central_events /\
    length trailer = 3%nat /\
    w_writes w' = w_writes w ++ local_events ++ central_events ++ trailer.
Proof.
  intros H.
  apply execute_structure in H
    as (datas & levs & cevs & cs & ce & eocd64 & locator & eocd & p1 & p2 & p3
        & Hmap & Hew & Hcw & _ & _ & _ & Hlog).
  exists datas, levs, cevs, [(fd, p1, eocd64); (fd, p2, locator); (fd, p3, eocd)].
  splits; try assumption. reflexivity.
Qed.

Lemma write_at_end (content data : bytes) :
  write_at content (len content) data = content ++ data.
Proof.
  destruct data as [|b data]; [rewrite app_nil_r; reflexivity|].
  rewrite write_at_cons, to_nat_len, firstn_all, Nat.sub_diag.
  rewrite drop_ge by lia. cbn [replicate]. rewrite !app_nil_r. reflexivity.
Qed.

Lemma central_written_length (fd : nat) (datas : list entry) (evs : list write_event) :
  central_written fd datas evs -> length evs = length datas.
Proof. induction 1; cbn; congruence. Qed.

(** C4: a path that [lstat] finds not to be a regular file is skipped,
    without an error, an entry or a change; in a completed run both
    entry counts of the ZIP64 end-of-central-directory record are the
    number of regular files among the paths, which is also the number
    of central headers written; and for an empty list of paths the run
    completes and appends only the trailer, with both counts and the
    size of the central directory 0. *)
Theorem execute_counts_regular_files (fuel fd : nat) (alignment : Z) :
  (forall path w i,
     resolve w path = Some i -> S_ISREG (i_mode i) = false ->
     execute_path fuel fd alignment path w = ([], Ok None w)) /\
  (forall paths w o w',
     run (execute fuel fd paths alignment) w o tt w' ->
     exists before central_events eocd64 locator eocd p1 p2 p3,
       w_writes w' = before ++ central_events
                       ++ [(fd, p1, eocd64); (fd, p2, locator); (fd, p3, eocd)] /\
       length central_events = length (List.filter (is_regular w) paths) /\
       unpack_field Zip64EndOfCentralDirectoryRecord 6 eocd64
       = len (List.filter (is_regular w) paths) /\
       unpack_field Zip64EndOfCentralDirectoryRecord 7 eocd64
       = len (List.filter (is_regular w) paths)) /\
  (forall w ino pos content,
     fd_at w fd ino pos content -> len content < 2 ^ 64 ->
     exists o w' eocd64 locator eocd,
       run (execute fuel fd [] alignment) w o tt w' /\
       fd_data w' fd = Some (content ++ eocd64 ++ locator ++ eocd) /\
       unpack_field Zip64EndOfCentralDirectoryRecord 6 eocd64 = 0 /\
       unpack_field Zip64EndOfCentralDirectoryRecord 7 eocd64 = 0 /\
       unpack_field Zip64EndOfCentralDirectoryRecord 8 eocd64 = 0 /\
       unpack_field Zip64EndOfCentralDirectoryRecord 9 eocd64 = len content).
Proof.
  splits.
  - intros path w i Hres Hreg. unfold execute_path, os_lstat.
    rewrite bind_unfold, Hres. cbn [fst snd st_mode stat_of]. rewrite Hreg. reflexivity.
  - intros paths w o w' H.
    apply execute_structure in H
      as (datas & levs & cevs & cs & ce & eocd64 & locator & eocd & p1 & p2 & p3
          & Hmap & Hew & Hcw & Hr1 & _ & _ & Hlog).
    assert (Hlen : length datas = length (List.filter (is_regular w) paths)).
    { rewrite <- Hmap, length_map. reflexivity. }
    exists (w_writes w ++ levs), cevs, eocd64, locator, eocd, p1, p2, p3.
    unfold zip64_end_of_central_directory in Hr1.
    splits.
    + rewrite Hlog, <- !app_assoc. reflexivity.
    + transitivity (length datas); [exact (central_written_length _ _ _ Hcw)|exact Hlen].
    + rewrite (unpack_pack_nil _ _ _ 6 fmt_Q (len datas) Hr1)
        by (reflexivity || discriminate).
      unfold len. rewrite Hlen. reflexivity.
    + rewrite (unpack_pack_nil _ _ _ 7 fmt_Q (len datas) Hr1)
        by (reflexivity || discriminate).
      unfold len. rewrite Hlen. reflexivity.
  - intros w ino pos content Hfd Hlen.
    pose proof (len_nonneg content) as Hc0.
    pose proof (run_os_lseek_end w fd ino pos content Hfd) as Hend.
    set (w1 := set_fds w _) in Hend.
    assert (Hfd1 : fd_at w1 fd ino (len content) content).
    { destruct Hfd as [Hf Hi]. split; [|exact Hi].
      eapply fd_lookup_eq; [reflexivity|exact Hf]. }
    pose proof (run_os_lseek_cur w1 fd ino (len content) content Hfd1 Hc0) as Hcur.
    set (w2 := set_fds w1 _) in Hcur.
    assert (Hfd2 : fd_at w2 fd ino (len content) content).
    { destruct Hfd1 as [Hf Hi]. split; [|exact Hi].
      eapply fd_lookup_eq; [reflexivity|exact Hf]. }
    destruct (pack_total Zip64EndOfCentralDirectoryRecord
                [0x06064b50; 44; 45; 45; 0; 0; len (@nil entry); len (@nil entry);
                 len content - len content; len content]) as [eocd64 Hr1].
    { rewrite Z.sub_diag.
      repeat constructor; apply format_in_range_intro; try discriminate; cbn; lia. }
    destruct (pack_total Zip64EndOfCentralDirectoryLocator
                [0x07064b50; 0; len content; 1]) as [locator Hr2].
    { repeat constructor; apply format_in_range_intro; try discriminate; cbn; lia. }
    assert (Hr3 : exists eocd, end_of_central_directory = inr eocd)
      by (eexists; reflexivity).
    destruct Hr3 as [eocd Hr3].
    destruct (run_os_write w2 fd ino (len content) content eocd64 Hfd2)
      as (w3 & Hw1 & Hfd3 & _).
    destruct (run_os_write w3 fd ino _ _ locator Hfd3) as (w4 & Hw2 & Hfd4 & _).
    destruct (run_os_write w4 fd ino _ _ eocd Hfd4) as (w5 & Hw3 & Hfd5 & _).
    eexists. exists w5, eocd64, locator, eocd. splits.
    + unfold execute.
      eapply run_bind; [apply run_print|]. cbv beta.
      eapply run_bind; [apply run_ret|]. cbv beta.
      eapply run_bind; [exact Hend|]. cbv beta.
      eapply run_bind; [apply run_ret|]. cbv beta.
      eapply run_bind; [exact Hcur|]. cbv beta.
      eapply run_bind; [apply run_lift; exact Hr1|]. cbv beta.
      eapply run_bind; [exact Hw1|]. cbv beta.
      eapply run_bind; [apply run_lift; exact Hr2|]. cbv beta.
      eapply run_bind; [exact Hw2|]. cbv beta.
      eapply run_bind; [apply run_lift; exact Hr3|]. cbv beta.
      eapply run_bind; [exact Hw3|]. cbv beta.
      apply run_ret.
    + rewrite (fd_at_data _ _ _ _ _ Hfd5). f_equal.
      rewrite write_at_end.
      rewrite <- len_app, write_at_end, <- len_app, write_at_end.
      rewrite <- !app_assoc. reflexivity.
    + rewrite (unpack_pack_nil _ _ _ 6 fmt_Q _ Hr1) by (reflexivity || discriminate).
      reflexivity.
    + rewrite (unpack_pack_nil _ _ _ 7 fmt_Q _ Hr1) by (reflexivity || discriminate).
      reflexivity.
    + rewrite (unpack_pack_nil _ _ _ 8 fmt_Q _ Hr1) by (reflexivity || discriminate).
      apply Z.sub_diag.
    + rewrite (unpack_pack_nil _ _ _ 9 fmt_Q _ Hr1) by (reflexivity || discriminate).
      reflexivity.
Qed.

(** * Further properties of the program *)

(** ** What the header builders refuse *)

Lemma pack_inl (fs : list format) (vs : list Z) (e : exn) :
  pack fs vs = inl e -> e = StructError.
Proof.
  revert vs. induction fs as [|f fs IH]; intros [|v vs] H; cbn in H;
    try (injection H as <-; reflexivity); try discriminate.
  unfold pack_field in H. destruct (format_in_range f v); cbn in H.
  - destruct (pack fs vs) as [e'|bs] eqn:E; cbn in H; [|discriminate].
    injection H as <-. apply (IH vs). exact E.
  - injection H as <-. reflexivity.
Qed.

Lemma pack_out_of_range (fs : list format) (vs : list Z) (i : nat) (f : format) (v : Z) :
  fs !! i = Some f -> vs !! i = Some v -> format_in_range f v = false ->
  pack fs vs = inl StructError.
Proof.
  intros Hf Hv Hr.
  destruct (pack fs vs) as [e|bs] eqn:E.
  - f_equal. apply (pack_inl _ _ _ E).
  - exfalso. revert vs i bs Hf Hv E.
    induction fs as [|f0 fs IH]; intros [|v0 vs] [|i] bs Hf Hv E; try discriminate.
    + injection Hf as ->. injection Hv as ->.
      apply pack_cons_inr in E as [Hr' _]. congruence.
    + apply pack_cons_inr in E as (_ & bs' & E & _).
      exact (IH vs i bs' Hf Hv E).
Qed.






(** ** The fixed part of the headers *)

(** X3: a local header starts with the signature [PK\003\004], asks
    for version 4.5, sets only the flag that declares the name UTF-8,
    stores the data uncompressed, and carries the MS-DOS time and
    date of the modification time, the checksum given and the length
    of the encoded name; it is 30 + 20 bytes longer than the name. *)
Theorem local_header_fields (name : pystr) (st : stat_result) (crc : Z) (h : bytes) :
  make_file_header name st crc = inr h ->
  unpack_field ZipFileHeader 0 h = 0x04034b50 /\
  unpack_field ZipFileHeader 1 h = 45 /\
  unpack_field ZipFileHeader 2 h = 0x0800 /\
  unpack_field ZipFileHeader 3 h = 0 /\
  unpack_field ZipFileHeader 4 h = snd (get_dos_date_time (st_mtime st)) /\
  unpack_field ZipFileHeader 5 h = fst (get_dos_date_time (st_mtime st)) /\
  unpack_field ZipFileHeader 6 h = crc /\
  unpack_field ZipFileHeader 9 h = len (local_name h) /\
  len h = 30 + len (local_name h) + 20.
Proof.
  intros H.
  pose proof (local_header_parts _ _ _ _ H) as (bname & Hb & Hn & _ & Hlen).
  apply make_file_header_inr in H as (bname' & extra & fixed & Hb' & He & Hf & ->).
  assert (bname' = bname) as -> by congruence.
  rewrite Hn.
  repeat split.
  all: try (erewrite unpack_pack by (try exact Hf; try reflexivity; discriminate);
            reflexivity).
  unfold len. rewrite Hlen. lia.
Qed.

(** X4: a central header starts with the signature [PK\001\002], is
    made by and asks for version 4.5, sets only the UTF-8 flag, stores
    the data uncompressed, carries the same time, date and checksum
    as the local header and the length of the encoded name, has no
    comment, disk number 0 and no attributes; it is 46 + 28 bytes
    longer than the name. *)
Theorem central_header_fields (name : pystr) (st : stat_result) (crc offset : Z)
  (h : bytes) :
  make_central_header name st crc offset = inr h ->
  unpack_field ZipCentralDirectoryFileHeader 0 h = 0x02014b50 /\
  unpack_field ZipCentralDirectoryFileHeader 1 h = 45 /\
  unpack_field ZipCentralDirectoryFileHeader 2 h = 45 /\
  unpack_field ZipCentralDirectoryFileHeader 3 h = 0x0800 /\
  unpack_field ZipCentralDirectoryFileHeader 4 h = 0 /\
  unpack_field ZipCentralDirectoryFileHeader 5 h = snd (get_dos_date_time (st_mtime st)) /\
  unpack_field ZipCentralDirectoryFileHeader 6 h = fst (get_dos_date_time (st_mtime st)) /\
  unpack_field ZipCentralDirectoryFileHeader 7 h = crc /\
  unpack_field ZipCentralDirectoryFileHeader 10 h = len (central_name h) /\
  unpack_field ZipCentralDirectoryFileHeader 12 h = 0 /\
  unpack_field ZipCentralDirectoryFileHeader 13 h = 0 /\
  unpack_field ZipCentralDirectoryFileHeader 14 h = 0 /\
  unpack_field ZipCentralDirectoryFileHeader 15 h = 0 /\
  len h = 46 + len (central_name h) + 28.
Proof.
  intros H.
  pose proof (central_header_parts _ _ _ _ _ H) as (bname & Hb & Hn & _ & Hlen).
  apply make_central_header_inr in H as (bname' & extra & fixed & Hb' & He & Hf & ->).
  assert (bname' = bname) as -> by congruence.
  rewrite Hn.
  repeat split.
  all: try (erewrite unpack_pack by (try exact Hf; try reflexivity; discriminate);
            reflexivity).
  unfold len. rewrite Hlen. lia.
Qed.

(** ** The clone request *)

Lemma format_in_range_false (f : format) (v : Z) :
  f <> fmt_q -> v < 0 \/ 2 ^ (8 * Z.of_nat (format_size f)) <= v ->
  format_in_range f v = false.
Proof.
  intros Hf Hv. destruct f; try congruence; unfold format_in_range;
    apply andb_false_iff; (destruct Hv; [left; apply Z.leb_gt|right; apply Z.ltb_ge]);
    assumption.
Qed.

Lemma signed64_id (v : Z) : 0 <= v < 2 ^ 63 -> signed64 v = v.
Proof. intros H. unfold signed64. destruct (Z.ltb_spec v (2 ^ 63)); lia. Qed.

(** X5: [clone_range] hands the kernel a request of 32 bytes, the
    size the request number 0x4020940d declares, from which the
    source descriptor, the source offset, the length and the
    destination offset are read back as given.  An offset or a length
    that is negative or does not fit 64 bits raises [struct.error]
    before anything is asked of the kernel. *)
Theorem clone_range_request (src dst : nat) (src_off src_len dst_off : Z) (w : world) :
  Z.of_nat src < 2 ^ 63 ->
  (0 <= src_off < 2 ^ 64 -> 0 <= src_len < 2 ^ 64 -> 0 <= dst_off < 2 ^ 64 ->
   exists data,
     len data = 32 /\
     Z.land (Z.shiftr FICLONERANGE 16) 0x3FFF = len data /\
     unpack_file_clone_range data
     = {| src_fd := Z.of_nat src; src_offset := src_off; src_length := src_len;
          dest_offset := dst_off |} /\
     clone_range src src_off src_len dst dst_off w
     = fcntl_ioctl dst FICLONERANGE data w) /\
  (~ (0 <= src_off < 2 ^ 64 /\ 0 <= src_len < 2 ^ 64 /\ 0 <= dst_off < 2 ^ 64) ->
   clone_range src src_off src_len dst dst_off w = ([], Raise StructError w)).
Proof.
  intros Hsrc. split.
  - intros Ho Hl Hd.
    destruct (pack_total FileCloneRange [Z.of_nat src; src_off; src_len; dst_off])
      as [data Hp].
    { repeat constructor; cbn; apply andb_true_intro;
        split; try apply Z.leb_le; try apply Z.ltb_lt; cbn; lia. }
    exists data.
    assert (Hlen : len data = 32).
    { unfold len. rewrite (pack_length _ _ _ Hp). reflexivity. }
    split; [exact Hlen|]. split; [rewrite Hlen; reflexivity|]. split.
    + unfold unpack_file_clone_range.
      rewrite (unpack_pack_nonneg _ _ _ 0 fmt_q (Z.of_nat src) Hp eq_refl eq_refl)
        by lia.
      rewrite (unpack_pack_nil _ _ _ 1 fmt_Q src_off Hp eq_refl eq_refl)
        by discriminate.
      rewrite (unpack_pack_nil _ _ _ 2 fmt_Q src_len Hp eq_refl eq_refl)
        by discriminate.
      rewrite (unpack_pack_nil _ _ _ 3 fmt_Q dst_off Hp eq_refl eq_refl)
        by discriminate.
      rewrite signed64_id by lia. reflexivity.
    + unfold clone_range. rewrite Hp. apply bind_ret_l.
  - intros Hout.
    assert (Hp : pack FileCloneRange [Z.of_nat src; src_off; src_len; dst_off]
                 = inl StructError).
    { assert (Hcases : (src_off < 0 \/ 2 ^ 64 <= src_off) \/
                       (src_len < 0 \/ 2 ^ 64 <= src_len) \/
                       (dst_off < 0 \/ 2 ^ 64 <= dst_off)) by lia.
      destruct Hcases as [H|[H|H]].
      - apply (pack_out_of_range _ _ 1 fmt_Q src_off); [reflexivity..|].
        apply format_in_range_false; [discriminate|exact H].
      - apply (pack_out_of_range _ _ 2 fmt_Q src_len); [reflexivity..|].
        apply format_in_range_false; [discriminate|exact H].
      - apply (pack_out_of_range _ _ 3 fmt_Q dst_off); [reflexivity..|].
        apply format_in_range_false; [discriminate|exact H]. }
    unfold clone_range. rewrite Hp. reflexivity.
Qed.

(** ** A file shorter than the length asked for *)

Lemma chunk_loop_hangs (fd ino : nat) (data : bytes) (position length0 chunk_size : Z)
  (fuel : nat) :
  0 < chunk_size ->
  forall remaining acc w pos,
    fd_at w fd ino pos data -> 0 <= pos -> 0 < remaining ->
    len data - pos < remaining ->
    snd (for_each fuel (chunk_iterator fd position length0 chunk_size)
           (chunk_loop remaining) collect acc w) = Diverge.
Proof.
  intros Hcs.
  induction fuel as [|fuel IH]; intros remaining acc w pos Hfd Hpos Hrem Hshort;
    [reflexivity|].
  cbn [for_each gen_next chunk_iterator chunk_iterator_next].
  destruct (Z.eqb_spec remaining 0) as [->|_]; [lia|].
  pose proof (run_os_read w fd ino pos (Z.min chunk_size remaining) data Hfd ltac:(lia))
    as Hread.
  cbv zeta in Hread.
  remember (take (Z.to_nat (read_grant w (Z.min chunk_size remaining)))
                 (drop (Z.to_nat pos) data)) as chunk eqn:Echunk.
  set (w1 := set_reads _ _) in Hread.
  assert (Hfd1 : fd_at w1 fd ino (pos + len chunk) data).
  { destruct Hfd as [Hf Hi]. split; [|exact Hi].
    eapply fd_lookup_eq; [reflexivity|exact Hf]. }
  assert (Hclen : len chunk <= len data - pos \/ len chunk = 0).
  { unfold len. rewrite Echunk, length_take, length_drop. lia. }
  clearbody w1. clear Echunk.
  rewrite bind_unfold, bind_unfold. unfold run in Hread. rewrite Hread.
  cbn [fst snd].
  destruct chunk as [|b chunk'].
  - cbn [ret fst snd app].
    change (len (@nil byte)) with 0 in Hfd1. rewrite Z.add_0_r in Hfd1.
    apply (IH remaining acc w1 pos); assumption.
  - cbn [ret fst snd app]. set (chunk := b :: chunk') in *.
    pose proof (len_nonneg chunk) as Hc0.
    rewrite bind_collect.
    apply (IH (remaining - len chunk) (acc ++ [chunk]) w1 (pos + len chunk));
      try assumption; lia.
Qed.

(** X6: when the file holds fewer bytes after [position] than the
    [length] asked for, [chunk_iterator] never comes to an end: at the
    end of the file every read is empty and is retried, so no number
    of steps completes a loop over it, neither the listing of its
    chunks nor the checksum. *)
Theorem chunk_iterator_short_file_hangs (fd ino : nat) (pos0 : Z) (data : bytes)
  (position length chunk_size : Z) (w : world) (fuel : nat) :
  fd_at w fd ino pos0 data ->
  0 <= position -> 0 < chunk_size -> 0 < length ->
  len data - position < length ->
  snd (chunks_of fuel (chunk_iterator fd position length chunk_size) w) = Diverge /\
  snd (compute_crc32 fuel (chunk_iterator fd position length chunk_size) w) = Diverge.
Proof.
  intros Hfd Hpos Hcs Hlen Hshort.
  assert (Hchunks : snd (chunks_of fuel (chunk_iterator fd position length chunk_size) w)
                    = Diverge).
  { unfold chunks_of. destruct fuel as [|fuel]; [reflexivity|].
    cbn [for_each gen_next gen_init chunk_iterator chunk_iterator_next].
    pose proof (run_os_lseek_set w fd ino pos0 position data Hfd Hpos) as Hseek.
    set (w1 := set_fds _ _) in Hseek.
    assert (Hfd1 : fd_at w1 fd ino position data).
    { destruct Hfd as [Hf Hi]. split; [|exact Hi].
      eapply fd_lookup_eq; [reflexivity|exact Hf]. }
    clearbody w1.
    rewrite bind_unfold, bind_unfold. unfold run in Hseek. rewrite Hseek.
    cbn [fst snd ret app].
    apply (chunk_loop_hangs fd ino data position length chunk_size fuel Hcs
             length [] w1 position); assumption. }
  split; [exact Hchunks|].
  rewrite compute_crc32_chunks. cbn [snd]. rewrite Hchunks. reflexivity.
Qed.

(** X7: a [length] of zero yields no chunk and reads nothing: the
    descriptor is only moved to [position]; a negative [length] is
    not the end of the loop, the first read asks for a negative
    number of bytes and raises [OSError] with [EINVAL]. *)
Theorem chunk_iterator_no_length (fd ino : nat) (pos0 : Z) (data : bytes)
  (position length chunk_size : Z) (w : world) (fuel : nat) :
  fd_at w fd ino pos0 data -> 0 <= position -> (2 <= fuel)%nat ->
  let w1 := set_fds w (<[fd := Some {| of_ino := ino; of_pos := position |}]> (w_fds w)) in
  (length = 0 ->
   chunks_of fuel (chunk_iterator fd position length chunk_size) w = ([], Ok [] w1)) /\
  (length < 0 ->
   chunks_of fuel (chunk_iterator fd position length chunk_size) w
   = ([], Raise (OSError EINVAL) w1)).
Proof.
  intros Hfd Hpos Hfuel w1.
  destruct fuel as [|[|fuel]]; [lia..|].
  pose proof (run_os_lseek_set w fd ino pos0 position data Hfd Hpos) as Hseek.
  fold w1 in Hseek.
  assert (Hfd1 : fd_at w1 fd ino position data).
  { destruct Hfd as [Hf Hi]. split; [|exact Hi].
    eapply fd_lookup_eq; [reflexivity|exact Hf]. }
  destruct (fd_at_inode _ _ _ _ _ Hfd1) as (i & Hi & _).
  destruct Hfd1 as [Hf1 _].
  clearbody w1. unfold run in Hseek.
  unfold chunks_of.
  cbn [for_each gen_next gen_init chunk_iterator chunk_iterator_next].
  rewrite bind_unfold, bind_unfold, Hseek. cbn [fst snd ret app].
  split; intros Hlen.
  - subst length. cbn [Z.eqb]. rewrite bind_unfold. reflexivity.
  - rewrite <- surjective_pairing. cbn [chunk_iterator_next].
    destruct (Z.eqb_spec length 0) as [->|_]; [lia|].
    rewrite bind_unfold, bind_unfold. unfold os_read. rewrite Hf1. cbn [of_ino].
    rewrite Hi. destruct (Z.ltb_spec (Z.min chunk_size length) 0); [|lia].
    reflexivity.
Qed.

(** ** What no run of the program does

    However a run ends, it leaves the descriptors as they were and
    changes no file but the archive. *)

Lemma steady_refl (dst : nat) (w : world) : steady dst w w.
Proof.
  unfold steady. splits; try reflexivity.
  intros i Hi. exists i. splits; [exact Hi|reflexivity|lia].
Qed.

Lemma steady_trans (dst : nat) (w1 w2 w3 : world) :
  steady dst w1 w2 -> steady dst w2 w3 -> steady dst w1 w3.
Proof.
  intros (Hd1 & Hf1 & Ho1 & Ha1 & Hk1 & Hr1) (Hd2 & Hf2 & Ho2 & Ha2 & Hk2 & Hr2).
  unfold steady. splits.
  - congruence.
  - intros n. rewrite Hf2. apply Hf1.
  - intros ino Hne. rewrite (Ho2 ino Hne). apply Ho1, Hne.
  - intros i Hi. destruct (Ha1 i Hi) as (i2 & Hi2 & Hm2 & Hl2).
    destruct (Ha2 i2 Hi2) as (i3 & Hi3 & Hm3 & Hl3).
    exists i3. splits; [exact Hi3|congruence|lia].
  - congruence.
  - lia.
Qed.

Lemma steady_fd (fd dst : nat) (w w' : world) :
  steady dst w w' -> fd_inode w fd = Some dst -> fd_inode w' fd = Some dst.
Proof. intros (_ & Hf & _) H. rewrite Hf. exact H. Qed.

Lemma ends_in_bind {A B : Type} (m : M A) (k : A -> M B) (w w' : world) :
  ends_in (bind m k) w w' ->
  (exists o e, m w = (o, Raise e w')) \/
  (exists o a w1, m w = (o, Ok a w1) /\ ends_in (k a) w1 w').
Proof.
  unfold ends_in. rewrite bind_unfold.
  destruct (m w) as [o [a w1|e w1|]]; cbn [snd final_world]; intros H.
  - right. eauto.
  - left. injection H as <-. eauto.
  - discriminate.
Qed.

Section Keeps.

Variables fd dst : nat.

Lemma keeps_ret {A : Type} (a : A) : keeps fd dst (ret a).
Proof. intros w w' _ H. injection H as <-. apply steady_refl. Qed.

Lemma keeps_raise {A : Type} (e : exn) : keeps fd dst (@raise A e).
Proof. intros w w' _ H. injection H as <-. apply steady_refl. Qed.

Lemma keeps_print (e : out_event) : keeps fd dst (print e).
Proof. intros w w' _ H. injection H as <-. apply steady_refl. Qed.

Lemma keeps_lift {A : Type} (r : pyres A) : keeps fd dst (lift r).
Proof. destruct r; [apply keeps_raise|apply keeps_ret]. Qed.

Lemma keeps_bind {A B : Type} (m : M A) (k : A -> M B) :
  keeps fd dst m -> (forall a, keeps fd dst (k a)) -> keeps fd dst (bind m k).
Proof.
  intros Hm Hk w w' Hfd H.
  apply ends_in_bind in H as [(o & e & H)|(o & a & w1 & H & Hk')].
  - apply Hm; [exact Hfd|]. unfold ends_in. rewrite H. reflexivity.
  - assert (H1 : steady dst w w1).
    { apply Hm; [exact Hfd|]. unfold ends_in. rewrite H. reflexivity. }
    apply (steady_trans dst w w1 w'); [exact H1|].
    apply (Hk a); [|exact Hk']. apply (steady_fd fd dst w w1 H1 Hfd).
Qed.

Lemma keeps_try_except {A : Type} (m : M A) (h : Z -> M A) :
  keeps fd dst m -> (forall errno, keeps fd dst (h errno)) ->
  keeps fd dst (try_except_OSError m h).
Proof.
  intros Hm Hh w w' Hfd H. unfold ends_in, try_except_OSError in H.
  destruct (m w) as [o r] eqn:E.
  assert (Hr : forall w1, final_world r = Some w1 -> steady dst w w1).
  { intros w1 H1. apply Hm; [exact Hfd|]. unfold ends_in. rewrite E. exact H1. }
  destruct r as [a w1|e w1|]; cbn [snd final_world] in H.
  - injection H as <-. apply Hr. reflexivity.
  - destruct e as [errno| | | | |]; cbn [snd final_world] in H;
      try (injection H as <-; apply Hr; reflexivity).
    destruct (h errno w1) as [o2 r2] eqn:E2. cbn [snd] in H.
    apply (steady_trans dst w w1 w'); [apply Hr; reflexivity|].
    apply (Hh errno); [apply (steady_fd fd dst w w1); [apply Hr; reflexivity|exact Hfd]|].
    unfold ends_in. rewrite E2. exact H.
  - discriminate.
Qed.

Lemma keeps_for_each {Acc : Type} (g : generator) (body : bytes -> Acc -> M Acc) :
  (forall s, keeps fd dst (gen_next g s)) ->
  (forall d a, keeps fd dst (body d a)) ->
  forall fuel s a, keeps fd dst (for_each fuel g s body a).
Proof.
  intros Hg Hb. induction fuel as [|fuel IH]; intros s a.
  - intros w w' _ H. discriminate.
  - cbn [for_each]. apply keeps_bind; [apply Hg|].
    intros [d s'|s'|]; [|apply IH|apply keeps_ret].
    apply keeps_bind; [apply Hb|]. intros a'. apply IH.
Qed.

End Keeps.

Lemma fd_inode_moved (w w' : world) (n0 : nat) (f : open_file) (pos : Z) :
  fd_lookup w n0 = Some f ->
  w_fds w' = <[n0 := Some (set_pos f pos)]> (w_fds w) ->
  forall n, fd_inode w' n = fd_inode w n.
Proof.
  intros Hf Hfds n. unfold fd_inode. destruct (decide (n0 = n)) as [<-|Hne].
  - rewrite (fd_lookup_eq w w' n0 f (set_pos f pos) Hfds Hf), Hf. reflexivity.
  - rewrite (fd_lookup_ne w w' n0 n _ Hfds Hne). reflexivity.
Qed.

Lemma steady_moved (dst : nat) (w w' : world) (n0 : nat) (f : open_file) (pos : Z) :
  fd_lookup w n0 = Some f ->
  w_fds w' = <[n0 := Some (set_pos f pos)]> (w_fds w) ->
  w_dir w' = w_dir w -> w_inodes w' = w_inodes w ->
  w_ficlonerange w' = w_ficlonerange w ->
  (length (w_reads w') <= length (w_reads w))%nat ->
  steady dst w w'.
Proof.
  intros Hf Hfds Hdir Hino Hk Hr. unfold steady. rewrite Hino. splits.
  - exact Hdir.
  - apply (fd_inode_moved w w' n0 f pos Hf Hfds).
  - reflexivity.
  - intros i Hi. exists i. splits; [exact Hi|reflexivity|lia].
  - exact Hk.
  - exact Hr.
Qed.

Lemma write_at_length (content data : bytes) (pos : Z) :
  len content <= len (write_at content pos data).
Proof.
  unfold write_at, len. destruct data as [|b data]; [lia|].
  rewrite !length_app, length_take, length_replicate, length_drop. lia.
Qed.

Lemma steady_stored (dst : nat) (w w' : world) (i : inode) (pos : Z) (data : bytes) :
  w_inodes w !! dst = Some i ->
  w_inodes w' = <[dst := set_data i (write_at (i_data i) pos data)]> (w_inodes w) ->
  w_dir w' = w_dir w -> (forall n, fd_inode w' n = fd_inode w n) ->
  w_ficlonerange w' = w_ficlonerange w -> w_reads w' = w_reads w ->
  steady dst w w'.
Proof.
  intros Hi Hino Hdir Hfds Hk Hr. unfold steady. rewrite Hino, Hr. splits.
  - exact Hdir.
  - exact Hfds.
  - intros ino Hne. apply list_lookup_insert_ne. congruence.
  - intros i0 Hi0. assert (i0 = i) as -> by congruence.
    exists (set_data i (write_at (i_data i) pos data)).
    splits; [|reflexivity|apply write_at_length].
    apply list_lookup_insert_eq. apply (lookup_lt_Some _ _ _ Hi).
  - exact Hk.
  - lia.
Qed.

Section KeepsCalls.

Variables fd dst : nat.

Lemma keeps_os_lstat (path : pystr) : keeps fd dst (os_lstat path).
Proof.
  intros w w' _ H. unfold ends_in, os_lstat in H.
  destruct (resolve w path); injection H as <-; apply steady_refl.
Qed.

Lemma keeps_os_lseek (n : nat) (pos : Z) (how : whence) : keeps fd dst (os_lseek n pos how).
Proof.
  intros w w' _ H. unfold ends_in, os_lseek in H.
  destruct (fd_lookup w n) as [f|] eqn:Hf; [|injection H as <-; apply steady_refl].
  destruct (w_inodes w !! of_ino f); [|injection H as <-; apply steady_refl].
  match type of H with context [if ?b then _ else _] => destruct b end;
    injection H as <-; [apply steady_refl|].
  eapply (steady_moved dst w _ n f); [exact Hf|reflexivity..|].
  cbn [w_reads set_fds]. lia.
Qed.

Lemma keeps_os_read (n : nat) (count : Z) : keeps fd dst (os_read n count).
Proof.
  intros w w' _ H. unfold ends_in, os_read in H.
  destruct (fd_lookup w n) as [f|] eqn:Hf; [|injection H as <-; apply steady_refl].
  destruct (w_inodes w !! of_ino f); [|injection H as <-; apply steady_refl].
  destruct (count <? 0); injection H as <-; [apply steady_refl|].
  eapply (steady_moved dst w _ n f); [exact Hf|reflexivity..|].
  cbn [w_reads set_reads]. destruct (w_reads w); cbn [tail length]; lia.
Qed.

Lemma keeps_os_write (data : bytes) : keeps fd dst (os_write fd data).
Proof.
  intros w w' Hfd H. unfold ends_in, os_write in H. unfold fd_inode in Hfd.
  destruct (fd_lookup w fd) as [f|] eqn:Hf; [|discriminate].
  injection Hfd as Hdst.
  destruct (w_inodes w !! of_ino f) as [i|] eqn:Hi;
    [|injection H as <-; apply steady_refl].
  injection H as <-. rewrite Hdst in *.
  eapply (steady_stored dst w _ i); [exact Hi|reflexivity|reflexivity| |reflexivity..].
  eapply (fd_inode_moved w _ fd f); [exact Hf|reflexivity].
Qed.

Lemma keeps_fcntl_ioctl (request : Z) (data : bytes) :
  keeps fd dst (fcntl_ioctl fd request data).
Proof.
  intros w w' Hfd H. unfold ends_in, fcntl_ioctl in H. unfold fd_inode in Hfd.
  destruct (negb (request =? FICLONERANGE)); [injection H as <-; apply steady_refl|].
  destruct (w_ficlonerange w fd _); [injection H as <-; apply steady_refl|].
  destruct (fd_lookup w fd) as [f|] eqn:Hf; [|discriminate].
  injection Hfd as Hdst.
  destruct (fd_lookup w (Z.to_nat (src_fd (unpack_file_clone_range data))))
    as [fsrc|]; [|injection H as <-; apply steady_refl].
  rewrite Hdst in H.
  destruct (w_inodes w !! dst) as [i|] eqn:Hi; [|injection H as <-; apply steady_refl].
  destruct (w_inodes w !! of_ino fsrc); [|injection H as <-; apply steady_refl].
  match type of H with context [if ?b then _ else _] => destruct b end;
    injection H as <-; [apply steady_refl|].
  eapply (steady_stored dst w _ i); [exact Hi|reflexivity|reflexivity| |reflexivity..].
  intros n. reflexivity.
Qed.

End KeepsCalls.

Lemma ends_in_try_finally {A : Type} (m : M A) (c : M unit) (w w' : world) :
  ends_in (try_finally m c) w w' -> exists w1, ends_in m w w1 /\ ends_in c w1 w'.
Proof.
  unfold ends_in, try_finally.
  destruct (m w) as [o [a w1|e w1|]]; cbn [snd final_world]; [| |discriminate].
  all: destruct (c w1) as [o2 [u w2|e2 w2|]] eqn:E; cbn [snd final_world];
    intros H; try discriminate; exists w1; rewrite E;
    (split; [reflexivity|exact H]).
Qed.

Lemma fd_inode_free (w : world) : fd_inode w (free_fd (w_fds w)) = None.
Proof.
  unfold fd_inode, fd_lookup.
  pose proof (free_fd_not_open (w_fds w)) as H.
  destruct (w_fds w !! free_fd (w_fds w)) as [[f|]|]; try reflexivity.
  exfalso. apply (H f). reflexivity.
Qed.

Lemma fd_inode_install (w : world) (f : open_file) (n : nat) :
  n <> free_fd (w_fds w) ->
  fd_inode (set_fds w (install_fd (w_fds w) f)) n = fd_inode w n.
Proof.
  intros Hne. unfold fd_inode, fd_lookup, install_fd. cbn [w_fds set_fds].
  pose proof (free_fd_le (w_fds w)) as Hle.
  destruct (Nat.ltb_spec (free_fd (w_fds w)) (length (w_fds w))) as [Hlt|Hge].
  - rewrite list_lookup_insert_ne by congruence. reflexivity.
  - destruct (Nat.lt_ge_cases n (length (w_fds w))) as [Hn|Hn].
    + rewrite lookup_app_l by exact Hn. reflexivity.
    + rewrite (lookup_ge_None_2 (w_fds w) n) by exact Hn.
      rewrite lookup_ge_None_2; [reflexivity|].
      rewrite length_app. cbn [length]. lia.
Qed.

Lemma fd_inode_install_free (w : world) (f : open_file) :
  fd_inode (set_fds w (install_fd (w_fds w) f)) (free_fd (w_fds w)) = Some (of_ino f).
Proof.
  unfold fd_inode, fd_lookup. cbn [w_fds set_fds].
  rewrite install_fd_lookup. reflexivity.
Qed.

Lemma fd_inode_closed (w : world) (n0 n : nat) :
  fd_inode (set_fds w (<[n0 := None]> (w_fds w))) n
  = if decide (n = n0) then None else fd_inode w n.
Proof.
  unfold fd_inode, fd_lookup. cbn [w_fds set_fds].
  destruct (decide (n = n0)) as [->|Hne].
  - destruct (Nat.lt_ge_cases n0 (length (w_fds w))) as [Hn|Hn].
    + rewrite list_lookup_insert_eq by exact Hn. reflexivity.
    + rewrite lookup_ge_None_2; [reflexivity|]. rewrite length_insert. exact Hn.
  - rewrite list_lookup_insert_ne by congruence. reflexivity.
Qed.

Section KeepsProgram.

Variables fd dst : nat.

Lemma keeps_chunk_iterator_next (n : nat) (position length chunk_size : Z)
  (s : chunk_state) :
  keeps fd dst (chunk_iterator_next n position length chunk_size s).
Proof.
  destruct s as [|remaining]; cbn [chunk_iterator_next].
  - apply keeps_bind; [apply keeps_os_lseek|]. intros _. apply keeps_ret.
  - destruct (remaining =? 0); [apply keeps_ret|].
    apply keeps_bind; [apply keeps_os_read|].
    intros [|b data]; apply keeps_ret.
Qed.

Lemma keeps_progress_next (it : generator) (each : Z) :
  (forall s, keeps fd dst (gen_next it s)) ->
  forall s, keeps fd dst (progress_next it each s).
Proof.
  intros Hit [[s position] written_at]. cbn [progress_next].
  apply keeps_bind; [apply Hit|].
  intros [data s1|s1|]; try apply keeps_ret.
  destruct (each <=? position + len data - written_at); [|apply keeps_ret].
  apply keeps_bind; [apply keeps_print|]. intros _. apply keeps_ret.
Qed.

Lemma keeps_source (n : nat) (size : Z) (s : gen_state
    (progress (chunk_iterator n 0 size default_chunk_size) default_each)) :
  keeps fd dst
    (gen_next (progress (chunk_iterator n 0 size default_chunk_size) default_each) s).
Proof.
  apply (keeps_progress_next (chunk_iterator n 0 size default_chunk_size)).
  intros s0. apply keeps_chunk_iterator_next.
Qed.

Lemma keeps_clone_or_copy (fuel fd2 : nat) (size data_offset : Z) :
  keeps fd dst (clone_or_copy fuel fd fd2 size data_offset).
Proof.
  unfold clone_or_copy. apply keeps_try_except.
  - apply keeps_bind; [|intros _; apply keeps_ret].
    unfold clone_range. apply keeps_bind; [apply keeps_lift|].
    intros data. apply keeps_fcntl_ioctl.
  - intros errno. apply keeps_bind; [apply keeps_print|]. intros _.
    apply keeps_bind; [|intros _; apply keeps_ret].
    unfold write_all. apply keeps_for_each; [apply keeps_source|].
    intros d a. apply keeps_bind; [apply keeps_os_write|]. intros _. apply keeps_ret.
Qed.

Lemma keeps_archive_file (fuel : nat) (alignment : Z) (path : pystr) (st : stat_result)
  (fd2 : nat) :
  keeps fd dst (archive_file fuel fd alignment path st fd2).
Proof.
  unfold archive_file.
  apply keeps_bind.
  { unfold compute_crc32. apply keeps_for_each; [apply keeps_source|].
    intros d a. apply keeps_ret. }
  intros crc. apply keeps_bind; [apply keeps_lift|].
  intros header. apply keeps_bind; [apply keeps_os_lseek|].
  intros offset. apply keeps_bind; [apply keeps_lift|].
  intros offset'. apply keeps_bind; [apply keeps_os_lseek|].
  intros _. apply keeps_bind; [apply keeps_os_write|].
  intros _. apply keeps_bind; [apply keeps_print|].
  intros _. apply keeps_bind; [apply keeps_clone_or_copy|].
  intros cloned. apply keeps_ret.
Qed.

(** The source is opened, worked on and closed again. *)
Lemma keeps_opened {A B : Type} (path : pystr) (body : nat -> M A) (k : A -> M B) :
  (forall fd2, keeps fd dst (body fd2)) -> (forall a, keeps fd dst (k a)) ->
  keeps fd dst (fd2 <- os_open path ;;
                r <- try_finally (body fd2) (os_close fd2) ;;
                k r).
Proof.
  intros Hbody Hk w w' Hfd H.
  apply ends_in_bind in H as [(o & e & H)|(o & fd2 & w1 & Hopen & H)].
  { (* [open] fails *)
    unfold os_open in H.
    destruct (w_dir w path) as [n|]; [|injection H as _ _ <-; apply steady_refl].
    destruct (w_inodes w !! n) as [i|]; [|injection H as _ _ <-; apply steady_refl].
    destruct (S_ISLNK (i_mode i)); [injection H as _ _ <-; apply steady_refl|].
    destruct (negb (i_readable i)); [injection H as _ _ <-; apply steady_refl|].
    discriminate. }
  assert (Hw1 : exists f, fd2 = free_fd (w_fds w) /\
                          w1 = set_fds w (install_fd (w_fds w) f)).
  { unfold os_open in Hopen.
    destruct (w_dir w path) as [n|]; [|discriminate].
    destruct (w_inodes w !! n) as [i|]; [|discriminate].
    destruct (S_ISLNK (i_mode i)); [discriminate|].
    destruct (negb (i_readable i)); [discriminate|].
    injection Hopen as _ <- <-. eauto. }
  destruct Hw1 as (f & -> & ->).
  set (fd2 := free_fd (w_fds w)) in *.
  set (w1 := set_fds w (install_fd (w_fds w) f)) in *.
  assert (Hne : fd <> fd2).
  { intros ->. unfold fd2 in Hfd. rewrite fd_inode_free in Hfd. discriminate. }
  assert (Hfd1 : fd_inode w1 fd = Some dst).
  { unfold w1. rewrite fd_inode_install by exact Hne. exact Hfd. }
  (* the [try ... finally] ends in a world that is steady with respect to [w] *)
  assert (Hfin : forall w2, ends_in (try_finally (body fd2) (os_close fd2)) w1 w2 ->
                            steady dst w w2 /\ fd_inode w2 fd = Some dst).
  { intros w2 Hf. apply ends_in_try_finally in Hf as (wb & Hb & Hc).
    pose proof (Hbody fd2 w1 wb Hfd1 Hb) as (Hdir & Hfds & Hoth & Harch & Hker & Hrd).
    assert (Hopen2 : fd_inode wb fd2 = Some (of_ino f)).
    { rewrite Hfds. apply fd_inode_install_free. }
    unfold ends_in, os_close in Hc. unfold fd_inode in Hopen2.
    destruct (fd_lookup wb fd2) as [f2|]; [|discriminate].
    injection Hc as <-.
    assert (Hall : forall n, fd_inode (set_fds wb (<[fd2 := None]> (w_fds wb))) n
                             = fd_inode w n).
    { intros n. rewrite fd_inode_closed. destruct (decide (n = fd2)) as [->|Hn].
      - symmetry. apply fd_inode_free.
      - rewrite Hfds. apply fd_inode_install. exact Hn. }
    split; [|rewrite Hall; exact Hfd].
    unfold steady. splits.
    - exact Hdir.
    - exact Hall.
    - exact Hoth.
    - exact Harch.
    - exact Hker.
    - exact Hrd. }
  apply ends_in_bind in H as [(o2 & e & H)|(o2 & a & w2 & Hrun & H)].
  - apply Hfin. unfold ends_in. rewrite H. reflexivity.
  - destruct (Hfin w2) as [Hs2 Hfd2]; [unfold ends_in; rewrite Hrun; reflexivity|].
    apply (steady_trans dst w w2 w'); [exact Hs2|].
    apply (Hk a w2 w' Hfd2 H).
Qed.

Lemma keeps_execute_path (fuel : nat) (alignment : Z) (path : pystr) :
  keeps fd dst (execute_path fuel fd alignment path).
Proof.
  unfold execute_path. apply keeps_bind; [apply keeps_os_lstat|].
  intros st. destruct (negb (S_ISREG (st_mode st))); [apply keeps_ret|].
  apply keeps_bind; [apply keeps_print|]. intros _.
  apply (keeps_opened path (archive_file fuel fd alignment path st)).
  - intros fd2. apply keeps_archive_file.
  - intros [[crc offset] cloned].
    apply keeps_bind; [apply keeps_print|]. intros _. apply keeps_ret.
Qed.

Lemma keeps_execute_paths (fuel : nat) (alignment : Z) (paths : list pystr) :
  forall datas, keeps fd dst (execute_paths fuel fd alignment paths datas).
Proof.
  induction paths as [|path paths IH]; intros datas; cbn [execute_paths].
  - apply keeps_ret.
  - apply keeps_bind; [apply keeps_execute_path|]. intros [e|]; apply IH.
Qed.

Lemma keeps_write_central_headers (datas : list entry) :
  keeps fd dst (write_central_headers fd datas).
Proof.
  induction datas as [|[[[path st] crc] offset] datas IH]; cbn [write_central_headers].
  - apply keeps_ret.
  - apply keeps_bind; [apply keeps_lift|]. intros header.
    apply keeps_bind; [apply keeps_os_write|]. intros _. exact IH.
Qed.

Lemma keeps_execute (fuel : nat) (paths : list pystr) (alignment : Z) :
  keeps fd dst (execute fuel fd paths alignment).
Proof.
  unfold execute.
  apply keeps_bind; [apply keeps_print|]. intros _.
  apply keeps_bind; [apply keeps_execute_paths|]. intros datas.
  apply keeps_bind; [apply keeps_os_lseek|]. intros central_start.
  apply keeps_bind; [apply keeps_write_central_headers|]. intros _.
  apply keeps_bind; [apply keeps_os_lseek|]. intros central_end.
  apply keeps_bind; [apply keeps_lift|]. intros eocd64.
  apply keeps_bind; [apply keeps_os_write|]. intros _.
  apply keeps_bind; [apply keeps_lift|]. intros locator.
  apply keeps_bind; [apply keeps_os_write|]. intros _.
  apply keeps_bind; [apply keeps_lift|]. intros eocd.
  apply keeps_bind; [apply keeps_os_write|]. intros _.
  apply keeps_ret.
Qed.

End KeepsProgram.

(** X8: however a run of [execute] ends, normally or with an
    exception, the descriptors that were open are open, on the same
    files, and no other is: every source file the run opened has been
    closed again. *)
Theorem execute_leaves_descriptors (fuel fd dst : nat) (paths : list pystr)
  (alignment : Z) (w w' : world) :
  fd_inode w fd = Some dst ->
  ends_in (execute fuel fd paths alignment) w w' ->
  forall n, fd_inode w' n = fd_inode w n.
Proof.
  intros Hfd Hend. apply (keeps_execute fd dst fuel paths alignment w w' Hfd Hend).
Qed.

(** X9: however a run of [execute] ends, the directory is as it was
    and every file but the archive holds what it held; the archive
    has kept its type and has not become shorter. *)
Theorem execute_changes_only_archive (fuel fd dst : nat) (paths : list pystr)
  (alignment : Z) (w w' : world) :
  fd_inode w fd = Some dst ->
  ends_in (execute fuel fd paths alignment) w w' ->
  w_dir w' = w_dir w /\
  (forall ino, ino <> dst -> w_inodes w' !! ino = w_inodes w !! ino) /\
  (forall i, w_inodes w !! dst = Some i ->
     exists i', w_inodes w' !! dst = Some i' /\ i_mode i' = i_mode i /\
                len (i_data i) <= len (i_data i')).
Proof.
  intros Hfd Hend.
  destruct (keeps_execute fd dst fuel paths alignment w w' Hfd Hend)
    as (Hdir & _ & Hother & Harchive & _).
  auto.
Qed.

(** ** The end of the archive *)

Lemma run_functional {A : Type} (m : M A) w o1 a1 w1 o2 a2 w2 :
  run m w o1 a1 w1 -> run m w o2 a2 w2 -> o1 = o2 /\ a1 = a2 /\ w1 = w2.
Proof.
  unfold run. intros H1 H2. rewrite H1 in H2. injection H2 as -> -> ->. auto.
Qed.

Lemma os_lseek_end_inv (fd : nat) w o r w' :
  run (os_lseek fd 0 SEEK_END) w o r w' ->
  exists ino data, r = len data /\ fd_at w' fd ino (len data) data.
Proof.
  unfold run, os_lseek. intros H.
  destruct (fd_lookup w fd) as [f|] eqn:Hf; [|discriminate].
  destruct (w_inodes w !! of_ino f) as [i|] eqn:Hi; [|discriminate].
  rewrite Z.add_0_r in H.
  destruct (len (i_data i) <? 0); [discriminate|].
  injection H as _ <- <-.
  exists (of_ino f), (i_data i). split; [reflexivity|]. split.
  - eapply fd_lookup_eq; [reflexivity|exact Hf].
  - cbn [w_inodes set_fds]. rewrite Hi. reflexivity.
Qed.

Lemma os_write_appends (fd ino : nat) (content data : bytes) w o n w' :
  fd_at w fd ino (len content) content -> run (os_write fd data) w o n w' ->
  fd_at w' fd ino (len content + len data) (content ++ data).
Proof.
  intros Hfd H.
  destruct (run_os_write w fd ino (len content) content data Hfd) as (w2 & H2 & Hfd2 & _).
  destruct (run_functional _ _ _ _ _ _ _ _ H H2) as (_ & _ & ->).
  rewrite write_at_end in Hfd2. exact Hfd2.
Qed.

Lemma write_central_headers_appends (fd ino : nat) (datas : list entry) :
  forall w o u w' content,
    fd_at w fd ino (len content) content ->
    run (write_central_headers fd datas) w o u w' ->
    exists headers,
      Forall2 (fun e h => make_central_header (entry_path e) (entry_stat e)
                            (entry_crc e) (entry_offset e) = inr h) datas headers /\
      fd_at w' fd ino (len content + len (concat headers)) (content ++ concat headers).
Proof.
  induction datas as [|[[[path st] crc] offset] datas IH]; intros w o u w' content Hfd H.
  - apply run_ret_inv in H as (_ & _ & ->). exists []. split; [constructor|].
    cbn [concat]. change (len (@nil byte)) with 0. rewrite Z.add_0_r, app_nil_r.
    exact Hfd.
  - cbn [write_central_headers] in H.
    apply run_bind_inv in H as (o1 & header & w1 & o2 & Hh & H & _).
    apply run_lift_inv in Hh as (Hheader & _ & ->).
    apply run_bind_inv in H as (o3 & n & w2 & o4 & Hw & H & _).
    pose proof (os_write_appends _ _ _ _ _ _ _ _ Hfd Hw) as Hfd2.
    rewrite <- len_app in Hfd2.
    destruct (IH _ _ _ _ _ Hfd2 H) as (headers & Hall & Hfd').
    exists (header :: headers). split.
    + constructor; [exact Hheader|exact Hall].
    + cbn [concat]. rewrite !len_app in *. rewrite <- app_assoc in Hfd'.
      replace (len content + (len header + len (concat headers)))
        with (len content + len header + len (concat headers)) by lia.
      exact Hfd'.
Qed.

(** X10: every run of [execute] that ends normally leaves an archive
    that ends with the central headers of the entries, in order, then
    the ZIP64 end record of 56 bytes, its locator of 20 bytes and the
    end record of 22 bytes.  The ZIP64 end record gives the size of
    the central directory and the offset at which it starts, the
    locator gives the offset of the ZIP64 end record and one disk,
    and the last record holds only the values that send a reader to
    the ZIP64 records. *)
Theorem execute_trailer_locates_directory (fuel fd : nat) (paths : list pystr)
  (alignment : Z) (w : world) (o : list out_event) (w' : world) :
  run (execute fuel fd paths alignment) w o tt w' ->
  exists datas body headers eocd64 locator eocd,
    map entry_path datas = List.filter (is_regular w) paths /\
    Forall2 (fun e h => make_central_header (entry_path e) (entry_stat e)
                          (entry_crc e) (entry_offset e) = inr h) datas headers /\
    fd_data w' fd = Some (body ++ concat headers ++ eocd64 ++ locator ++ eocd) /\
    (len eocd64 = 56 /\ len locator = 20 /\ len eocd = 22) /\
    (unpack_field Zip64EndOfCentralDirectoryRecord 0 eocd64 = 0x06064b50 /\
     unpack_field Zip64EndOfCentralDirectoryRecord 1 eocd64 = len eocd64 - 12 /\
     unpack_field Zip64EndOfCentralDirectoryRecord 8 eocd64 = len (concat headers) /\
     unpack_field Zip64EndOfCentralDirectoryRecord 9 eocd64 = len body) /\
    (unpack_field Zip64EndOfCentralDirectoryLocator 0 locator = 0x07064b50 /\
     unpack_field Zip64EndOfCentralDirectoryLocator 2 locator
     = len body + len (concat headers) /\
     unpack_field Zip64EndOfCentralDirectoryLocator 3 locator = 1) /\
    (unpack_field ZipEndOfCentralDirectoryRecord 0 eocd = 0x06054b50 /\
     unpack_field ZipEndOfCentralDirectoryRecord 3 eocd = 0xffff /\
     unpack_field ZipEndOfCentralDirectoryRecord 4 eocd = 0xffff /\
     unpack_field ZipEndOfCentralDirectoryRecord 5 eocd = 0xffffffff /\
     unpack_field ZipEndOfCentralDirectoryRecord 6 eocd = 0xffffffff /\
     unpack_field ZipEndOfCentralDirectoryRecord 7 eocd = 0).
Proof.
  unfold execute. intros H.
  apply run_bind_inv in H as (o1 & u & w1 & o2 & Hp & H & _).
  apply run_print_inv in Hp as [_ ->].
  apply run_bind_inv in H as (o3 & datas & w2 & o4 & Hpaths & H & _).
  apply execute_paths_inv in Hpaths as (new & levs & Hd & Hmap & _ & _).
  cbn [app] in Hd. subst new.
  apply run_bind_inv in H as (o5 & cs & w3 & o6 & Hend & H & _).
  apply os_lseek_end_inv in Hend as (ino & body & -> & Hfd3).
  apply run_bind_inv in H as (o7 & u' & w4 & o8 & Hcen & H & _).
  destruct u'.
  destruct (write_central_headers_appends _ _ _ _ _ _ _ _ Hfd3 Hcen)
    as (headers & Hheaders & Hfd4).
  apply run_bind_inv in H as (o9 & ce & w5 & o10 & Hcur & H & _).
  pose proof (len_nonneg body) as Hb0. pose proof (len_nonneg (concat headers)) as Hc0.
  pose proof (run_os_lseek_cur _ _ _ _ _ Hfd4 ltac:(lia)) as Hcur'.
  destruct (run_functional _ _ _ _ _ _ _ _ Hcur Hcur') as (_ & -> & ->).
  assert (Hfd5 : fd_at (set_fds w4 (<[fd := Some {| of_ino := ino;
                          of_pos := len body + len (concat headers) |}]> (w_fds w4)))
                   fd ino (len (body ++ concat headers)) (body ++ concat headers)).
  { rewrite len_app. destruct Hfd4 as [Hf Hi]. split; [|exact Hi].
    eapply fd_lookup_eq; [reflexivity|exact Hf]. }
  clear Hcur Hcur'.
  apply run_bind_inv in H as (o11 & eocd64 & w6 & o12 & Hr1 & H & _).
  apply run_lift_inv in Hr1 as (Hr1 & _ & ->).
  apply run_bind_inv in H as (o13 & n1 & w7 & o14 & Hw1 & H & _).
  pose proof (os_write_appends _ _ _ _ _ _ _ _ Hfd5 Hw1) as Hfd6.
  rewrite <- len_app in Hfd6.
  apply run_bind_inv in H as (o15 & locator & w8 & o16 & Hr2 & H & _).
  apply run_lift_inv in Hr2 as (Hr2 & _ & ->).
  apply run_bind_inv in H as (o17 & n2 & w9 & o18 & Hw2 & H & _).
  pose proof (os_write_appends _ _ _ _ _ _ _ _ Hfd6 Hw2) as Hfd7.
  rewrite <- len_app in Hfd7.
  apply run_bind_inv in H as (o19 & eocd & w10 & o20 & Hr3 & H & _).
  apply run_lift_inv in Hr3 as (Hr3 & _ & ->).
  apply run_bind_inv in H as (o21 & n3 & w11 & o22 & Hw3 & H & _).
  pose proof (os_write_appends _ _ _ _ _ _ _ _ Hfd7 Hw3) as Hfd8.
  apply run_ret_inv in H as (_ & _ & ->).
  exists datas, body, headers, eocd64, locator, eocd.
  unfold zip64_end_of_central_directory in Hr1. unfold zip64_locator in Hr2.
  unfold end_of_central_directory in Hr3.
  assert (L1 : len eocd64 = 56) by (unfold len; rewrite (pack_length _ _ _ Hr1); reflexivity).
  assert (L2 : len locator = 20) by (unfold len; rewrite (pack_length _ _ _ Hr2); reflexivity).
  assert (L3 : len eocd = 22) by (unfold len; rewrite (pack_length _ _ _ Hr3); reflexivity).
  split; [exact Hmap|]. split; [exact Hheaders|]. split.
  { rewrite (fd_at_data _ _ _ _ _ Hfd8). rewrite <- !app_assoc. reflexivity. }
  split; [auto|]. split; [|split].
  - rewrite L1. repeat split.
    all: try (erewrite unpack_pack_nil by (try exact Hr1; try reflexivity; discriminate);
              reflexivity).
    all: erewrite unpack_pack_nil by (try exact Hr1; try reflexivity; discriminate); lia.
  - repeat split.
    all: erewrite unpack_pack_nil by (try exact Hr2; try reflexivity; discriminate);
      reflexivity.
  - repeat split.
    all: erewrite unpack_pack_nil by (try exact Hr3; try reflexivity; discriminate);
      reflexivity.
Qed.

(** ** Runs that stop early *)




Lemma quiet_writes (w w' : world) : quiet w w' -> w_writes w' = w_writes w.
Proof. intros [_ H]. exact H. Qed.

Lemma fd_at_fd_inode (w : world) (fd ino : nat) (pos : Z) (data : bytes) :
  fd_at w fd ino pos data -> fd_inode w fd = Some ino.
Proof. intros [Hf _]. unfold fd_inode. rewrite Hf. reflexivity. Qed.

(** X12: when the local header of a regular file cannot be built
    (the name cannot be encoded, the modification time has no MS-DOS
    date) or cannot be placed (an alignment of zero), the exception
    leaves [execute]: the file has been read for its checksum, but
    nothing of it is written, the archive is as it was, and the
    source descriptor is closed again. *)
Theorem execute_path_raises_unwritten (fuel fd : nat) (alignment : Z) (path : pystr)
  (w : world) (src_ino dst_ino : nat) (i : inode) (pos : Z) (content : bytes) (e : exn) :
  w_dir w path = Some src_ino -> w_inodes w !! src_ino = Some i ->
  S_ISREG (i_mode i) = true -> i_readable i = true ->
  fd_at w fd dst_ino pos content -> src_ino <> dst_ino ->
  (length (w_reads w) + length (i_data i) + 1 < fuel)%nat ->
  make_file_header path (stat_of i) (zlib_crc32 (i_data i) 0) = inl e \/
  (exists header,
     make_file_header path (stat_of i) (zlib_crc32 (i_data i) 0) = inr header /\
     aligned_offset (len content) (len header) alignment = inl e) ->
  exists o w',
    execute_path fuel fd alignment path w = (o, Raise e w') /\
    fd_data w' fd = Some content /\
    w_writes w' = w_writes w /\
    (forall n, fd_inode w' n = fd_inode w n).
Proof.
  intros Hdir Hino Hreg Hread Hdst Hne Hfuel Hcause.
  set (fd2 := free_fd (w_fds w)).
  pose proof (run_os_open w path src_ino i Hdir Hino Hreg Hread) as Hopen.
  fold fd2 in Hopen. set (w1 := set_fds w _) in Hopen.
  assert (Hfd_ne : fd <> fd2).
  { intros ->. destruct Hdst as [Hf _]. apply fd_lookup_Some in Hf.
    exact (free_fd_not_open _ _ Hf). }
  assert (Hsrc1 : fd_at w1 fd2 src_ino 0 (i_data i)).
  { split.
    - apply fd_lookup_Some. apply install_fd_lookup.
    - cbn [w_inodes w1 set_fds]. rewrite Hino. reflexivity. }
  assert (Hdst1 : fd_at w1 fd dst_ino pos content).
  { destruct Hdst as [Hf Hi]. split; [|exact Hi].
    apply fd_lookup_Some. apply install_fd_lookup_ne. apply fd_lookup_Some. exact Hf. }
  destruct (checksum_pass fd fd2 dst_ino src_ino (i_data i) Hfd_ne Hne fuel w1 0 pos
              content Hsrc1 Hdst1)
    as (o1 & w2 & Hcrc & Hsrc2 & Hdst2 & _ & _).
  { subst w1. cbn [w_reads set_fds]. exact Hfuel. }
  pose proof (os_open_quiet _ _ _ _ _ Hopen) as Q1.
  pose proof (compute_crc32_quiet _ _ _ _ _ _ _ _ Hcrc) as Q2.
  (* the body of the [try] raises, in a world that differs by positions only *)
  assert (Hbody : exists o2 w3 pos2 pos3,
            archive_file fuel fd alignment path (stat_of i) fd2 w1 = (o2, Raise e w3) /\
            quiet w2 w3 /\ fd_at w3 fd2 src_ino pos2 (i_data i) /\
            fd_at w3 fd dst_ino pos3 content).
  { unfold archive_file. cbn [st_size stat_of].
    destruct Hcause as [Hheader|(header & Hheader & Halign)].
    - exists o1, w2, (len (i_data i)), pos. split; [|split; [apply quiet_refl|auto]].
      rewrite bind_unfold. unfold run in Hcrc. rewrite Hcrc.
      rewrite bind_unfold, Hheader. cbn [lift raise fst snd]. rewrite app_nil_r.
      reflexivity.
    - pose proof (run_os_lseek_end w2 fd dst_ino pos content Hdst2) as Hend.
      set (w3 := set_fds w2 _) in Hend.
      exists o1, w3, (len (i_data i)), (len content).
      split; [|split; [exact (os_lseek_quiet _ _ _ _ _ _ _ Hend)|split]].
      + rewrite bind_unfold. unfold run in Hcrc. rewrite Hcrc.
        rewrite bind_unfold, Hheader. cbn [lift ret fst snd].
        rewrite bind_unfold. unfold run in Hend. rewrite Hend. cbn [fst snd].
        rewrite bind_unfold, Halign. cbn [lift raise fst snd]. rewrite !app_nil_r.
        reflexivity.
      + eapply fd_at_frame; [reflexivity|reflexivity|exact Hfd_ne|exact Hsrc2].
      + destruct Hdst2 as [Hf Hi]. split; [|exact Hi].
        eapply fd_lookup_eq; [reflexivity|exact Hf]. }
  destruct Hbody as (o2 & w3 & pos2 & pos3 & Hbody & Q3 & Hsrc3 & Hdst3).
  pose proof (run_os_close w3 fd2 src_ino pos2 (i_data i) Hsrc3) as Hclose.
  set (w4 := set_fds w3 _) in Hclose.
  assert (Hdst4 : fd_at w4 fd dst_ino pos3 content).
  { eapply fd_at_frame; [reflexivity|reflexivity| |exact Hdst3]. congruence. }
  pose proof (os_close_quiet _ _ _ _ _ Hclose) as Q4.
  assert (Hrun : execute_path fuel fd alignment path w
                 = (MsgPath path :: o2, Raise e w4)).
  { unfold execute_path. rewrite bind_unfold.
    unfold os_lstat, resolve. rewrite Hdir, Hino. cbn [fst snd st_mode stat_of].
    rewrite Hreg. cbn [negb app].
    rewrite bind_unfold. cbn [print fst snd].
    rewrite bind_unfold. unfold run in Hopen. rewrite Hopen. cbn [fst snd app].
    rewrite bind_unfold. unfold try_finally. rewrite Hbody.
    unfold run in Hclose. rewrite Hclose. rewrite app_nil_r. reflexivity. }
  exists (MsgPath path :: o2), w4. split; [exact Hrun|]. split; [|split].
  - apply (fd_at_data _ _ _ _ _ Hdst4).
  - rewrite (quiet_writes _ _ Q4), (quiet_writes _ _ Q3), (quiet_writes _ _ Q2).
    apply (quiet_writes _ _ Q1).
  - assert (Hs : steady dst_ino w w4).
    { apply (keeps_execute_path fd dst_ino fuel alignment path w w4).
      - apply (fd_at_fd_inode _ _ _ _ _ Hdst).
      - unfold ends_in. rewrite Hrun. reflexivity. }
    apply Hs.
Qed.

(** ** The dots of [progress] *)

Lemma count_dots_app (o1 o2 : list out_event) :
  count_dots (o1 ++ o2) = count_dots o1 + count_dots o2.
Proof. unfold count_dots. rewrite List.filter_app. apply len_app. Qed.

Lemma count_dots_nonneg (o : list out_event) : 0 <= count_dots o.
Proof. apply len_nonneg. Qed.

Lemma len_concat_snoc (acc : list bytes) (data : bytes) :
  len (concat (acc ++ [data])) = len (concat acc) + len data.
Proof.
  rewrite concat_app, len_app. cbn [concat]. rewrite app_nil_r. reflexivity.
Qed.

Lemma progress_dots_loop (it : generator) (each : Z) (fuel : nat) :
  0 < each ->
  forall (s : gen_state it) (position written_at : Z) (acc : list bytes) w o chunks w',
    written_at <= position ->
    for_each fuel it s collect acc w = (o, Ok chunks w') ->
    exists o',
      for_each fuel (progress it each) (s, position, written_at) collect acc w
      = (o', Ok chunks w') /\
      count_dots o <= count_dots o' /\
      (count_dots o' - count_dots o) * each
      <= position - written_at + (len (concat chunks) - len (concat acc)).
Proof.
  intros Heach.
  induction fuel as [|fuel IH]; intros s position written_at acc w o chunks w' Hle H;
    [discriminate|].
  cbn [for_each] in H. rewrite bind_unfold in H.
  cbn [for_each gen_next progress]. rewrite bind_unfold.
  unfold progress_next. rewrite bind_unfold.
  destruct (gen_next it s w) as [o1 [[data s1|s1|] w1|e w1|]] eqn:Enext;
    cbn [fst snd] in *; try discriminate.
  - (* a chunk *)
    rewrite bind_collect in H.
    destruct (for_each fuel it s1 collect (acc ++ [data]) w1) as [o2 r2] eqn:Erest.
    cbn [fst snd] in H. injection H as <- ->.
    destruct (Z.leb_spec each (position + len data - written_at)) as [Hdot|Hno].
    + destruct (IH s1 (position + len data) (position + len data) (acc ++ [data])
                  w1 o2 chunks w' ltac:(lia) Erest) as (o2' & Hrun & Hmono & Hbound).
      rewrite len_concat_snoc in Hbound.
      rewrite bind_unfold. cbn [print ret fst snd app].
      rewrite bind_collect, Hrun. cbn [fst snd].
      eexists. split; [reflexivity|].
      rewrite !count_dots_app. change (count_dots [MsgDot]) with 1.
      split; lia.
    + destruct (IH s1 (position + len data) written_at (acc ++ [data])
                  w1 o2 chunks w' ltac:(pose proof (len_nonneg data); lia) Erest)
        as (o2' & Hrun & Hmono & Hbound).
      rewrite len_concat_snoc in Hbound.
      cbn [ret fst snd app].
      rewrite bind_collect, Hrun. cbn [fst snd].
      eexists. split; [reflexivity|].
      rewrite !count_dots_app. change (count_dots []) with 0.
      split; lia.
  - (* an empty read of the inner generator *)
    destruct (for_each fuel it s1 collect acc w1) as [o2 r2] eqn:Erest.
    cbn [fst snd] in H. injection H as <- ->.
    destruct (IH s1 position written_at acc w1 o2 chunks w' Hle Erest)
      as (o2' & Hrun & Hmono & Hbound).
    cbn [ret fst snd app]. rewrite Hrun. cbn [fst snd].
    eexists. split; [reflexivity|].
    rewrite !count_dots_app. change (count_dots []) with 0.
    split; lia.
  - (* the end *)
    cbn [ret fst snd] in H. injection H as <- <- <-.
    cbn [ret fst snd app].
    eexists. split; [reflexivity|].
    rewrite !count_dots_app. change (count_dots []) with 0.
    split; lia.
Qed.

(** X13: [progress] prints at most one dot for every [each] bytes
    that pass through it: over a generator that yields the chunks
    [chunks], the dots it adds to the output, times [each], do not
    exceed the total length of the chunks, and the chunks and the
    final state are those of the generator alone. *)
Theorem progress_dots_bound (it : generator) (each : Z) (fuel : nat) (w : world)
  (o : list out_event) (chunks : list bytes) (w' : world) :
  0 < each ->
  run (chunks_of fuel it) w o chunks w' ->
  exists o',
    run (chunks_of fuel (progress it each)) w o' chunks w' /\
    count_dots o <= count_dots o' /\
    (count_dots o' - count_dots o) * each <= len (concat chunks).
Proof.
  intros Heach Hrun. unfold run, chunks_of in *.
  destruct (progress_dots_loop it each fuel Heach (gen_init it) 0 0 [] w o chunks w'
              ltac:(lia) Hrun) as (o' & Hrun' & Hmono & Hbound).
  exists o'. split; [exact Hrun'|]. split; [exact Hmono|].
  cbn [concat] in Hbound. change (len (@nil byte)) with 0 in Hbound. lia.
Qed.

(** ** Cloned or copied *)

Lemma try_except_output {A : Type} (m : M A) (h : Z -> M A) w o a w' :
  run (try_except_OSError m h) w o a w' ->
  run m w o a w' \/
  exists o1 errno w1 o2,
    m w = (o1, Raise (OSError errno) w1) /\ run (h errno) w1 o2 a w' /\ o = o1 ++ o2.
Proof.
  unfold run, try_except_OSError.
  destruct (m w) as [o1 [a1 w1|e w1|]]; intros H; try discriminate; [left; exact H|].
  destruct e as [errno| | | | |]; try discriminate.
  right. destruct (h errno w1) as [o2 r2] eqn:E. injection H as <- ->.
  exists o1, errno, w1, o2. auto.
Qed.

Lemma clone_or_copy_inv (fuel fd fd2 : nat) (size data_offset : Z) w o cloned w' :
  run (clone_or_copy fuel fd fd2 size data_offset) w o cloned w' ->
  (cloned = true /\ quiet w w') \/
  (cloned = false /\
   exists errno evs, In (MsgError errno) o /\ wrote fd evs w w').
Proof.
  unfold clone_or_copy. intros H.
  apply try_except_output in H as [H|(o1 & errno & w1 & o2 & Hm & H & Ho)].
  - left.
    apply run_bind_inv in H as (o1 & u & w1 & o2 & Hc & H & ->).
    apply run_ret_inv in H as (-> & -> & ->).
    split; [reflexivity|]. exact (clone_range_quiet _ _ _ _ _ _ _ _ _ Hc).
  - right.
    rewrite bind_unfold in Hm.
    destruct (clone_range fd2 0 size fd data_offset w) as [o3 [u w3|e w3|]] eqn:E;
      cbn [fst snd ret] in Hm; try discriminate.
    injection Hm as <- -> <-.
    pose proof (clone_range_raise _ _ _ _ _ _ _ _ _ E) as ->.
    apply run_bind_inv in H as (o4 & u & w4 & o5 & Hp & H & ->).
    apply run_print_inv in Hp as [-> ->].
    apply run_bind_inv in H as (o6 & u' & w6 & o7 & Hw & H & ->).
    apply write_all_wrote in Hw as [evs Hw].
    apply run_ret_inv in H as (-> & -> & ->).
    split; [reflexivity|]. exists errno, evs.
    split; [|exact Hw]. subst o. rewrite !in_app_iff. cbn [In]. auto.
Qed.

(** X14: the body of the [try] of [execute] writes the local header
    at the offset it reports and then asks for a clone.  When the
    clone is accepted ([cloned] is true) the header is the only
    [os.write] of the entry: no byte of the data passes through the
    program.  Only when the clone request raised [OSError] is the
    error number printed and the data written by the program, all of
    it to the archive descriptor. *)
Theorem archive_file_clones_or_copies (fuel fd : nat) (alignment : Z) (path : pystr)
  (st : stat_result) (fd2 : nat) (w : world) (o : list out_event) (crc offset : Z)
  (cloned : bool) (w' : world) :
  run (archive_file fuel fd alignment path st fd2) w o (crc, offset, cloned) w' ->
  exists header data_writes,
    make_file_header path st crc = inr header /\
    w_writes w' = w_writes w ++ (fd, offset, header) :: data_writes /\
    Forall (fun ev : write_event => ev.1.1 = fd) data_writes /\
    (cloned = true -> data_writes = []) /\
    (cloned = false -> exists errno, In (MsgError errno) o).
Proof.
  unfold archive_file. intros H.
  apply run_bind_inv in H as (o1 & crc1 & w1 & o2 & Hcrc & H & ->).
  apply compute_crc32_quiet in Hcrc.
  apply run_bind_inv in H as (o3 & header & w2 & o4 & Hh & H & ->).
  apply run_lift_inv in Hh as (Hheader & -> & ->).
  apply run_bind_inv in H as (o5 & eof & w3 & o6 & Hend & H & ->).
  apply os_lseek_quiet in Hend.
  apply run_bind_inv in H as (o7 & off & w4 & o8 & Ha & H & ->).
  apply run_lift_inv in Ha as (_ & -> & ->).
  apply run_bind_inv in H as (o9 & r & w5 & o10 & Hset & H & ->).
  apply os_lseek_set_inv in Hset as (_ & Hset & f & Hf & Hpos).
  apply run_bind_inv in H as (o11 & n & w6 & o12 & Hw & H & ->).
  apply os_write_at in Hw as (f' & Hf' & Hw).
  assert (f' = f) by congruence. subst f'. rewrite Hpos in Hw.
  apply run_bind_inv in H as (o13 & u & w7 & o14 & Hp & H & ->).
  apply run_print_inv in Hp as [-> ->].
  apply run_bind_inv in H as (o15 & cl & w8 & o16 & Hc & H & ->).
  apply run_ret_inv in H as (-> & [= <- <- <-] & ->).
  assert (Hbefore : wrote fd [(fd, offset, header)] w w6).
  { eapply quiet_wrote; [exact Hcrc|]. eapply quiet_wrote; [exact Hend|].
    eapply quiet_wrote; [exact Hset|]. exact Hw. }
  exists header.
  apply clone_or_copy_inv in Hc as [(-> & Hq)|(-> & errno & evs & Hin & Hevs)].
  - exists []. split; [exact Hheader|].
    destruct (wrote_quiet _ _ _ _ _ Hbefore Hq) as (_ & Hlog & _).
    split; [exact Hlog|]. split; [constructor|]. split; [reflexivity|discriminate].
  - exists evs. split; [exact Hheader|].
    destruct (wrote_trans _ _ _ _ _ _ Hbefore Hevs) as (_ & Hlog & _).
    split; [exact Hlog|]. split; [apply Hevs|]. split; [discriminate|].
    intros _. exists errno. rewrite !in_app_iff. auto 10.
Qed.

(** ** One entry is appended *)

Lemma write_at_gap (content data : bytes) (pos : Z) :
  len content <= pos -> data <> [] ->
  write_at content pos data
  = content ++ replicate (Z.to_nat (pos - len content)) x00 ++ data.
Proof.
  intros Hpos Hdata. destruct data as [|b data]; [congruence|].
  rewrite write_at_cons. unfold len in *.
  rewrite take_ge by lia. rewrite drop_ge by lia. rewrite app_nil_r, <- app_assoc.
  replace (Z.to_nat pos - length content)%nat
    with (Z.to_nat (pos - Z.of_nat (length content))) by lia.
  reflexivity.
Qed.

Lemma place_written (alignment : Z) (content header data : bytes) :
  len content <= round_up_offset (len content) (len header) alignment ->
  header <> [] ->
  write_at (write_at content (round_up_offset (len content) (len header) alignment) header)
    (round_up_offset (len content) (len header) alignment + len header) data
  = place alignment content header data.
Proof.
  intros Hoff Hheader. set (offset := round_up_offset _ _ _) in *.
  rewrite (write_at_gap content header offset Hoff Hheader).
  assert (Hlen : len (content ++ replicate (Z.to_nat (offset - len content)) x00 ++ header)
                 = offset + len header).
  { rewrite !len_app. unfold len at 2. rewrite length_replicate.
    pose proof (len_nonneg content). lia. }
  rewrite <- Hlen, write_at_end. unfold place. fold offset.
  rewrite <- !app_assoc. reflexivity.
Qed.

Lemma free_fd_same (w w' : world) :
  (forall n, fd_inode w' n = fd_inode w n) ->
  free_fd (w_fds w') = free_fd (w_fds w).
Proof.
  unfold fd_inode, fd_lookup.
  generalize (w_fds w') as fds'. generalize (w_fds w) as fds.
  induction fds as [|[f|] fds IH]; intros [|[f'|] fds'] H; cbn [free_fd];
    try reflexivity; try (specialize (H 0%nat); discriminate).
  f_equal. apply IH. intros n. exact (H (S n)).
Qed.

Lemma header_not_empty (name : pystr) (st : stat_result) (crc : Z) (h : bytes) :
  make_file_header name st crc = inr h -> h <> [] /\ 50 <= len h.
Proof.
  intros H. apply local_header_parts in H as (bname & _ & _ & _ & Hlen).
  split; [intros ->; discriminate|]. unfold len. lia.
Qed.

Lemma execute_path_step (verdict : option Z) (fuel fd : nat) (alignment : Z)
  (path : pystr) (w : world) (src_ino dst_ino : nat) (i : inode) (pos : Z)
  (content header : bytes) :
  w_dir w path = Some src_ino -> w_inodes w !! src_ino = Some i ->
  S_ISREG (i_mode i) = true -> i_readable i = true ->
  fd_at w fd dst_ino pos content -> src_ino <> dst_ino ->
  (forall req, w_ficlonerange w fd req = verdict) ->
  make_file_header path (stat_of i) (zlib_crc32 (i_data i) 0) = inr header ->
  0 < alignment < 2 ^ 64 ->
  len content + len header + alignment - 1 < 2 ^ 53 ->
  Z.of_nat (free_fd (w_fds w)) < 2 ^ 63 ->
  (length (w_reads w) + length (i_data i) + 1 < fuel)%nat ->
  exists out w' pos',
    run (execute_path fuel fd alignment path) w out
        (Some (path, stat_of i, zlib_crc32 (i_data i) 0,
               round_up_offset (len content) (len header) alignment)) w' /\
    fd_at w' fd dst_ino pos' (place alignment content header (i_data i)) /\
    steady dst_ino w w'.
Proof.
  intros Hdir Hino Hreg Hread Hdst Hne Hclone Hheader Halign Hbound Hfd2 Hfuel.
  set (offset := round_up_offset (len content) (len header) alignment).
  set (fd2 := free_fd (w_fds w)) in *.
  pose proof (run_os_open w path src_ino i Hdir Hino Hreg Hread) as Hopen.
  fold fd2 in Hopen. set (w1 := set_fds w _) in Hopen.
  assert (Hfd_ne : fd <> fd2).
  { intros ->. destruct Hdst as [Hf _]. apply fd_lookup_Some in Hf.
    exact (free_fd_not_open _ _ Hf). }
  assert (Hsrc1 : fd_at w1 fd2 src_ino 0 (i_data i)).
  { split.
    - apply fd_lookup_Some. apply install_fd_lookup.
    - cbn [w_inodes w1 set_fds]. rewrite Hino. reflexivity. }
  assert (Hdst1 : fd_at w1 fd dst_ino pos content).
  { destruct Hdst as [Hf Hi]. split; [|exact Hi].
    apply fd_lookup_Some. apply install_fd_lookup_ne. apply fd_lookup_Some. exact Hf. }
  pose proof (offset_range content header alignment ltac:(lia) Hbound) as [Hoff1 Hoff2].
  fold offset in Hoff1, Hoff2.
  pose proof (len_nonneg content) as Hc0. pose proof (len_nonneg header) as Hh0.
  edestruct (archive_file_header fd fd2 dst_ino src_ino (i_data i) content header path
               (stat_of i) alignment)
    with (K := fun (c : Z) (h : bytes) (o : Z) =>
                 cloned <- clone_or_copy fuel fd fd2 (st_size (stat_of i)) (o + len h) ;;
                 ret (c, o, cloned))
         (fuel := fuel) (w := w1) (pos2 := 0) (pos := pos)
    as (w2 & Hsrc2 & Hdst2 & Hk2 & Hr2 & Hchain); try eassumption; try reflexivity.
  fold offset in Hdst2, Hchain.
  assert (Hr2' : (length (w_reads w2) <= length (w_reads w))%nat) by exact Hr2.
  assert (Hverdict : forall req, w_ficlonerange w2 fd req = verdict).
  { intros req. rewrite Hk2. apply Hclone. }
  assert (Hplaced : exists o3 cloned w3 pos2 pos3,
            run (clone_or_copy fuel fd fd2 (st_size (stat_of i)) (offset + len header))
                w2 o3 cloned w3 /\
            fd_at w3 fd2 src_ino pos2 (i_data i) /\
            fd_at w3 fd dst_ino pos3
              (write_at (write_at content offset header) (offset + len header)
                 (i_data i))).
  { destruct verdict as [errno|].
    - edestruct (clone_or_copy_refused fd fd2 dst_ino src_ino (i_data i))
        with (st := stat_of i) (fuel := fuel) (w := w2) (pos := offset + len header)
             (errno := errno)
        as (o3 & w3 & Hrun & Hin & Hsrc3 & Hdst3);
        try eassumption; try reflexivity; try lia.
      exists o3, false, w3. eauto 10.
    - edestruct (clone_or_copy_cloned fd fd2 dst_ino src_ino (i_data i))
        with (st := stat_of i) (fuel := fuel) (w := w2) (pos := offset + len header)
        as (w3 & Hrun & Hsrc3 & Hdst3);
        try eassumption; try reflexivity; try lia.
      exists [], true, w3. eauto 10. }
  destruct Hplaced as (o3 & cloned & w3 & pos2 & pos3 & Hrun3 & Hsrc3 & Hdst3).
  destruct (Hchain (o3 ++ []) (zlib_crc32 (i_data i) 0, offset, cloned) w3)
    as (o2 & Hbody & _).
  { eapply run_bind; [exact Hrun3|]. apply run_ret. }
  pose proof (run_os_close w3 fd2 src_ino pos2 (i_data i) Hsrc3) as Hclose.
  set (w4 := set_fds w3 _) in Hclose.
  assert (Hdst4 : fd_at w4 fd dst_ino pos3
            (write_at (write_at content offset header) (offset + len header) (i_data i))).
  { eapply fd_at_frame; [reflexivity|reflexivity| |exact Hdst3]. congruence. }
  unfold offset in Hdst4.
  rewrite (place_written alignment content header (i_data i) Hoff1
             (proj1 (header_not_empty _ _ _ _ Hheader))) in Hdst4.
  assert (Hrun : exists out,
            run (execute_path fuel fd alignment path) w out
                (Some (path, stat_of i, zlib_crc32 (i_data i) 0, offset)) w4).
  { eexists. unfold execute_path.
    eapply run_bind.
    { unfold run, os_lstat, resolve. rewrite Hdir, Hino. reflexivity. }
    cbv beta. cbn [st_mode stat_of]. rewrite Hreg. cbn [negb].
    eapply run_bind; [apply run_print|]. cbv beta.
    eapply run_bind; [exact Hopen|]. cbv beta.
    eapply run_bind.
    { eapply try_finally_run; [|exact Hclose]. unfold archive_file. exact Hbody. }
    cbv beta iota.
    eapply run_bind; [apply run_print|]. cbv beta.
    apply run_ret. }
  destruct Hrun as [out Hrun].
  exists out, w4, pos3. split; [exact Hrun|]. split; [exact Hdst4|].
  apply (keeps_execute_path fd dst_ino fuel alignment path w w4).
  - apply (fd_at_fd_inode _ _ _ _ _ Hdst).
  - unfold ends_in. unfold run in Hrun. rewrite Hrun. reflexivity.
Qed.

(** X15: below 2^53 an entry is appended: after [execute] has
    processed a readable regular file, whether its data was cloned or
    copied, the archive is what it was, followed by fewer than
    [alignment] zero bytes, the local header and the data of the
    file; the data starts on a multiple of the alignment, and nothing
    that was in the archive is overwritten. *)
Theorem execute_path_appends (verdict : option Z) (fuel fd : nat) (alignment : Z)
  (path : pystr) (w : world) (src_ino dst_ino : nat) (i : inode) (pos : Z)
  (content header : bytes) :
  w_dir w path = Some src_ino -> w_inodes w !! src_ino = Some i ->
  S_ISREG (i_mode i) = true -> i_readable i = true ->
  fd_at w fd dst_ino pos content -> src_ino <> dst_ino ->
  (forall req, w_ficlonerange w fd req = verdict) ->
  make_file_header path (stat_of i) (zlib_crc32 (i_data i) 0) = inr header ->
  0 < alignment < 2 ^ 64 ->
  len content + len header + alignment - 1 < 2 ^ 53 ->
  Z.of_nat (free_fd (w_fds w)) < 2 ^ 63 ->
  (length (w_reads w) + length (i_data i) + 1 < fuel)%nat ->
  exists out w' padding,
    run (execute_path fuel fd alignment path) w out
        (Some (path, stat_of i, zlib_crc32 (i_data i) 0, len content + padding)) w' /\
    0 <= padding < alignment /\
    (len content + padding + len header) mod alignment = 0 /\
    fd_data w' fd
    = Some (content ++ replicate (Z.to_nat padding) x00 ++ header ++ i_data i).
Proof.
  intros Hdir Hino Hreg Hread Hdst Hne Hclone Hheader Halign Hbound Hfd2 Hfuel.
  destruct (execute_path_step verdict fuel fd alignment path w src_ino dst_ino i pos
              content header Hdir Hino Hreg Hread Hdst Hne Hclone Hheader Halign Hbound
              Hfd2 Hfuel) as (out & w' & pos' & Hrun & Hfd & _).
  pose proof (round_up_smallest (len content) (len header) alignment ltac:(lia))
    as (Hmod & Hle & _).
  set (offset := round_up_offset (len content) (len header) alignment) in *.
  assert (Hpad : offset - len content < alignment).
  { unfold offset, round_up_offset.
    pose proof (Z.mul_div_le (len content + len header + alignment - 1) alignment
                  ltac:(lia)).
    lia. }
  exists out, w', (offset - len content).
  replace (len content + (offset - len content)) with offset by lia.
  split; [exact Hrun|]. split; [lia|]. split; [exact Hmod|].
  apply (fd_at_data _ _ _ _ _ Hfd).
Qed.

(** ** The whole archive *)

Lemma len_place (alignment : Z) (content header data : bytes) :
  len content + len header + len data <= len (place alignment content header data).
Proof.
  unfold place. rewrite !len_app.
  pose proof (len_nonneg (replicate (Z.to_nat (round_up_offset (len content) (len header)
                                                alignment - len content)) x00)).
  lia.
Qed.

Lemma archive_entries_length (alignment : Z) (files : list (pystr * inode)) :
  forall content datas body,
    archive_entries alignment files content = inr (datas, body) ->
    len content <= len body.
Proof.
  induction files as [|[path i] files IH]; intros content datas body H; cbn in H.
  - injection H as _ <-. lia.
  - apply pyres_bind_inr in H as (header & Hh & H).
    apply pyres_bind_inr in H as ([datas' body'] & Hrest & H).
    injection H as _ <-. cbn [snd].
    apply IH in Hrest.
    pose proof (len_place alignment content header (i_data i)).
    pose proof (len_nonneg header). pose proof (len_nonneg (i_data i)). lia.
Qed.

Lemma steady_inode (dst : nat) (w w' : world) (ino : nat) (i : inode) :
  steady dst w w' -> w_inodes w !! ino = Some i ->
  exists i', w_inodes w' !! ino = Some i' /\ i_mode i' = i_mode i /\
             (ino <> dst -> i' = i).
Proof.
  intros (_ & _ & Hother & Harch & _) Hi.
  destruct (decide (ino = dst)) as [->|Hne].
  - destruct (Harch i Hi) as (i' & Hi' & Hm & _). exists i'. splits; try assumption.
    congruence.
  - exists i. rewrite (Hother ino Hne). auto.
Qed.

Lemma archivable_steady (dst : nat) (w w' : world) (path : pystr) :
  steady dst w w' -> archivable w dst path ->
  archivable w' dst path /\ regular_files w' [path] = regular_files w [path].
Proof.
  intros Hs (ino & i & Hdir & Hi & Hreg).
  destruct (steady_inode dst w w' ino i Hs Hi) as (i' & Hi' & Hm & Hsame).
  assert (Hdir' : w_dir w' path = Some ino).
  { destruct Hs as (Hd & _). rewrite Hd. exact Hdir. }
  split.
  - exists ino, i'. rewrite Hm. split; [exact Hdir'|]. split; [exact Hi'|].
    intros Hr. destruct (Hreg Hr) as [Hrd Hne]. rewrite (Hsame Hne). auto.
  - unfold regular_files, resolve. cbn [omap list_omap]. rewrite Hdir, Hdir', Hi, Hi', Hm.
    destruct (S_ISREG (i_mode i)) eqn:E; [|reflexivity].
    destruct (Hreg eq_refl) as [_ Hne]. rewrite (Hsame Hne). reflexivity.
Qed.

Lemma regular_files_cons (w : world) (path : pystr) (paths : list pystr) :
  regular_files w (path :: paths) = regular_files w [path] ++ regular_files w paths.
Proof.
  unfold regular_files. cbn [omap list_omap].
  destruct (match resolve w path with
            | Some i => if S_ISREG (i_mode i) then Some (path, i) else None
            | None => None
            end); reflexivity.
Qed.

Lemma Forall_archivable_steady (dst : nat) (w w' : world) (paths : list pystr) :
  steady dst w w' -> Forall (archivable w dst) paths ->
  Forall (archivable w' dst) paths /\ regular_files w' paths = regular_files w paths.
Proof.
  intros Hs. induction 1 as [|path paths Hp _ [IH1 IH2]].
  - split; [constructor|reflexivity].
  - destruct (archivable_steady dst w w' path Hs Hp) as [Hp' Hr].
    split; [constructor; assumption|].
    rewrite (regular_files_cons w'), (regular_files_cons w), Hr, IH2. reflexivity.
Qed.

Lemma run_os_write_end (w : world) (fd ino : nat) (content data : bytes) :
  fd_at w fd ino (len content) content ->
  exists w',
    run (os_write fd data) w [] (len data) w' /\
    fd_at w' fd ino (len (content ++ data)) (content ++ data).
Proof.
  intros Hfd.
  destruct (run_os_write w fd ino (len content) content data Hfd) as (w' & Hrun & Hfd' & _).
  exists w'. split; [exact Hrun|]. rewrite write_at_end, <- len_app in Hfd'. exact Hfd'.
Qed.

Lemma write_central_headers_run (fd ino : nat) (datas : list entry) :
  forall w content central,
    central_directory datas = inr central ->
    fd_at w fd ino (len content) content ->
    exists w',
      run (write_central_headers fd datas) w [] tt w' /\
      fd_at w' fd ino (len (content ++ central)) (content ++ central).
Proof.
  induction datas as [|[[[path st] crc] offset] datas IH]; intros w content central H Hfd;
    cbn in H.
  - injection H as <-. exists w. split; [apply run_ret|].
    rewrite app_nil_r. exact Hfd.
  - apply pyres_bind_inr in H as (header & Hh & H).
    apply pyres_bind_inr in H as (rest & Hrest & H). injection H as <-.
    destruct (run_os_write_end w fd ino content header Hfd) as (w1 & Hw & Hfd1).
    destruct (IH w1 (content ++ header) rest Hrest Hfd1) as (w' & Hrun & Hfd').
    exists w'. split.
    + cbn [write_central_headers].
      change (@nil out_event) with (@nil out_event ++ ([] ++ [])).
      eapply run_bind; [apply run_lift; exact Hh|]. cbv beta.
      eapply run_bind; [exact Hw|]. exact Hrun.
    + rewrite <- app_assoc in Hfd'. exact Hfd'.
Qed.

Lemma execute_path_skips (fuel fd : nat) (alignment : Z) (path : pystr) (w : world)
  (i : inode) :
  resolve w path = Some i -> S_ISREG (i_mode i) = false ->
  execute_path fuel fd alignment path w = ([], Ok None w).
Proof.
  intros Hres Hreg. unfold execute_path. rewrite bind_unfold.
  unfold os_lstat. rewrite Hres. cbn [fst snd st_mode stat_of]. rewrite Hreg.
  reflexivity.
Qed.

Section Archive.

Variables (verdict : option Z) (fuel fd dst : nat) (alignment : Z).
Hypothesis alignment_range : 0 < alignment < 2 ^ 64.

Lemma execute_paths_builds (paths : list pystr) :
  forall w datas0 pos content datas body,
    fd_at w fd dst pos content ->
    Forall (archivable w dst) paths ->
    (forall req, w_ficlonerange w fd req = verdict) ->
    Z.of_nat (free_fd (w_fds w)) < 2 ^ 63 ->
    Forall (fun f : pystr * inode =>
              (length (w_reads w) + length (i_data f.2) + 1 < fuel)%nat)
           (regular_files w paths) ->
    archive_entries alignment (regular_files w paths) content = inr (datas, body) ->
    len body + alignment <= 2 ^ 53 ->
    exists o w' pos',
      run (execute_paths fuel fd alignment paths datas0) w o (datas0 ++ datas) w' /\
      fd_at w' fd dst pos' body /\ steady dst w w'.
Proof.
  induction paths as [|path paths IH];
    intros w datas0 pos content datas body Hfd Hpaths Hclone Hfree Hfuel Hentries Hbound.
  - cbn in Hentries. injection Hentries as <- <-.
    exists [], w, pos. rewrite app_nil_r.
    split; [apply run_ret|]. split; [exact Hfd|apply steady_refl].
  - apply Forall_cons in Hpaths as [(ino & i & Hdir & Hi & Hreg) Hpaths].
    assert (Hres : resolve w path = Some i) by (unfold resolve; rewrite Hdir; exact Hi).
    rewrite regular_files_cons in Hfuel, Hentries.
    unfold regular_files at 1 in Hfuel. unfold regular_files at 1 in Hentries.
    cbn [omap list_omap] in Hfuel, Hentries. rewrite Hres in Hfuel, Hentries.
    cbn [execute_paths].
    destruct (S_ISREG (i_mode i)) eqn:Ereg.
    + (* a regular file is archived *)
      destruct (Hreg eq_refl) as [Hread Hne].
      cbn [app] in Hfuel, Hentries. cbn [archive_entries] in Hentries.
      apply Forall_cons in Hfuel as [Hfuel1 Hfuel].
      apply pyres_bind_inr in Hentries as (header & Hheader & Hentries).
      apply pyres_bind_inr in Hentries as ([datas' body'] & Hrest & Hentries).
      cbn [fst snd] in Hentries. injection Hentries as <- <-.
      pose proof (archive_entries_length _ _ _ _ _ Hrest) as Hlen.
      pose proof (len_place alignment content header (i_data i)) as Hplace.
      pose proof (len_nonneg (i_data i)) as Hd0.
      destruct (execute_path_step verdict fuel fd alignment path w ino dst i pos
                  content header Hdir Hi Ereg Hread Hfd Hne Hclone Hheader
                  alignment_range ltac:(lia) Hfree Hfuel1)
        as (o1 & w1 & pos1 & Hrun1 & Hfd1 & Hs1).
      destruct (Forall_archivable_steady dst w w1 paths Hs1 Hpaths) as [Hpaths1 Hfiles1].
      pose proof Hs1 as (_ & Hfds1 & _ & _ & Hker1 & Hreads1).
      destruct (IH w1 (datas0 ++ [(path, stat_of i, zlib_crc32 (i_data i) 0,
                                   round_up_offset (len content) (len header) alignment)])
                  pos1 (place alignment content header (i_data i)) datas' body'
                  Hfd1 Hpaths1)
        as (o2 & w2 & pos2 & Hrun2 & Hfd2 & Hs2).
      * intros req. rewrite Hker1. apply Hclone.
      * rewrite (free_fd_same w w1 Hfds1). exact Hfree.
      * rewrite Hfiles1. eapply Forall_impl; [exact Hfuel|].
        intros f Hf. cbv beta in Hf. lia.
      * rewrite Hfiles1. exact Hrest.
      * exact Hbound.
      * exists (o1 ++ o2), w2, pos2. split; [|split].
        -- eapply run_bind; [exact Hrun1|]. cbv beta iota.
           rewrite <- app_assoc in Hrun2. exact Hrun2.
        -- exact Hfd2.
        -- exact (steady_trans dst w w1 w2 Hs1 Hs2).
    + (* anything else is passed over *)
      cbn [app] in Hfuel, Hentries.
      destruct (IH w datas0 pos content datas body Hfd Hpaths Hclone Hfree Hfuel
                  Hentries Hbound) as (o2 & w2 & pos2 & Hrun2 & Hfd2 & Hs2).
      exists o2, w2, pos2. split; [|split; assumption].
      unfold run. rewrite bind_unfold.
      rewrite (execute_path_skips fuel fd alignment path w i Hres Ereg).
      unfold run in Hrun2. rewrite Hrun2. reflexivity.
Qed.

End Archive.

(** X16: [execute] builds the archive that the files determine.  When
    every path exists, every regular file among them can be read and
    is not the archive itself, the headers and end records can be
    packed and the archive stays below 2^53 bytes, the run ends
    normally, given fuel for the longest file, and leaves in the
    archive exactly [archive_of]: what it held before, then for each
    regular file in order the zero padding, the local header and the
    data, then the central directory and the three end records;
    whether the file system clones or refuses makes no difference. *)
Theorem execute_builds_archive (verdict : option Z) (fuel fd dst : nat) (alignment : Z)
  (paths : list pystr) (w : world) (pos : Z) (content archive : bytes) :
  0 < alignment < 2 ^ 64 ->
  fd_at w fd dst pos content ->
  Forall (archivable w dst) paths ->
  (forall req, w_ficlonerange w fd req = verdict) ->
  Z.of_nat (free_fd (w_fds w)) < 2 ^ 63 ->
  Forall (fun f : pystr * inode =>
            (length (w_reads w) + length (i_data f.2) + 1 < fuel)%nat)
         (regular_files w paths) ->
  archive_of alignment (regular_files w paths) content = inr archive ->
  len archive + alignment <= 2 ^ 53 ->
  exists o w',
    run (execute fuel fd paths alignment) w o tt w' /\
    fd_data w' fd = Some archive.
Proof.
  intros Halign Hfd Hpaths Hclone Hfree Hfuel Harchive Hbound.
  unfold archive_of in Harchive.
  apply pyres_bind_inr in Harchive as ([datas body] & Hentries & Harchive).
  cbn [fst snd] in Harchive.
  apply pyres_bind_inr in Harchive as (central & Hcentral & Harchive).
  apply pyres_bind_inr in Harchive as (eocd64 & Heocd64 & Harchive).
  apply pyres_bind_inr in Harchive as (locator & Hlocator & Harchive).
  apply pyres_bind_inr in Harchive as (eocd & Heocd & Harchive).
  injection Harchive as <-.
  rewrite !len_app in Hbound.
  pose proof (len_nonneg central). pose proof (len_nonneg eocd64).
  pose proof (len_nonneg locator). pose proof (len_nonneg eocd).
  pose proof (len_nonneg body) as Hb0.
  destruct (execute_paths_builds verdict fuel fd dst alignment Halign paths w [] pos
              content datas body Hfd Hpaths Hclone Hfree Hfuel Hentries ltac:(lia))
    as (o1 & w1 & pos1 & Hrun1 & Hfd1 & _).
  cbn [app] in Hrun1.
  pose proof (run_os_lseek_end w1 fd dst pos1 body Hfd1) as Hend.
  set (w2 := set_fds w1 _) in Hend.
  assert (Hfd2 : fd_at w2 fd dst (len body) body).
  { destruct Hfd1 as [Hf Hi]. split; [|exact Hi].
    eapply fd_lookup_eq; [reflexivity|exact Hf]. }
  destruct (write_central_headers_run fd dst datas w2 body central Hcentral Hfd2)
    as (w3 & Hrun3 & Hfd3).
  pose proof (run_os_lseek_cur w3 fd dst (len (body ++ central)) (body ++ central) Hfd3
                (len_nonneg _)) as Hcur.
  set (w4 := set_fds w3 _) in Hcur.
  assert (Hfd4 : fd_at w4 fd dst (len (body ++ central)) (body ++ central)).
  { destruct Hfd3 as [Hf Hi]. split; [|exact Hi].
    eapply fd_lookup_eq; [reflexivity|exact Hf]. }
  rewrite len_app in Hcur.
  destruct (run_os_write_end w4 fd dst (body ++ central) eocd64 Hfd4) as (w5 & Hw5 & Hfd5).
  destruct (run_os_write_end w5 fd dst _ locator Hfd5) as (w6 & Hw6 & Hfd6).
  destruct (run_os_write_end w6 fd dst _ eocd Hfd6) as (w7 & Hw7 & Hfd7).
  eexists. exists w7. split.
  - unfold execute.
    eapply run_bind; [apply run_print|]. cbv beta.
    eapply run_bind; [exact Hrun1|]. cbv beta.
    eapply run_bind; [exact Hend|]. cbv beta.
    eapply run_bind; [exact Hrun3|]. cbv beta.
    eapply run_bind; [exact Hcur|]. cbv beta.
    eapply run_bind; [apply run_lift; exact Heocd64|]. cbv beta.
    eapply run_bind; [exact Hw5|]. cbv beta.
    eapply run_bind; [apply run_lift; exact Hlocator|]. cbv beta.
    eapply run_bind; [exact Hw6|]. cbv beta.
    eapply run_bind; [apply run_lift; exact Heocd|]. cbv beta.
    eapply run_bind; [exact Hw7|]. cbv beta.
    apply run_ret.
  - rewrite (fd_at_data _ _ _ _ _ Hfd7). rewrite <- !app_assoc. reflexivity.
Qed.

End Zipref.

(** * The properties at concrete inputs *)

Lemma get_dos_date_time_fields_witness :
  1980 <= tm_year (example_localtime (S754_zero false)) <= 2107 /\
  tm_in_range (example_localtime (S754_zero false)) /\
  Z.shiftr (fst (get_dos_date_time example_localtime (S754_zero false))) 9 = 44 /\
  2 * Z.land (snd (get_dos_date_time example_localtime (S754_zero false))) 31 = 30.
Proof.
  assert (H1 : 1980 <= tm_year (example_localtime (S754_zero false)) <= 2107)
    by (cbn; lia).
  assert (H2 : tm_in_range (example_localtime (S754_zero false)))
    by (unfold tm_in_range; cbn; lia).
  split; [exact H1|]. split; [exact H2|].
  destruct (get_dos_date_time_fields example_localtime (S754_zero false) H1 H2)
    as (_ & _ & _ & _ & Hy & _ & _ & _ & _ & Hs).
  split; [exact Hy|exact Hs].
Defined.

Lemma headers_always_zip64_witness :
  exists lh ch,
    make_file_header example_localtime path_big example_stat 7 = inr lh /\
    make_central_header example_localtime path_big example_stat 7 11 = inr ch /\
    unpack_field ZipFileHeader 7 lh = 0xFFFFFFFF /\
    unpack_field Zip64FileHeaderExtraField 2 (local_extra lh) = 7 /\
    unpack_field ZipCentralDirectoryFileHeader 16 ch = 0xFFFFFFFF /\
    unpack_field Zip64CentralDirectoryFileHeaderExtraField 4 (central_extra ch) = 11.
Proof.
  destruct (headers_always_zip64 example_localtime path_big example_stat 7 11)
    as (Hlocal & Hcentral & Htotal).
  destruct (Htotal ltac:(cbn; lia) ltac:(lia) ltac:(lia)
              ltac:(vm_compute; split; congruence) ltac:(vm_compute; split; congruence)
              [x62; x69; x67] eq_refl ltac:(vm_compute; reflexivity))
    as (lh & ch & Hl & Hc).
  exists lh, ch.
  destruct (Hlocal lh Hl) as (H7 & _ & _ & _ & _ & Hsize & _).
  destruct (Hcentral ch Hc) as (_ & _ & H16 & _ & _ & _ & _ & _ & Hoff & _).
  repeat split; assumption.
Defined.

Lemma header_names_round_trip_witness :
  exists lh ch,
    make_file_header example_localtime (os_fsdecode example_raw_name) example_stat 7
    = inr lh /\
    make_central_header example_localtime (os_fsdecode example_raw_name) example_stat 7 11
    = inr ch /\
    local_name lh = example_raw_name /\ central_name ch = example_raw_name /\
    os_fsdecode (local_name lh) = [97; 233; 0xDCFF].
Proof.
  destruct (make_file_header example_localtime (os_fsdecode example_raw_name)
              example_stat 7) as [e|lh] eqn:Hl; [vm_compute in Hl; discriminate|].
  destruct (make_central_header example_localtime (os_fsdecode example_raw_name)
              example_stat 7 11) as [e|ch] eqn:Hc; [vm_compute in Hc; discriminate|].
  exists lh, ch.
  destruct (header_names_round_trip example_localtime (os_fsdecode example_raw_name)
              example_stat 7 11 lh ch Hl Hc) as (_ & _ & Hraw).
  destruct (Hraw example_raw_name eq_refl) as (H1 & H2 & H3 & _).
  repeat split; assumption.
Defined.

Lemma chunk_iterator_yields_witness :
  exists chunks w',
    run (chunks_of 20 (chunk_iterator 4 2 5 default_chunk_size))
        (example_reader [0; 3; 0; 0; 1]) [] chunks w' /\
    Forall (chunk_ok default_chunk_size) chunks /\
    concat chunks = [x03; x04; x05; x06; x07] /\
    fd_at w' 4 1 7 example_big.
Proof.
  destruct (chunk_iterator_yields 4 1 5 example_big 2 5 20 (example_reader [0; 3; 0; 0; 1]))
    as [(chunks & w' & Hrun & Hall & Hcat & _ & Hfd) _].
  - split; reflexivity.
  - lia.
  - lia.
  - vm_compute. discriminate.
  - cbn. lia.
  - exists chunks, w'. repeat split; try assumption; apply Hfd.
Defined.

Lemma compute_crc32_chunking_witness :
  exists crc o1 w1 o2 w2,
    0 <= crc < 2 ^ 32 /\
    run (compute_crc32 20 (chunk_iterator 4 0 7 default_chunk_size))
        (example_reader [0; 3; 0; 0; 1]) o1 crc w1 /\
    run (compute_crc32 20 (chunk_iterator 4 0 7 default_chunk_size))
        (example_reader []) o2 crc w2.
Proof.
  destruct compute_crc32_chunking as [_ H].
  destruct (chunks_of 20 (chunk_iterator 4 0 7 default_chunk_size)
              (example_reader [0; 3; 0; 0; 1])) as [o1 [chunks1 w1| |]] eqn:E1;
    [|vm_compute in E1; discriminate..].
  destruct (chunks_of 20 (chunk_iterator 4 0 7 default_chunk_size)
              (example_reader [])) as [o2 [chunks2 w2| |]] eqn:E2;
    [|vm_compute in E2; discriminate..].
  assert (Hcat : concat chunks1 = concat chunks2).
  { vm_compute in E1, E2. injection E1 as _ <- _. injection E2 as _ <- _. reflexivity. }
  destruct (H _ _ _ _ _ _ _ _ _ _ _ _ E1 E2 Hcat) as (crc & Hr & H1 & H2).
  exists crc, o1, w1, o2, w2. auto.
Defined.

Lemma execute_keeps_order_witness :
  exists o w' datas local_events central_events trailer,
    run (execute example_localtime 100 3 [path_big; path_d; path_s] 64)
        (example_world (Some 18)) o tt w' /\
    map entry_path datas = [path_big; path_s] /\
    entries_written example_localtime 3 datas local_events /\
    central_written example_localtime 3 datas central_events /\
    length trailer = 3%nat /\
    w_writes w' = local_events ++ central_events ++ trailer.
Proof.
  destruct (execute example_localtime 100 3 [path_big; path_d; path_s] 64
              (example_world (Some 18))) as [o [[] w'| |]] eqn:E;
    [|vm_compute in E; discriminate..].
  destruct (execute_keeps_order example_localtime 100 3 [path_big; path_d; path_s] 64
              (example_world (Some 18)) o w' E)
    as (datas & levs & cevs & trailer & Hmap & Hew & Hcw & Hlen & Hlog).
  exists o, w', datas, levs, cevs, trailer. repeat split; assumption.
Defined.

Lemma execute_counts_regular_files_witness :
  execute_path example_localtime 100 3 64 path_d (example_world None)
  = ([], Ok None (example_world None)) /\
  (exists o w' before central_events eocd64 locator eocd p1 p2 p3,
     run (execute example_localtime 100 3 [path_big; path_d; path_s] 64)
         (example_world None) o tt w' /\
     w_writes w' = before ++ central_events
                     ++ [(3%nat, p1, eocd64); (3%nat, p2, locator); (3%nat, p3, eocd)] /\
     length central_events = 2%nat /\
     unpack_field Zip64EndOfCentralDirectoryRecord 6 eocd64 = 2 /\
     unpack_field Zip64EndOfCentralDirectoryRecord 7 eocd64 = 2) /\
  (exists o w' eocd64 locator eocd,
     run (execute example_localtime 100 3 [] 64) (example_world None) o tt w' /\
     fd_data w' 3 = Some ([] ++ eocd64 ++ locator ++ eocd) /\
     unpack_field Zip64EndOfCentralDirectoryRecord 6 eocd64 = 0 /\
     unpack_field Zip64EndOfCentralDirectoryRecord 8 eocd64 = 0).
Proof.
  destruct (execute_counts_regular_files example_localtime 100 3 64)
    as (Hskip & Hcount & Hempty).
  split; [|split].
  - apply (Hskip path_d (example_world None) (example_inode 0x41ED [])); reflexivity.
  - destruct (execute example_localtime 100 3 [path_big; path_d; path_s] 64
                (example_world None)) as [o [[] w'| |]] eqn:E;
      [|vm_compute in E; discriminate..].
    destruct (Hcount _ _ _ _ E)
      as (before & cevs & eocd64 & locator & eocd & p1 & p2 & p3 & Hlog & Hlen & H6 & H7).
    exists o, w', before, cevs, eocd64, locator, eocd, p1, p2, p3.
    repeat split; assumption.
  - destruct (Hempty (example_world None) 0%nat 0 [])
      as (o & w' & eocd64 & locator & eocd & Hrun & Hdata & H6 & _ & H8 & _).
    + split; reflexivity.
    + vm_compute. reflexivity.
    + exists o, w', eocd64, locator, eocd. repeat split; assumption.
Defined.

Lemma clone_refused_copies_witness :
  exists header offset out w' archive,
    make_file_header example_localtime path_big
      (stat_of (example_inode 0x81A4 example_big)) (zlib_crc32 example_big 0)
    = inr header /\
    run (execute_path example_localtime 100 3 64 path_big) (example_world (Some 18)) out
        (Some (path_big, stat_of (example_inode 0x81A4 example_big),
               zlib_crc32 example_big 0, offset)) w' /\
    In (MsgError 18) out /\
    (offset + len header) mod 64 = 0 /\
    fd_data w' 3 = Some archive /\
    take (length example_big) (drop (Z.to_nat (offset + len header)) archive)
    = example_big.
Proof.
  destruct (make_file_header example_localtime path_big
              (stat_of (example_inode 0x81A4 example_big)) (zlib_crc32 example_big 0))
    as [e|header] eqn:Hh; [vm_compute in Hh; discriminate|].
  assert (Hlen : len header = 53).
  { destruct (local_header_parts _ _ _ _ _ Hh) as (bname & Hb & _ & _ & Hl).
    vm_compute in Hb. injection Hb as <-. unfold len. rewrite Hl. reflexivity. }
  assert (Hfd : fd_at (example_world (Some 18)) 3 0 0 []) by (split; reflexivity).
  assert (Hbound : len (@nil byte) + len header + 64 - 1 < 2 ^ 53)
    by (rewrite Hlen; vm_compute; reflexivity).
  assert (Hfuel : (length (w_reads (example_world (Some 18%Z)))
                   + length (i_data (example_inode 0x81A4%Z example_big)) + 1 < 100)%nat)
    by (cbn; lia).
  destruct (clone_refused_copies example_localtime 100 3 64 path_big
              (example_world (Some 18)) 1 0 (example_inode 0x81A4 example_big) 0 []
              header 18 eq_refl eq_refl eq_refl eq_refl Hfd ltac:(discriminate)
              (fun _ => eq_refl) Hh ltac:(lia) Hbound ltac:(vm_compute; reflexivity)
              Hfuel)
    as (offset & out & w' & archive & Hrun & Herr & _ & Hmod & Hdata & _ & Hsrc & _).
  exists header, offset, out, w', archive. repeat split; assumption.
Defined.

(** * The further properties at concrete inputs *)



Lemma local_header_fields_witness :
  exists h,
    make_file_header example_localtime path_big example_stat 7 = inr h /\
    unpack_field ZipFileHeader 0 h = 0x04034b50 /\
    unpack_field ZipFileHeader 3 h = 0 /\
    unpack_field ZipFileHeader 6 h = 7 /\
    len h = 30 + len (local_name h) + 20.
Proof.
  destruct (make_file_header example_localtime path_big example_stat 7)
    as [e|h] eqn:Hh; [vm_compute in Hh; discriminate|].
  exists h.
  destruct (local_header_fields example_localtime path_big example_stat 7 h Hh)
    as (H0 & _ & _ & H3 & _ & _ & H6 & _ & Hlen).
  repeat split; assumption.
Defined.

Lemma central_header_fields_witness :
  exists h,
    make_central_header example_localtime path_big example_stat 7 11 = inr h /\
    unpack_field ZipCentralDirectoryFileHeader 0 h = 0x02014b50 /\
    unpack_field ZipCentralDirectoryFileHeader 7 h = 7 /\
    unpack_field ZipCentralDirectoryFileHeader 12 h = 0 /\
    len h = 46 + len (central_name h) + 28.
Proof.
  destruct (make_central_header example_localtime path_big example_stat 7 11)
    as [e|h] eqn:Hh; [vm_compute in Hh; discriminate|].
  exists h.
  destruct (central_header_fields example_localtime path_big example_stat 7 11 h Hh)
    as (H0 & _ & _ & _ & _ & _ & _ & H7 & _ & H12 & _ & _ & _ & Hlen).
  repeat split; assumption.
Defined.

Lemma clone_range_request_witness :
  (exists data,
     len data = 32 /\
     unpack_file_clone_range data
     = {| src_fd := 4; src_offset := 0; src_length := 7; dest_offset := 64 |} /\
     clone_range 4 0 7 3 64 (example_reader [])
     = fcntl_ioctl 3 FICLONERANGE data (example_reader [])) /\
  clone_range 4 0 7 3 (-1) (example_reader [])
  = ([], Raise StructError (example_reader [])).
Proof.
  split.
  - destruct (clone_range_request 4 3 0 7 64 (example_reader []) ltac:(vm_compute; reflexivity))
      as [Hok _].
    destruct (Hok ltac:(lia) ltac:(lia) ltac:(lia)) as (data & Hlen & _ & Hreq & Hrun).
    exists data. repeat split; assumption.
  - destruct (clone_range_request 4 3 0 7 (-1) (example_reader [])
                ltac:(vm_compute; reflexivity)) as [_ Hbad].
    apply Hbad. lia.
Defined.

Lemma chunk_iterator_short_file_hangs_witness :
  snd (chunks_of 50 (chunk_iterator 4 5 3 default_chunk_size) (example_reader []))
  = Diverge /\
  snd (compute_crc32 50 (chunk_iterator 4 5 3 default_chunk_size) (example_reader []))
  = Diverge.
Proof.
  apply (chunk_iterator_short_file_hangs 4 1 5 example_big 5 3 default_chunk_size
           (example_reader []) 50).
  - split; reflexivity.
  - lia.
  - vm_compute. reflexivity.
  - lia.
  - vm_compute. reflexivity.
Defined.

Lemma chunk_iterator_no_length_witness :
  (exists w1, chunks_of 2 (chunk_iterator 4 2 0 default_chunk_size) (example_reader [])
              = ([], Ok [] w1)) /\
  (exists w1, chunks_of 2 (chunk_iterator 4 2 (-1) default_chunk_size) (example_reader [])
              = ([], Raise (OSError EINVAL) w1)).
Proof.
  split.
  - destruct (chunk_iterator_no_length 4 1 5 example_big 2 0 default_chunk_size
                (example_reader []) 2) as [H0 _].
    + split; reflexivity.
    + lia.
    + lia.
    + eexists. apply H0. reflexivity.
  - destruct (chunk_iterator_no_length 4 1 5 example_big 2 (-1) default_chunk_size
                (example_reader []) 2) as [_ Hneg].
    + split; reflexivity.
    + lia.
    + lia.
    + eexists. apply Hneg. lia.
Defined.

Lemma execute_leaves_descriptors_witness :
  exists o e w',
    execute example_localtime 100 3 [path_big; path_missing; path_s] 64
      (example_world (Some 18)) = (o, Raise e w') /\
    forall n, fd_inode w' n = fd_inode (example_world (Some 18)) n.
Proof.
  destruct (execute example_localtime 100 3 [path_big; path_missing; path_s] 64
              (example_world (Some 18))) as [o [u w'|e w'|]] eqn:E;
    [vm_compute in E; discriminate| |vm_compute in E; discriminate].
  exists o, e, w'. split; [reflexivity|].
  apply (execute_leaves_descriptors example_localtime 100 3 0
           [path_big; path_missing; path_s] 64 (example_world (Some 18)) w').
  - reflexivity.
  - unfold ends_in. rewrite E. reflexivity.
Defined.

Lemma execute_changes_only_archive_witness :
  exists o w',
    run (execute example_localtime 100 3 [path_big; path_d; path_s] 64)
        (example_world (Some 18)) o tt w' /\
    w_dir w' = example_dir /\
    (forall ino, ino <> 0%nat ->
       w_inodes w' !! ino = w_inodes (example_world (Some 18)) !! ino).
Proof.
  destruct (execute example_localtime 100 3 [path_big; path_d; path_s] 64
              (example_world (Some 18))) as [o [[] w'| |]] eqn:E;
    [|vm_compute in E; discriminate..].
  exists o, w'. split; [exact E|].
  destruct (execute_changes_only_archive example_localtime 100 3 0
              [path_big; path_d; path_s] 64 (example_world (Some 18)) w')
    as (Hdir & Hother & _).
  - reflexivity.
  - unfold ends_in. rewrite E. reflexivity.
  - split; assumption.
Defined.

Lemma execute_trailer_locates_directory_witness :
  exists o w' body headers eocd64 locator eocd,
    run (execute example_localtime 100 3 [path_big; path_d; path_s] 64)
        (example_world None) o tt w' /\
    length headers = 2%nat /\
    fd_data w' 3 = Some (body ++ concat headers ++ eocd64 ++ locator ++ eocd) /\
    unpack_field Zip64EndOfCentralDirectoryRecord 8 eocd64 = len (concat headers) /\
    unpack_field Zip64EndOfCentralDirectoryRecord 9 eocd64 = len body /\
    unpack_field Zip64EndOfCentralDirectoryLocator 2 locator
    = len body + len (concat headers).
Proof.
  destruct (execute example_localtime 100 3 [path_big; path_d; path_s] 64
              (example_world None)) as [o [[] w'| |]] eqn:E;
    [|vm_compute in E; discriminate..].
  destruct (execute_trailer_locates_directory example_localtime 100 3
              [path_big; path_d; path_s] 64 (example_world None) o w' E)
    as (datas & body & headers & eocd64 & locator & eocd & Hmap & Hheaders & Hdata
        & _ & (_ & _ & H8 & H9) & (_ & Hloc & _) & _).
  exists o, w', body, headers, eocd64, locator, eocd.
  split; [exact E|]. split; [|repeat split; assumption].
  assert (Hd : length datas = 2%nat).
  { rewrite <- (length_map entry_path), Hmap. reflexivity. }
  exact (eq_trans (eq_sym (Forall2_length _ _ _ Hheaders)) Hd).
Defined.


Lemma execute_path_raises_unwritten_witness :
  exists o w',
    execute_path epoch_localtime 100 3 64 path_big (example_world None)
    = (o, Raise StructError w') /\
    fd_data w' 3 = Some [] /\
    w_writes w' = [].
Proof.
  destruct (execute_path_raises_unwritten epoch_localtime 100 3 64 path_big
              (example_world None) 1 0 (example_inode 0x81A4 example_big) 0 []
              StructError)
    as (o & w' & Hrun & Hdata & Hwrites & _).
  - reflexivity.
  - reflexivity.
  - reflexivity.
  - reflexivity.
  - split; reflexivity.
  - discriminate.
  - cbn. lia.
  - left. vm_compute. reflexivity.
  - exists o, w'. repeat split; assumption.
Defined.

Lemma progress_dots_bound_witness :
  exists o chunks w' o',
    run (chunks_of 20 (chunk_iterator 4 0 7 default_chunk_size))
        (example_reader [0; 3; 0; 0; 1]) o chunks w' /\
    run (chunks_of 20 (progress (chunk_iterator 4 0 7 default_chunk_size) 3))
        (example_reader [0; 3; 0; 0; 1]) o' chunks w' /\
    (count_dots o' - count_dots o) * 3 <= len (concat chunks).
Proof.
  destruct (chunks_of 20 (chunk_iterator 4 0 7 default_chunk_size)
              (example_reader [0; 3; 0; 0; 1])) as [o [chunks w'| |]] eqn:E;
    [|vm_compute in E; discriminate..].
  destruct (progress_dots_bound (chunk_iterator 4 0 7 default_chunk_size) 3 20
              (example_reader [0; 3; 0; 0; 1]) o chunks w' ltac:(lia) E)
    as (o' & Hrun & _ & Hbound).
  exists o, chunks, w', o'. repeat split; assumption.
Defined.

Lemma archive_file_clones_or_copies_witness :
  exists o crc offset cloned w' header data_writes,
    run (archive_file example_localtime 100 3 64 path_big example_stat 4)
        (example_reader []) o (crc, offset, cloned) w' /\
    make_file_header example_localtime path_big example_stat crc = inr header /\
    w_writes w' = (3%nat, offset, header) :: data_writes /\
    (cloned = true -> data_writes = []).
Proof.
  destruct (archive_file example_localtime 100 3 64 path_big example_stat 4
              (example_reader [])) as [o [[[crc offset] cloned] w'| |]] eqn:E;
    [|vm_compute in E; discriminate..].
  destruct (archive_file_clones_or_copies example_localtime 100 3 64 path_big
              example_stat 4 (example_reader []) o crc offset cloned w' E)
    as (header & data_writes & Hheader & Hlog & _ & Hcloned & _).
  exists o, crc, offset, cloned, w', header, data_writes.
  repeat split; assumption.
Defined.

Lemma execute_path_appends_witness :
  exists header out w' padding,
    make_file_header example_localtime path_big
      (stat_of (example_inode 0x81A4 example_big)) (zlib_crc32 example_big 0)
    = inr header /\
    run (execute_path example_localtime 100 3 64 path_big) (example_world None) out
        (Some (path_big, stat_of (example_inode 0x81A4 example_big),
               zlib_crc32 example_big 0, 0 + padding)) w' /\
    0 <= padding < 64 /\
    fd_data w' 3
    = Some ([] ++ replicate (Z.to_nat padding) x00 ++ header ++ example_big).
Proof.
  destruct (make_file_header example_localtime path_big
              (stat_of (example_inode 0x81A4 example_big)) (zlib_crc32 example_big 0))
    as [e|header] eqn:Hh; [vm_compute in Hh; discriminate|].
  assert (Hlen : len header = 53).
  { destruct (local_header_parts _ _ _ _ _ Hh) as (bname & Hb & _ & _ & Hl).
    vm_compute in Hb. injection Hb as <-. unfold len. rewrite Hl. reflexivity. }
  assert (Hfd : fd_at (example_world None) 3 0 0 []) by (split; reflexivity).
  assert (Hbound : len (@nil byte) + len header + 64 - 1 < 2 ^ 53)
    by (rewrite Hlen; vm_compute; reflexivity).
  assert (Hfuel : (length (w_reads (example_world None))
                   + length (i_data (example_inode 0x81A4%Z example_big)) + 1 < 100)%nat)
    by (cbn; lia).
  destruct (execute_path_appends example_localtime None 100 3 64 path_big
              (example_world None) 1 0 (example_inode 0x81A4 example_big) 0 []
              header eq_refl eq_refl eq_refl eq_refl Hfd ltac:(discriminate)
              (fun _ => eq_refl) Hh ltac:(lia) Hbound ltac:(vm_compute; reflexivity)
              Hfuel)
    as (out & w' & padding & Hrun & Hpad & _ & Hdata).
  exists header, out, w', padding. repeat split; try assumption; apply Hpad.
Defined.

Lemma execute_builds_archive_witness :
  exists archive o w',
    archive_of example_localtime 64
      (regular_files (example_world (Some 18)) [path_big; path_d; path_s]) []
    = inr archive /\
    run (execute example_localtime 100 3 [path_big; path_d; path_s] 64)
        (example_world (Some 18)) o tt w' /\
    fd_data w' 3 = Some archive.
Proof.
  destruct (archive_of example_localtime 64
              (regular_files (example_world (Some 18)) [path_big; path_d; path_s]) [])
    as [e|archive] eqn:Harchive; [vm_compute in Harchive; discriminate|].
  assert (Hbound : len archive + 64 <= 2 ^ 53).
  { vm_compute in Harchive. injection Harchive as <-. vm_compute. discriminate. }
  assert (Hfd : fd_at (example_world (Some 18)) 3 0 0 []) by (split; reflexivity).
  assert (Hpaths : Forall (archivable (example_world (Some 18)) 0)
                          [path_big; path_d; path_s]).
  { repeat constructor.
    - exists 1%nat, (example_inode 0x81A4 example_big).
      repeat split; try reflexivity. discriminate.
    - exists 2%nat, (example_inode 0x41ED []).
      repeat split; try reflexivity. discriminate.
    - exists 3%nat, (example_inode 0x81A4 [x0a; x0b]).
      repeat split; try reflexivity. discriminate. }
  assert (Hfuel : Forall (fun f : pystr * inode =>
                            (length (w_reads (example_world (Some 18%Z)))
                             + length (i_data f.2) + 1 < 100)%nat)
                         (regular_files (example_world (Some 18))
                            [path_big; path_d; path_s])).
  { repeat constructor; cbn; lia. }
  destruct (execute_builds_archive example_localtime (Some 18) 100 3 0 64
              [path_big; path_d; path_s] (example_world (Some 18)) 0 [] archive
              ltac:(lia) Hfd Hpaths (fun _ => eq_refl) ltac:(vm_compute; reflexivity)
              Hfuel Harchive Hbound) as (o & w' & Hrun & Hdata).
  exists archive, o, w'. repeat split; assumption.
Defined.
